(** * EmailParser: a shallow embedding of [email_parser.py]

    The development follows the source file top to bottom:

    - [Text]: Python strings as Rocq strings over code points below 256,
      with [str.lower] and [str.split];
    - [Regex]: the backtracking semantics of Python's [re] module for the
      constructs the address pattern uses, the pattern itself, and
      [findall];
    - [Difflib]: [SequenceMatcher(None, a, b).ratio()];
    - [Run]: a state and exception monad over the fields of the
      [EmailParser] object, the output file and the console;
    - [Html] and [Parser]: [EmailHTMLParser] and [EmailParser], method by
      method.

    Then come the definitions that the properties are stated with, the
    lemmas about each part, the claims of the specification, and further
    properties of the code.

    Floating point numbers are read as exact rationals ([Q]). The public
    suffix list behind [tldextract] and the order in which Python goes
    through a set are parameters. *)

From Stdlib Require Import Ascii String NArith QArith Qminmax Lqa.
From stdpp Require Import gmap strings list.

Local Open Scope string_scope.
Local Open Scope list_scope.

(** ** Text *)

Module Text.

(** The code point of a character. *)
Definition code (c : ascii) : N := N_of_ascii c.

Definition between (lo hi : N) (c : ascii) : bool :=
  ((lo <=? code c) && (code c <=? hi))%N.

(** [str.lower] on one code point below 256: the ASCII capitals and the
    Latin-1 capitals U+00C0..U+00DE (U+00D7 is the multiplication sign). *)
Definition lower_char (c : ascii) : ascii :=
  if between 65 90 c then ascii_of_N (code c + 32)
  else if between 192 222 c && negb (code c =? 215)%N
       then ascii_of_N (code c + 32)
  else c.

(** The other case of an ASCII letter, any other character unchanged. *)
Definition swapcase_char (c : ascii) : ascii :=
  if between 65 90 c then ascii_of_N (code c + 32)
  else if between 97 122 c then ascii_of_N (code c - 32)
  else c.

Fixpoint lower (s : string) : string :=
  match s with
  | EmptyString => EmptyString
  | String c s' => String (lower_char c) (lower s')
  end.

(** [s.split(sep)] for a one-character separator: the pieces between the
    separators, so never an empty list. *)
Fixpoint split (sep : ascii) (s : string) : list string :=
  match s with
  | EmptyString => [EmptyString]
  | String c s' =>
      if Ascii.eqb c sep then EmptyString :: split sep s'
      else match split sep s' with
           | [] => [String c EmptyString]
           | p :: ps => String c p :: ps
           end
  end.

Definition chars (s : string) : list ascii := list_ascii_of_string s.
Definition text (l : list ascii) : string := string_of_list_ascii l.

End Text.

(** ** Regular expressions, as Python's [re] runs them *)

Module Regex.
Import Text.

(** A character class is a list of inclusive code point ranges. *)
Definition cls := list (N * N).

Inductive re : Type :=
| Eps : re
| Cls : cls -> re
| Seq : re -> re -> re
| Alt : re -> re -> re
| Star : re -> re.

Definition lit (c : ascii) : re := Cls [(code c, code c)].
Definition plus (r : re) : re := Seq r (Star r).
Definition opt (r : re) : re := Alt r Eps.
Fixpoint seqs (rs : list re) : re :=
  match rs with
  | [] => Eps
  | [r] => r
  | r :: rs' => Seq r (seqs rs')
  end.
Fixpoint alts (r : re) (rs : list re) : re :=
  match rs with
  | [] => r
  | r' :: rs' => Alt r (alts r' rs')
  end.

Definition in_cls (cs : cls) (c : ascii) : bool :=
  existsb (fun '(lo, hi) => between lo hi c) cs.

(** With [re.IGNORECASE] a character also matches when its other case is
    in the class. *)
Definition accepts (icase : bool) (cs : cls) (c : ascii) : bool :=
  in_cls cs c || (icase && in_cls cs (swapcase_char c)).

Section Backtrack.
Context {A : Type}.
Variable icase : bool.

(** The repetitions of [r*], longest first: [step] matches [r] once,
    and a round that consumes nothing is not repeated. [n] bounds the
    number of rounds and is the length of the text. *)
Fixpoint star (step : list ascii -> (list ascii -> option A) -> option A)
  (k : list ascii -> option A) (n : nat) (s : list ascii) : option A :=
  match n with
  | O => k s
  | S n' =>
      match step s (fun s' =>
               if (length s' <? length s)%nat then star step k n' s'
               else None) with
      | Some x => Some x
      | None => k s
      end
  end.

(** The matcher tries the alternatives of [Alt] in order; [k] is what
    remains to be matched after [r], and the first success is the
    answer. *)
Fixpoint bt (r : re) (s : list ascii) (k : list ascii -> option A)
  {struct r} : option A :=
  match r with
  | Eps => k s
  | Cls cs =>
      match s with
      | c :: s' => if accepts icase cs c then k s' else None
      | [] => None
      end
  | Seq r1 r2 => bt r1 s (fun s' => bt r2 s' k)
  | Alt r1 r2 =>
      match bt r1 s k with
      | Some x => Some x
      | None => bt r2 s k
      end
  | Star r1 => star (bt r1) k (length s) s
  end.
End Backtrack.

(** [pattern.match(s)]: the number of characters of the match at the
    start of [s]. *)
Definition match_len (icase : bool) (r : re) (s : list ascii) : option nat :=
  bt icase r s (fun rest => Some (length s - length rest)%nat).

(** [pattern.findall(s)] for a pattern without groups: scan from the left,
    and resume after each match. [skip] counts the characters of the
    current match still to step over. The patterns of this file match no
    empty text, and an empty match is not yielded. *)
Fixpoint findall_from (icase : bool) (r : re) (skip : nat) (s : list ascii)
  : list (list ascii) :=
  match s with
  | [] => []
  | _ :: s' =>
      match skip with
      | S n => findall_from icase r n s'
      | O =>
          match match_len icase r s with
          | Some (S n) => take (S n) s :: findall_from icase r n s'
          | _ => findall_from icase r 0 s'
          end
      end
  end.

Definition findall (icase : bool) (r : re) (s : string) : list string :=
  map text (findall_from icase r 0 (chars s)).

(** *** The address pattern of lines 20 and 59 *)

(** [[a-z0-9!#$%&'*+/=?^_`{|}~-]] *)
Definition atext : cls :=
  [(97, 122); (48, 57); (33, 33); (35, 35); (36, 36); (37, 37); (38, 38);
   (39, 39); (42, 42); (43, 43); (47, 47); (61, 61); (63, 63); (94, 94);
   (95, 95); (96, 96); (123, 123); (124, 124); (125, 125); (126, 126);
   (45, 45)]%N.

(** [[a-z0-9]] and [[a-z0-9-]] *)
Definition alnum : cls := [(97, 122); (48, 57)]%N.
Definition alnum_hyphen : cls := [(97, 122); (48, 57); (45, 45)]%N.

(** [[\x01-\x08\x0b\x0c\x0e-\x1f\x21\x23-\x5b\x5d-\x7f]] *)
Definition qtext : cls :=
  [(1, 8); (11, 11); (12, 12); (14, 31); (33, 33); (35, 91); (93, 127)]%N.
(** [[\x01-\x09\x0b\x0c\x0e-\x7f]] *)
Definition escaped : cls := [(1, 9); (11, 11); (12, 12); (14, 127)]%N.
(** [[\x01-\x08\x0b\x0c\x0e-\x1f\x21-\x5a\x53-\x7f]] *)
Definition dtext : cls :=
  [(1, 8); (11, 11); (12, 12); (14, 31); (33, 90); (83, 127)]%N.

Definition digit : cls := [(48, 57)]%N.

(** [[a-z0-9!...~-]+(?:\.[a-z0-9!...~-]+)*] *)
Definition dot_atom : re :=
  Seq (plus (Cls atext)) (Star (Seq (lit ".") (plus (Cls atext)))).

(** ["(?:[qtext]|\\[escaped])*"] *)
Definition quoted_string : re :=
  seqs [lit "034"%char;
        Star (Alt (Cls qtext) (Seq (lit "\") (Cls escaped)));
        lit "034"%char].

(** [[a-z0-9](?:[a-z0-9-]*[a-z0-9])?] *)
Definition label : re :=
  Seq (Cls alnum) (opt (Seq (Star (Cls alnum_hyphen)) (Cls alnum))).

(** [(?:label\.)+label] *)
Definition dotted_domain : re :=
  Seq (plus (Seq label (lit "."))) label.

(** [25[0-5]], [2[0-4][0-9]] and [[01]?[0-9][0-9]?] *)
Definition octet_25x : re := seqs [lit "2"; lit "5"; Cls [(48, 53)]%N].
Definition octet_2xx : re := seqs [lit "2"; Cls [(48, 52)]%N; Cls digit].
Definition octet_xx : re :=
  seqs [opt (Cls [(48, 49)]%N); Cls digit; opt (Cls digit)].
Definition octet : re := alts octet_25x [octet_2xx; octet_xx].

(** [[a-z0-9-]*[a-z0-9]:(?:[dtext]|\\[escaped])+] *)
Definition general_literal : re :=
  seqs [Star (Cls alnum_hyphen); Cls alnum; lit ":";
        plus (Alt (Cls dtext) (Seq (lit "\") (Cls escaped)))].

(** [\[(?:octet\.){3}(?:25[0-5]|2[0-4][0-9]|[01]?[0-9][0-9]?|general)\]] *)
Definition domain_literal : re :=
  let octet_dot := Seq octet (lit ".") in
  seqs [lit "[";
        octet_dot; octet_dot; octet_dot;
        alts octet_25x [octet_2xx; octet_xx; general_literal];
        lit "]"].

Definition email_pattern : re :=
  seqs [Alt dot_atom quoted_string; lit "@";
        Alt dotted_domain domain_literal].

End Regex.

(** ** [difflib.SequenceMatcher(None, a, b).ratio()] *)

Module Difflib.
Import Text.

(** [__chain_b]: with [autojunk] (the default) and [len(b) >= 200], an
    element that occurs more than [len(b) // 100 + 1] times in [b] is
    popular and loses its entry in [b2j]. No element is junk, since
    [isjunk] is [None]. *)
Definition occurrences (c : ascii) (b : list ascii) : nat :=
  length (filter (fun x => x = c) b).

Definition popular (b : list ascii) (c : ascii) : bool :=
  (200 <=? length b)%nat && (length b / 100 + 1 <? occurrences c b)%nat.

Section Blocks.
(** [indexed c]: [c] has an entry in [b2j]. *)
Variable indexed : ascii -> bool.

(** One round of the inner loop of [find_longest_match]: from the row
    [j2len] of the previous element of [a], the row [newj2len] of
    [ai]. A row has one entry per index of [b], 0 for an absent key. *)
Definition next_row (ai : ascii) (b : list ascii) (j2len : list nat)
  : list nat :=
  zip_with (fun bj k => if Ascii.eqb bj ai && indexed ai then S k else O)
           b (O :: j2len).

(** [if k > bestsize: besti, bestj, bestsize = i-k+1, j-k+1, k], for
    the entries of one row from the left. *)
Fixpoint scan_row (i j : nat) (row : list nat) (best : nat * nat * nat)
  : nat * nat * nat :=
  match row with
  | [] => best
  | k :: row' =>
      let '(_, _, bestsize) := best in
      scan_row i (S j) row'
        (if (bestsize <? k)%nat then (S i - k, S j - k, k)%nat else best)
  end.

Fixpoint scan_rows (i : nat) (a b : list ascii) (j2len : list nat)
  (best : nat * nat * nat) : nat * nat * nat :=
  match a with
  | [] => best
  | ai :: a' =>
      let row := next_row ai b j2len in
      scan_rows (S i) a' b row (scan_row i 0 row best)
  end.

(** The two loops that extend the best block by equal elements on each
    side; [fuel] bounds the number of rounds. *)
Fixpoint extend_left (fuel : nat) (a b : list ascii) (m : nat * nat * nat)
  : nat * nat * nat :=
  match fuel, m with
  | S fuel', (S i, S j, k) =>
      match a !! i, b !! j with
      | Some x, Some y =>
          if Ascii.eqb x y then extend_left fuel' a b (i, j, S k) else m
      | _, _ => m
      end
  | _, _ => m
  end.

Fixpoint extend_right (fuel : nat) (a b : list ascii) (m : nat * nat * nat)
  : nat * nat * nat :=
  match fuel with
  | O => m
  | S fuel' =>
      let '(i, j, k) := m in
      match a !! (i + k)%nat, b !! (j + k)%nat with
      | Some x, Some y =>
          if Ascii.eqb x y then extend_right fuel' a b (i, j, S k) else m
      | _, _ => m
      end
  end.

(** [find_longest_match(alo, ahi, blo, bhi)] on the slices
    [a[alo:ahi]] and [b[blo:bhi]], with indices relative to them. *)
Definition find_longest_match (a b : list ascii) : nat * nat * nat :=
  let best := scan_rows 0 a b (replicate (length b) O) (0, 0, 0)%nat in
  let best := extend_left (length a) a b best in
  extend_right (length a) a b best.

(** The sum of the sizes of [get_matching_blocks()]: the longest block
    of the range, then the ranges to its left and to its right (the
    work queue of the library visits the same ranges). *)
Fixpoint matches (fuel : nat) (a b : list ascii) : nat :=
  match fuel with
  | O => O
  | S fuel' =>
      let '(i, j, k) := find_longest_match a b in
      match k with
      | O => O
      | S _ =>
          (k
           + (if (0 <? i)%nat && (0 <? j)%nat
              then matches fuel' (take i a) (take j b) else O)
           + (if (i + k <? length a)%nat && (j + k <? length b)%nat
              then matches fuel' (drop (i + k) a) (drop (j + k) b)
              else O))%nat
      end
  end.
End Blocks.

(** [_calculate_ratio(matches, len(a) + len(b))] *)
Definition calculate_ratio (m length : nat) : Q :=
  match length with
  | O => 1
  | S _ => 2 * inject_Z (Z.of_nat m) / inject_Z (Z.of_nat length)
  end.

Definition ratio (a b : string) : Q :=
  let a := chars a in
  let b := chars b in
  let indexed c := negb (popular b c) in
  calculate_ratio (matches indexed (S (length a)) a b) (length a + length b).

End Difflib.

(** ** Exceptions and the state of a run *)

Inductive exn : Type :=
| IndexError
| OSError.

Inductive outcome (A : Type) : Type :=
| Returns (a : A)
| Raises (e : exn).
Arguments Returns {A} a.
Arguments Raises {A} e.

(** One row of the report, as [process_batch] hands it to
    [writer.writerow]. The fourth column is the similarity formatted with
    two decimals, or the empty string: [Some similarity] or [None]. *)
Record row : Type := Row {
  email_address : string;
  malformation_probability : Q;
  similar_email : string;
  similarity_percentage : option Q;
  source_file : string
}.

(** What the program prints. *)
Inductive message : Type :=
| Progress (processed unique : nat)
| ErrorProcessingCsv (file_path : string) (e : exn)
| ErrorProcessingHtml (file_path : string) (e : exn)
| ErrorProcessingFile (file_path : string) (e : exn)
| UnsupportedFileType (file_path : string)
| Processing (file_path : string)
| ProcessingComplete (unique : nat).

(** The fields of [EmailParser] that change during a run, the rows of the
    output file below its header, the console, and what the environment
    holds for the output file: [faults] lists, for the coming operations
    on it ([open] or [writerow]), whether each one fails; past the end of
    the list they all succeed. *)
Record state : Type := State {
  unique_emails : gset string;
  current_batch : list string;
  all_emails : list string;
  processed_count : nat;
  output_file : list row;
  console : list message;
  faults : list bool
}.

Definition set_unique_emails (f : gset string -> gset string) (st : state) :=
  State (f (unique_emails st)) (current_batch st) (all_emails st)
        (processed_count st) (output_file st) (console st) (faults st).
Definition set_current_batch (f : list string -> list string) (st : state) :=
  State (unique_emails st) (f (current_batch st)) (all_emails st)
        (processed_count st) (output_file st) (console st) (faults st).
Definition set_all_emails (f : list string -> list string) (st : state) :=
  State (unique_emails st) (current_batch st) (f (all_emails st))
        (processed_count st) (output_file st) (console st) (faults st).
Definition set_processed_count (f : nat -> nat) (st : state) :=
  State (unique_emails st) (current_batch st) (all_emails st)
        (f (processed_count st)) (output_file st) (console st) (faults st).
Definition set_output_file (f : list row -> list row) (st : state) :=
  State (unique_emails st) (current_batch st) (all_emails st)
        (processed_count st) (f (output_file st)) (console st) (faults st).
Definition set_console (f : list message -> list message) (st : state) :=
  State (unique_emails st) (current_batch st) (all_emails st)
        (processed_count st) (output_file st) (f (console st)) (faults st).
Definition set_faults (f : list bool -> list bool) (st : state) :=
  State (unique_emails st) (current_batch st) (all_emails st)
        (processed_count st) (output_file st) (console st) (f (faults st)).

(** [EmailParser.__init__], before the exclude list is loaded. *)
Definition init (faults : list bool) : state :=
  State ∅ [] [] 0 [] [] faults.

(** *** A state and exception monad *)

Module Run.

Definition M (A : Type) : Type := state -> outcome A * state.

Definition ret {A} (a : A) : M A := fun st => (Returns a, st).
Definition raise {A} (e : exn) : M A := fun st => (Raises e, st).
Definition bind {A B} (m : M A) (k : A -> M B) : M B :=
  fun st =>
    match m st with
    | (Returns a, st') => k a st'
    | (Raises e, st') => (Raises e, st')
    end.
Definition get : M state := fun st => (Returns st, st).
Definition modify (f : state -> state) : M unit := fun st => (Returns tt, f st).
Definition lift {A} (o : outcome A) : M A := fun st => (o, st).

(** [try: body except Exception as e: handler(e)] *)
Definition try_except {A} (body : M A) (handler : exn -> M A) : M A :=
  fun st =>
    match body st with
    | (Returns a, st') => (Returns a, st')
    | (Raises e, st') => handler e st'
    end.

(** [for x in xs: body(x)]; an exception leaves the loop. *)
Fixpoint for_each {X} (xs : list X) (body : X -> M unit) : M unit :=
  match xs with
  | [] => ret tt
  | x :: xs' => bind (body x) (fun _ => for_each xs' body)
  end.

Definition when (b : bool) (m : M unit) : M unit := if b then m else ret tt.

End Run.

Declare Scope run_scope.
Delimit Scope run_scope with run.
Bind Scope run_scope with Run.M.
Notation "x <- m ;; k" := (Run.bind m (fun x => k))
  (at level 100, m at next level, k at level 200, right associativity)
  : run_scope.
Notation "m ;; k" := (Run.bind m (fun _ => k))
  (at level 100, k at level 200, right associativity) : run_scope.
Local Open Scope run_scope.

(** ** [EmailHTMLParser] *)

Module Html.
Import Text Regex.

(** The calls that [HTMLParser.feed] makes on the handlers. *)
Inductive event : Type :=
| StartTag (tag : string) (attrs : list (string * option string))
| EndTag (tag : string)
| Data (data : string).

Record EmailHTMLParser : Type := Parser {
  emails : gset string;
  in_pre : bool;
  current_pre_content : list string
}.

Definition new : EmailHTMLParser := Parser ∅ false [].

(** [self.email_pattern.findall(text)], compiled with [re.IGNORECASE]. *)
Definition found_emails (text : string) : list string :=
  findall true email_pattern text.

(** [self.emails.update(found)] *)
Definition update (found : list string) (p : EmailHTMLParser) :=
  Parser (emails p ∪ list_to_set found) (in_pre p) (current_pre_content p).

Definition handle_starttag (tag : string)
  (attrs : list (string * option string)) (p : EmailHTMLParser) :=
  let p :=
    fold_left (fun p '(_, value) =>
                 match value with
                 | Some (String c v) => update (found_emails (String c v)) p
                 | _ => p
                 end) attrs p in
  if String.eqb tag "pre"
  then Parser (emails p) true (current_pre_content p)
  else p.

Definition handle_endtag (tag : string) (p : EmailHTMLParser) :=
  if String.eqb tag "pre" then
    let full_content := String.concat "" (current_pre_content p) in
    Parser (emails p ∪ list_to_set (found_emails full_content)) false []
  else p.

Definition handle_data (data : string) (p : EmailHTMLParser) :=
  let p :=
    if in_pre p
    then Parser (emails p) (in_pre p) (current_pre_content p ++ [data])%list
    else p in
  update (found_emails data) p.

Definition handle (p : EmailHTMLParser) (e : event) : EmailHTMLParser :=
  match e with
  | StartTag tag attrs => handle_starttag tag attrs p
  | EndTag tag => handle_endtag tag p
  | Data data => handle_data data p
  end.

(** [parser.feed(content)], on the events of [content]. *)
Definition feed (events : list event) (p : EmailHTMLParser) :=
  fold_left handle events p.

End Html.

(** ** [EmailParser] *)

Module Parser.
Import Text Regex Run.

(** [self.batch_size = 20] *)
Definition batch_size : nat := 20.

(** [self.email_pattern.findall(field)]: line 59 compiles the pattern
    without [re.IGNORECASE]. *)
Definition found_emails (field : string) : list string :=
  findall false email_pattern field.

(** [load_excluded_emails], on the rows of the exclude file as
    [csv.reader] yields them; [None] is a file that cannot be read. *)
Definition load_excluded_emails (exclude_file : option (list (list string)))
  : gset string :=
  match exclude_file with
  | None => ∅
  | Some rows =>
      fold_left (fun excluded r =>
                   match r with
                   | [] => excluded
                   | first :: _ => excluded ∪ {[ lower first ]}
                   end) rows ∅
  end.

(** [SequenceMatcher(None, email1.lower(), email2.lower()).ratio() * 100] *)
Definition calculate_similarity (email1 email2 : string) : Q :=
  (Difflib.ratio (lower email1) (lower email2) * 100)%Q.

(** [[._%+-]{2,}] *)
Definition special : cls := [(46, 46); (95, 95); (37, 37); (43, 43); (45, 45)]%N.
Definition consecutive_special : re :=
  Seq (Cls special) (Seq (Cls special) (Star (Cls special))).

(** [re.search(pattern, s)] as a truth value. *)
Fixpoint search (r : re) (s : list ascii) : bool :=
  match match_len false r s with
  | Some _ => true
  | None =>
      match s with
      | [] => false
      | _ :: s' => search r s'
      end
  end.

Definition Qgeb (x y : Q) : bool := Qle_bool y x.
Definition Qgtb (x y : Q) : bool := negb (Qle_bool x y).

Section WithEnvironment.
(** [tldextract.extract(email).suffix], for the public suffix list the
    library is running with. *)
Variable extract_suffix : string -> string.
(** The order in which a [for] loop goes through a Python set. *)
Variable iteration_order : gset string -> list string.
(** The fields of [EmailParser] that [__init__] sets for the run. *)
Variable similarity_threshold : Q.
Variable excluded_emails : gset string.

Definition calculate_malformation_probability (email : string) : outcome Q :=
  let probability := 0%Q in
  let suffix := extract_suffix email in
  let probability :=
    if String.eqb suffix "" then (probability + 0.4)%Q
    else if (6 <? String.length suffix)%nat then (probability + 0.2)%Q
    else probability in
  match split "@" email !! 1%nat with
  | None => Raises IndexError
  | Some domain =>
      let domain_parts := split "." domain in
      let probability :=
        if (4 <? length domain_parts)%nat then (probability + 0.1)%Q
        else probability in
      match split "@" email !! 0%nat with
      | None => Raises IndexError
      | Some local_part =>
          let probability :=
            if (64 <? String.length local_part)%nat then (probability + 0.1)%Q
            else probability in
          let probability :=
            if search consecutive_special (chars local_part)
            then (probability + 0.1)%Q
            else probability in
          Returns (Qmin probability 1.0%Q)
      end
  end.

(** One round of either loop of [find_similar_email]. *)
Definition compare (email : string) (best : string * Q) (other : string)
  : string * Q :=
  let '(most_similar_email, highest_similarity) := best in
  if String.eqb other email then best
  else
    let similarity := calculate_similarity email other in
    if Qgtb similarity highest_similarity
       && Qgeb similarity similarity_threshold
    then (other, similarity)
    else best.

Definition find_similar_email (st : state) (email : string) : string * Q :=
  let best := ("", 0%Q) in
  let best := fold_left (compare email) (all_emails st) best in
  fold_left (compare email) (current_batch st) best.

(** The operations on the output file. *)
Definition attempt : M unit :=
  fun st =>
    match faults st with
    | true :: rest => (Raises OSError, set_faults (fun _ => rest) st)
    | false :: rest => (Returns tt, set_faults (fun _ => rest) st)
    | [] => (Returns tt, st)
    end.
Definition writerow (r : row) : M unit :=
  attempt ;; modify (set_output_file (fun rows => (rows ++ [r])%list)).

Definition print (m : message) : M unit :=
  modify (set_console (fun out => (out ++ [m])%list)).
Definition count_processed : M unit :=
  modify (set_processed_count S).

(** The body of the loop of [process_batch]. *)
Definition process_email (source_file email : string) : M unit :=
  if decide (lower email ∈ excluded_emails) then count_processed
  else
    st <- get ;;
    let '(similar_email, similarity) := find_similar_email st email in
    probability <- lift (calculate_malformation_probability email) ;;
    writerow
      (Row email probability
           (if Qgeb similarity similarity_threshold then similar_email
            else "")
           (if Qgeb similarity similarity_threshold then Some similarity
            else None)
           source_file) ;;
    modify (set_all_emails (fun l => (l ++ [email])%list)) ;;
    count_processed ;;
    st <- get ;;
    print (Progress (processed_count st) (size (unique_emails st))).

Definition process_batch (source_file : string) : M unit :=
  st <- get ;;
  match current_batch st with
  | [] => ret tt
  | batch =>
      attempt ;;
      for_each batch (process_email source_file) ;;
      modify (set_current_batch (fun _ => []))
  end.

(** What both parsers do with one address they found. *)
Definition collect (file_path email : string) : M unit :=
  count_processed ;;
  st <- get ;;
  if decide (lower email ∈ unique_emails st) then ret tt
  else
    modify (set_unique_emails (fun u => u ∪ {[ lower email ]})) ;;
    modify (set_current_batch (fun b => (b ++ [email])%list)) ;;
    st <- get ;;
    when (batch_size <=? length (current_batch st))%nat
         (process_batch file_path).

(** [parse_csv_file], on the rows that [csv.reader] yields. *)
Definition parse_csv_file (file_path : string) (rows : list (list string))
  : M unit :=
  try_except
    (for_each rows (fun r =>
       for_each r (fun field =>
         for_each (found_emails field) (collect file_path))))
    (fun e => print (ErrorProcessingCsv file_path e)).

(** [parse_html_file], on the events of the content. *)
Definition parse_html_file (file_path : string) (events : list Html.event)
  : M unit :=
  try_except
    (let parser := Html.feed events Html.new in
     for_each (iteration_order (Html.emails parser)) (collect file_path))
    (fun e => print (ErrorProcessingHtml file_path e)).

(** An input file: its path, [Path.suffix], and what the two readers
    make of its content. *)
Record file : Type := File {
  path : string;
  suffix : string;
  csv_rows : list (list string);
  html_events : list Html.event
}.

Definition parse_file (f : file) : M unit :=
  try_except
    (if String.eqb (lower (suffix f)) ".csv"
     then parse_csv_file (path f) (csv_rows f)
     else if String.eqb (lower (suffix f)) ".html"
             || String.eqb (lower (suffix f)) ".htm"
     then parse_html_file (path f) (html_events f)
     else print (UnsupportedFileType (path f)))
    (fun e => print (ErrorProcessingFile (path f) e)).

(** [self.parse_file(p)] followed by
    [if self.current_batch: self.process_batch(p)]. *)
Definition process_file (f : file) : M unit :=
  parse_file f ;;
  st <- get ;;
  match current_batch st with
  | [] => ret tt
  | _ => process_batch (path f)
  end.

(** [setup_output_file]: [open] makes a new file, [writerow] puts the
    header in it. *)
Definition setup_output_file : M unit :=
  attempt ;; modify (set_output_file (fun _ => [])) ;; attempt.

(** What [path] names: one file, or a directory with the files that
    [rglob] finds for [*.csv], [*.html] and [*.htm]. *)
Inductive target : Type :=
| IsFile (f : file)
| IsDir (csv_files html_files htm_files : list file)
| Neither.

(** [process_path]; the banner and the counts of files that it prints
    are left out. *)
Definition process_path (t : target) : M unit :=
  setup_output_file ;;
  match t with
  | IsFile f => print (Processing (path f)) ;; process_file f
  | IsDir csv_files html_files htm_files =>
      for_each csv_files process_file ;;
      for_each [html_files; htm_files] (fun files =>
        for_each files process_file) ;;
      st <- get ;;
      print (ProcessingComplete (size (unique_emails st)))
  | Neither => ret tt
  end.

End WithEnvironment.
End Parser.

(** * The vocabulary of the properties *)

(** ** The language of a pattern *)

Module Language.
Import Text Regex.

(** The language of a pattern. *)
Inductive matches (icase : bool) : re -> list ascii -> Prop :=
| matches_eps : matches icase Eps []
| matches_cls cs c :
    accepts icase cs c = true -> matches icase (Cls cs) [c]
| matches_seq r1 r2 w1 w2 :
    matches icase r1 w1 -> matches icase r2 w2 ->
    matches icase (Seq r1 r2) (w1 ++ w2)
| matches_alt_l r1 r2 w : matches icase r1 w -> matches icase (Alt r1 r2) w
| matches_alt_r r1 r2 w : matches icase r2 w -> matches icase (Alt r1 r2) w
| matches_star_nil r : matches icase (Star r) []
| matches_star_app r w1 w2 :
    matches icase r w1 -> matches icase (Star r) w2 ->
    matches icase (Star r) (w1 ++ w2).

(** What a successful run of the matcher consumed is a word of the
    language, and the continuation succeeded on the rest. *)
Definition sound_on {A} (icase : bool) (r : re)
  (run : list ascii -> (list ascii -> option A) -> option A) : Prop :=
  forall s k x, run s k = Some x ->
    exists w s', s = w ++ s' /\ matches icase r w /\ k s' = Some x.


End Language.

(** ** The penalty signals *)

Module Signals.
Import Text Regex Parser.

Section WithSuffixes.
Variable extract_suffix : string -> string.

(** The five penalty signals, in the words of the specification. *)
Definition local_part (email : string) : string :=
  default "" (split "@" email !! 0%nat).
Definition domain_labels (email : string) : list string :=
  match split "@" email !! 1%nat with
  | Some domain => split "." domain
  | None => []
  end.

Definition no_suffix (email : string) : bool :=
  String.eqb (extract_suffix email) "".
Definition long_suffix (email : string) : bool :=
  negb (no_suffix email) && (6 <? String.length (extract_suffix email))%nat.
Definition many_labels (email : string) : bool :=
  (4 <? length (domain_labels email))%nat.
Definition long_local_part (email : string) : bool :=
  (64 <? String.length (local_part email))%nat.
Definition repeated_special (email : string) : bool :=
  search consecutive_special (chars (local_part email)).

Definition penalty (fired : bool) (weight : Q) : Q :=
  if fired then weight else 0.

Definition penalties (email : string) : Q :=
  (penalty (no_suffix email) 0.4 + penalty (long_suffix email) 0.2
   + penalty (many_labels email) 0.1 + penalty (long_local_part email) 0.1
   + penalty (repeated_special email) 0.1)%Q.

End WithSuffixes.
End Signals.

(** ** The pool of the similarity search *)

Module Pool.
Import Text Parser.

Section WithThreshold.
Variable similarity_threshold : Q.

(** The search over one list of addresses, from the best so far. *)
Definition best_match (email : string) (l : list string) (best : string * Q)
  : string * Q :=
  fold_left (compare similarity_threshold email) l best.

(** The pool of [email]: the addresses of the history and of the batch,
    in this order, that are not [email] itself. *)
Definition pool (history batch : list string) (email : string)
  : list string :=
  filter (fun x => x <> email) (history ++ batch).

End WithThreshold.
End Pool.

(** ** Properties of computations *)

Module Hoare.
Import Run.

(** A property of the state that a computation keeps, however it ends. *)
Definition preserves {A} (P : state -> Prop) (m : M A) : Prop :=
  forall st, P st -> P (m st).2.

(** A computation that returns, whatever the state. *)
Definition never_raises {A} (m : M A) : Prop :=
  forall st, exists a st', m st = (Returns a, st').



End Hoare.

(** ** The rows of a flush *)

Module Report.
Import Text Regex Parser Pool.

Section WithEnvironment.
Variable extract_suffix : string -> string.
Variable similarity_threshold : Q.
Variable excluded_emails : gset string.

(** The addresses of a batch that are not excluded. *)
Definition kept (l : list string) : list string :=
  filter (fun e => lower e ∉ excluded_emails) l.

(** The score of an address with an at sign. *)
Definition score (email : string) : Q :=
  match calculate_malformation_probability extract_suffix email with
  | Returns p => p
  | Raises _ => 0%Q
  end.

(** The row of [email] when the search goes through [history] and then
    [batch]. *)
Definition report_row (source : string) (history batch : list string)
  (email : string) : row :=
  let best :=
    best_match similarity_threshold email (pool history batch email)
               ("", 0%Q) in
  Row email (score email)
      (if Qgeb best.2 similarity_threshold then best.1 else "")
      (if Qgeb best.2 similarity_threshold then Some best.2 else None)
      source.

(** The rows of a flush: each address of [queue] that is kept gets its
    row from the history as it is by then and from the whole [batch], and
    joins the history afterwards. *)
Fixpoint flush_rows (source : string) (history batch queue : list string)
  : list row :=
  match queue with
  | [] => []
  | email :: queue' =>
      if decide (lower email ∈ excluded_emails)
      then flush_rows source history batch queue'
      else report_row source history batch email
           :: flush_rows source (history ++ [email]) batch queue'
  end.

(** The rows of a flush if the pool were what C5 says it is: the history
    and the members of the batch flushed earlier, and nothing else. *)
Fixpoint claimed_flush_rows (source : string) (history queue : list string)
  : list row :=
  match queue with
  | [] => []
  | email :: queue' =>
      if decide (lower email ∈ excluded_emails)
      then claimed_flush_rows source history queue'
      else report_row source history [] email
           :: claimed_flush_rows source (history ++ [email]) queue'
  end.

(** No row and no entry of the history has an excluded address. *)
Definition clean (st : state) : Prop :=
  (forall r, r ∈ output_file st -> lower (email_address r) ∉ excluded_emails)
  /\ (forall e, e ∈ all_emails st -> lower e ∉ excluded_emails).

End WithEnvironment.

(** The addresses of a CSV file, cell by cell. *)
Definition candidates (rows : list (list string)) : list string :=
  concat (map (fun r => concat (map found_emails r)) rows).

End Report.

(** ** A sample environment for the worked examples *)

Module Sample.
Import Text.

(** A few entries of a public suffix list. *)
Definition suffixes : list string := ["com"; "org"; "net"; "uk"; "co.uk"].

Fixpoint tails {A} (l : list A) : list (list A) :=
  match l with
  | [] => [[]]
  | _ :: l' => l :: tails l'
  end.

(** The longest entry of [suffixes] that ends the host of the address,
    label by label, or the empty string. *)
Definition extract_suffix (email : string) : string :=
  let host := lower (default "" (last (split "@" email))) in
  let ends := map (String.concat ".") (tails (split "." host)) in
  default "" (head (filter (fun s => s ∈ suffixes) ends)).

(** A set is gone through in the order of [elements]. *)
Definition iteration_order : gset string -> list string := elements.



End Sample.

(** ** Worked runs *)

Module Scenario.
Import Text Parser.

(** A run of [process_path] from a new [EmailParser], with the sample
    suffix list and set order. *)
Definition run (similarity_threshold : Q) (excluded_emails : gset string)
  (t : target) (faults : list bool) : outcome unit * state :=
  process_path Sample.extract_suffix Sample.iteration_order
    similarity_threshold excluded_emails t (init faults).

Definition csv (rows : list (list string)) : target :=
  IsFile (File "in.csv" ".csv" rows []).
Definition html (events : list Html.event) : target :=
  IsFile (File "in.html" ".html" [] events).

(** The exclude file of the specification's scenario. *)
Definition spam_excluded : gset string :=
  load_excluded_emails (Some [["spam@bad.tld"]]).

Fixpoint repeat_text (n : nat) (s : string) : string :=
  match n with
  | O => ""
  | S n' => s +:+ repeat_text n' s
  end.

(** A quoted local part of 110 at signs and dots, 232 characters in
    all. *)
Definition long_address : string :=
  String "034" (repeat_text 110 "@." +:+ String "034" "@[1.2.3.4]").



End Scenario.

(** ** The characters and the lengths of the words of a pattern *)

Module Alphabet.
Import Text Regex.

(** The character classes that occur in a pattern. *)
Fixpoint classes (r : re) : list cls :=
  match r with
  | Eps => []
  | Cls cs => [cs]
  | Seq r1 r2 | Alt r1 r2 => classes r1 ++ classes r2
  | Star r1 => classes r1
  end.

(** The 256 characters. *)
Definition all_chars : list ascii := map ascii_of_nat (seq 0 256).

(** Every character that the class accepts satisfies [p]. *)
Definition class_within (p : ascii -> bool) (icase : bool) (cs : cls) : bool :=
  forallb (fun c => implb (accepts icase cs c) (p c)) all_chars.

(** The least number of characters of a word of the pattern. *)
Fixpoint min_length (r : re) : nat :=
  match r with
  | Eps => 0
  | Cls _ => 1
  | Seq r1 r2 => min_length r1 + min_length r2
  | Alt r1 r2 => Nat.min (min_length r1) (min_length r2)
  | Star _ => 0
  end.

(** A character of one line of ASCII text: below 128, and neither NUL,
    nor a line feed, nor a carriage return. *)
Definition plain (c : ascii) : bool :=
  between 1 127 c && negb (code c =? 10)%N && negb (code c =? 13)%N.

(** One of the characters of [._%+-]. *)
Definition is_special (c : ascii) : bool :=
  existsb (Ascii.eqb c) (chars "._%+-").

End Alphabet.

(** ** The texts of an HTML document *)

Module Markup.
Import Html.

(** The texts of one event that the handlers search: the text of a text
    node, and the attribute values of a start tag that are not empty. *)
Definition scanned (e : event) : list string :=
  match e with
  | Data data => [data]
  | StartTag _ attrs =>
      omap (fun '(_, value) =>
              match value with
              | Some (String c v) => Some (String c v)
              | _ => None
              end) attrs
  | EndTag _ => []
  end.

(** The text nodes among the events, in their order. *)
Definition text_nodes (events : list event) : list string :=
  omap (fun e => match e with Data data => Some data | _ => None end) events.

(** The loop of [handle_starttag] over the attributes. *)
Definition scan_attrs (attrs : list (string * option string))
  (p : EmailHTMLParser) : EmailHTMLParser :=
  fold_left (fun p '(_, value) =>
               match value with
               | Some (String c v) => update (found_emails (String c v)) p
               | _ => p
               end) attrs p.

(** Outside a [pre] element no text node is kept. *)
Definition settled (p : EmailHTMLParser) : Prop :=
  in_pre p = false -> current_pre_content p = [].

(** An address that the pattern finds in the document: in a text that
    an event has the handlers search, or in text nodes that follow each
    other, joined. *)
Definition from_document (events : list event) (x : string) : Prop :=
  (exists e t, e ∈ events /\ t ∈ scanned e /\ x ∈ found_emails t) \/
  (exists before texts after,
      text_nodes events = before ++ texts ++ after /\
      x ∈ found_emails (String.concat "" texts)).

(** What holds of the parser after the events [done]: its addresses are
    from the document, and the text nodes it keeps are the last ones. *)
Definition parsed (done : list event) (p : EmailHTMLParser) : Prop :=
  (forall x, x ∈ emails p -> from_document done x) /\
  settled p /\
  exists before, text_nodes done = before ++ current_pre_content p.

(** The end tag of a [pre] element. *)
Definition closes_pre (e : event) : bool :=
  match e with
  | EndTag tag => String.eqb tag "pre"
  | _ => false
  end.

End Markup.

(** ** Matching blocks *)

Module Blocks.

(** A block [(i, j, k)] of [k] elements from index [i] of a sequence of
    [la] elements and from index [j] of one of [lb] elements. *)
Definition block_within (la lb : nat) (m : nat * nat * nat) : Prop :=
  let '(i, j, k) := m in (i + k <= la)%nat /\ (j + k <= lb)%nat.

(** A row of [j2len] after [i] elements of [a], from column [j0]: a run
    of equal elements that ends at a column is no longer than what lies
    before the end of the run in either sequence. *)
Definition row_within (i j0 : nat) (row : list nat) : Prop :=
  forall j k, row !! j = Some k -> (k <= i)%nat /\ (k <= S (j0 + j))%nat.

End Blocks.

(** ** Specifications of computations *)

Module Triples.
Import Run.

(** From a state that satisfies [P], the computation [m] ends in a state
    that satisfies [Q], with what it returns, or [E], with what it
    raises. *)
Definition triple {A} (P : state -> Prop) (m : M A)
  (Q : A -> state -> Prop) (E : exn -> state -> Prop) : Prop :=
  forall st, P st ->
    match m st with
    | (Returns a, st') => Q a st'
    | (Raises e, st') => E e st'
    end.

End Triples.

(** ** The files of a run and what they hold *)

Module Ledger.
Import Text Regex Parser Signals.

(** The addresses kept of a list that are first of their case-folded
    form, [seen] being the forms met before. *)
Fixpoint first_seen (seen : gset string) (l : list string) : list string :=
  match l with
  | [] => []
  | e :: l' =>
      if decide (lower e ∈ seen) then first_seen seen l'
      else e :: first_seen (seen ∪ {[ lower e ]}) l'
  end.

(** The files that [process_path] goes through, in its order. *)
Definition files (t : target) : list file :=
  match t with
  | IsFile f => [f]
  | IsDir csv_files html_files htm_files =>
      csv_files ++ html_files ++ htm_files
  | Neither => []
  end.

(** The address of a row and the file that it names. *)
Definition row_key (r : row) : string * string :=
  (email_address r, source_file r).

(** The addresses [l], each with the file [source]. *)
Definition from_file (source : string) (l : list string)
  : list (string * string) :=
  map (fun e => (e, source)) l.

Section WithEnvironment.
Variable extract_suffix : string -> string.
Variable iteration_order : gset string -> list string.
Variable similarity_threshold : Q.
Variable excluded_emails : gset string.

(** The addresses that [parse_file] hands to the collector, in its
    order. *)
Definition file_candidates (f : file) : list string :=
  if String.eqb (lower (suffix f)) ".csv"
  then Report.candidates (csv_rows f)
  else if String.eqb (lower (suffix f)) ".html"
          || String.eqb (lower (suffix f)) ".htm"
  then iteration_order (Html.emails (Html.feed (html_events f) Html.new))
  else [].

(** The addresses of all the files of a run. *)
Definition run_candidates (t : target) : list string :=
  concat (map file_candidates (files t)).

(** The addresses of the rows that a run over the files [fs] should
    write, each with its file: file by file, the addresses that are
    first of their case-folded form and are not excluded, [seen] being
    the forms met in the files before. *)
Fixpoint expected_rows (seen : gset string) (fs : list file)
  : list (string * string) :=
  match fs with
  | [] => []
  | f :: fs' =>
      from_file (path f)
        (Report.kept excluded_emails (first_seen seen (file_candidates f)))
      ++ expected_rows (seen ∪ list_to_set (map lower (file_candidates f)))
           fs'
  end.

(** A row as the report should have it: the address has an at sign and
    is not excluded, the score is the sum of the penalties, the similar
    address is another one, and the percentage, when there is one, is
    its similarity and reaches the threshold. *)
Definition row_ok (r : row) : Prop :=
  "@"%char ∈ chars (email_address r) /\
  (lower (email_address r) ∉ excluded_emails) /\
  (malformation_probability r
   == penalties extract_suffix (email_address r))%Q /\
  similar_email r <> email_address r /\
  match similarity_percentage r with
  | Some h =>
      (similarity_threshold <= h)%Q /\
      (h == calculate_similarity (email_address r) (similar_email r))%Q
  | None => similar_email r = ""
  end.

(** What holds of the state all through a run over the files [fs]: the
    rows and the history have the same addresses; every row is as it
    should be, names a similar address that the run has found, and the
    file that its address is from; every address of the history and of
    the batch is in the set of unique addresses, and every member of
    that set is excluded, written or queued; the batch holds no more
    than [batch_size] addresses. *)
Definition steady (fs : list file) (st : state) : Prop :=
  map email_address (output_file st) = all_emails st /\
  (forall r, r ∈ output_file st ->
     row_ok r /\
     (similar_email r = "" \/ lower (similar_email r) ∈ unique_emails st) /\
     exists f, f ∈ fs /\ source_file r = path f /\
               email_address r ∈ file_candidates f) /\
  (forall e, e ∈ all_emails st ++ current_batch st ->
     lower e ∈ unique_emails st) /\
  (forall x, x ∈ unique_emails st ->
     x ∈ excluded_emails \/
     x ∈ map lower (all_emails st ++ current_batch st)) /\
  (length (current_batch st) <= batch_size)%nat.

(** The batch holds addresses of the file [f] only. *)
Definition queued_from (f : file) (st : state) : Prop :=
  forall e, e ∈ current_batch st -> e ∈ file_candidates f.

(** What the state holds once the batch is flushed into the rows of
    [source]: the history and the report with the kept members of the
    batch, and the count with all its members. *)
Definition settled_history (st : state) : list string :=
  all_emails st ++ Report.kept excluded_emails (current_batch st).
Definition settled_report (source : string) (st : state)
  : list (string * string) :=
  map row_key (output_file st)
  ++ from_file source (Report.kept excluded_emails (current_batch st)).
Definition settled_count (st : state) : nat :=
  (processed_count st + length (current_batch st))%nat.

(** No failure of the output file is to come. *)
Definition quiet (st : state) : Prop :=
  Forall (fun b => b = false) (faults st).

(** What holds during a run that started [calm], and what holds when it
    is given up: only a failure of the output file ends a run, and then
    it did not start calm. *)
Definition during (fs : list file) (calm : Prop) (st : state) : Prop :=
  steady fs st /\ (calm -> quiet st).
Definition aborted (fs : list file) (calm : Prop) (e : exn) (st : state)
  : Prop :=
  steady fs st /\ e = OSError /\ ~ calm.

End WithEnvironment.
End Ledger.

(** * Properties *)

(** ** The matcher finds words of the pattern's language *)

Module RegexFacts.
Import Text Regex Language.

#[local] Hint Constructors matches : core.

Lemma star_sound {A} icase r (step : _ -> _ -> option A) :
  sound_on icase r step ->
  forall k n s x, star step k n s = Some x ->
    exists w s', s = w ++ s' /\ matches icase (Star r) w /\ k s' = Some x.
Proof.
  intros Hstep k n. induction n as [|n IH]; intros s x Hrun; simpl in Hrun.
  - exists [], s. auto.
  - destruct (step s _) as [y|] eqn:Hs.
    + injection Hrun as ->.
      apply Hstep in Hs as (w1 & s1 & -> & Hw1 & Hk).
      destruct (_ <? _)%nat; [|discriminate].
      apply IH in Hk as (w2 & s2 & -> & Hw2 & Hk).
      exists (w1 ++ w2), s2. rewrite <- app_assoc. auto.
    + exists [], s. auto.
Qed.

Lemma bt_sound {A} icase r : sound_on (A := A) icase r (bt icase r).
Proof.
  induction r as [|cs|r1 IH1 r2 IH2|r1 IH1 r2 IH2|r1 IH1];
    intros s k x Hrun; simpl in Hrun.
  - exists [], s. auto.
  - destruct s as [|c s]; [discriminate|].
    destruct (accepts icase cs c) eqn:Hc; [|discriminate].
    exists [c], s. auto.
  - apply IH1 in Hrun as (w1 & s1 & -> & Hw1 & Hrun).
    apply IH2 in Hrun as (w2 & s2 & -> & Hw2 & Hk).
    exists (w1 ++ w2), s2. rewrite <- app_assoc. auto.
  - destruct (bt icase r1 s k) as [y|] eqn:H1.
    + injection Hrun as ->.
      apply IH1 in H1 as (w & s' & -> & Hw & Hk). eauto 6.
    + apply IH2 in Hrun as (w & s' & -> & Hw & Hk). eauto 6.
  - eapply star_sound; eauto.
Qed.

Lemma match_len_sound icase r s n :
  match_len icase r s = Some n ->
  matches icase r (take n s) /\ (n <= length s)%nat.
Proof.
  unfold match_len. intros H.
  apply bt_sound in H as (w & s' & -> & Hw & Hn).
  injection Hn as <-. rewrite length_app.
  replace (length w + length s' - length s')%nat with (length w) by lia.
  rewrite take_app_length. split; [done | lia].
Qed.



Lemma findall_from_matches icase r s : forall skip m,
  m ∈ findall_from icase r skip s -> matches icase r m.
Proof.
  induction s as [|c s IH]; intros skip m; simpl.
  - by intros ?%elem_of_nil.
  - destruct skip as [|n]; [|apply IH].
    destruct (match_len icase r (c :: s)) as [[|n]|] eqn:Hm; try apply IH.
    intros [->|Hin]%elem_of_cons; [|by eapply IH].
    by apply match_len_sound in Hm as [Hm _].
Qed.

(** A match is a piece of the text. *)
Lemma findall_from_substring icase r s : forall skip m,
  m ∈ findall_from icase r skip s ->
  exists before after, s = before ++ m ++ after.
Proof.
  induction s as [|c s IH]; intros skip m; simpl.
  - by intros ?%elem_of_nil.
  - assert (Hrec : forall k, m ∈ findall_from icase r k s ->
                     exists before after, c :: s = before ++ m ++ after).
    { intros k (b & a & ->)%IH. by exists (c :: b), a. }
    destruct skip as [|n]; [|apply Hrec].
    destruct (match_len icase r (c :: s)) as [[|n]|] eqn:Hm; try apply Hrec.
    intros [->|Hin]%elem_of_cons; [|by eapply Hrec].
    exists [], (drop (S n) (c :: s)). simpl. by rewrite take_drop.
Qed.

(** A fragment none of whose pieces is a word of the pattern yields
    nothing. *)
Lemma findall_no_match icase r text :
  (forall before m after,
      chars text = before ++ m ++ after -> ~ matches icase r m) ->
  findall icase r text = [].
Proof.
  intros Hnone. unfold findall.
  destruct (findall_from icase r 0 (chars text)) as [|m ms] eqn:Hfound;
    [done|].
  assert (m ∈ findall_from icase r 0 (chars text)) as Hm
    by (rewrite Hfound; apply elem_of_cons; by left).
  destruct (findall_from_substring _ _ _ _ _ Hm) as (before & after & Heq).
  destruct (Hnone before m after Heq).
  by eapply findall_from_matches.
Qed.

(** *** Every word of the address pattern has an at sign *)

Lemma accepts_at icase c :
  accepts icase [(code "@", code "@")] c = true -> c = "@"%char.
Proof.
  destruct c as [[] [] [] [] [] [] [] []]; destruct icase;
    vm_compute; congruence.
Qed.

Lemma matches_email_pattern_at icase w :
  matches icase email_pattern w -> "@"%char ∈ w.
Proof.
  unfold email_pattern. simpl. intros H.
  inversion H as [| |r1 r2 w1 w2 _ H2| | | |]; subst.
  inversion H2 as [| |r1' r2' w1' w2' Hat _| | | |]; subst.
  inversion Hat as [|cs c Hc| | | | |]; subst.
  apply accepts_at in Hc as ->.
  set_solver.
Qed.

End RegexFacts.

(** ** What the HTML parser hands over *)

Module HtmlFacts.

Section SetOrder.
Variable iteration_order : gset string -> list string.
Hypothesis iteration_order_elements :
  forall s, iteration_order s ≡ₚ elements s.


Lemma iteration_order_elem_of s x : x ∈ iteration_order s <-> x ∈ s.
Proof. rewrite iteration_order_elements. apply elem_of_elements. Qed.

End SetOrder.


End HtmlFacts.

(** ** The malformation score *)

Module ScorerFacts.
Import Text Regex Parser Signals RegexFacts.

Lemma split_cons sep c s :
  split sep (String c s) =
    if Ascii.eqb c sep then "" :: split sep s
    else match split sep s with
         | [] => [String c ""]
         | p :: ps => String c p :: ps
         end.
Proof. reflexivity. Qed.

Lemma split_nonempty sep s : split sep s <> [].
Proof.
  destruct s as [|c s]; [done|]. rewrite split_cons.
  destruct (Ascii.eqb c sep); [done|]. by destruct (split sep s).
Qed.

Lemma split_head sep s : exists p, split sep s !! 0%nat = Some p.
Proof.
  pose proof (split_nonempty sep s). destruct (split sep s); [done|]. eauto.
Qed.

(** A text without the separator is one piece, and a text with it has a
    second piece. *)
Lemma split_absent sep s : sep ∉ chars s -> split sep s = [s].
Proof.
  induction s as [|c s IH]; [done|]. simpl chars. intros Hnot.
  rewrite split_cons. destruct (Ascii.eqb_spec c sep) as [->|Hne].
  - exfalso. apply Hnot. set_solver.
  - rewrite IH; [done|]. set_solver.
Qed.

Lemma split_present sep s :
  sep ∈ chars s -> exists p, split sep s !! 1%nat = Some p.
Proof.
  induction s as [|c s IH]; simpl chars.
  - by intros ?%elem_of_nil.
  - intros Hin. rewrite split_cons.
    destruct (Ascii.eqb_spec c sep) as [->|Hne].
    + simpl. apply split_head.
    + apply elem_of_cons in Hin as [->|Hin]; [done|].
      destruct (IH Hin) as [p Hp].
      destruct (split sep s) as [|q qs]; [done|]. simpl in *. eauto.
Qed.

Section Scores.
Variable extract_suffix : string -> string.

Abbreviation no_suffix := (Signals.no_suffix extract_suffix).
Abbreviation long_suffix := (Signals.long_suffix extract_suffix).
Abbreviation penalties := (Signals.penalties extract_suffix).

Lemma penalties_bounds email : (0 <= penalties email <= 0.7)%Q.
Proof.
  unfold Signals.penalties, Signals.long_suffix, penalty.
  destruct (no_suffix email), (6 <? _)%nat, (many_labels email),
    (long_local_part email), (repeated_special email);
    simpl; split; by vm_compute.
Qed.

(** On an address with an at sign the code returns the sum of the
    penalties that fired. *)
Lemma score_with_at email :
  "@"%char ∈ chars email ->
  exists p, calculate_malformation_probability extract_suffix email
            = Returns p /\ (p == penalties email)%Q.
Proof.
  intros Hat. unfold calculate_malformation_probability.
  pose proof (penalties_bounds email) as [_ Hmax]. revert Hmax.
  unfold Signals.penalties, Signals.long_suffix, many_labels,
    long_local_part, repeated_special, Signals.no_suffix, domain_labels,
    local_part, penalty.
  destruct (split_present _ _ Hat) as [domain ->].
  destruct (split_head "@" email) as [lp ->]. simpl default.
  destruct (String.eqb _ ""), (6 <? _)%nat, (4 <? _)%nat, (64 <? _)%nat,
    (search _ _); simpl; intros _; eexists; (split; [reflexivity|]);
    by vm_compute.
Qed.

Lemma score_without_at email :
  "@"%char ∉ chars email ->
  calculate_malformation_probability extract_suffix email
  = Raises IndexError.
Proof.
  intros Hat. unfold calculate_malformation_probability.
  by rewrite (split_absent _ _ Hat).
Qed.

(** An address that [findall] yields has an at sign. *)
Lemma candidate_at icase text email :
  email ∈ findall icase email_pattern text -> "@"%char ∈ chars email.
Proof.
  unfold findall. intros (m & -> & Hm)%list_elem_of_fmap.
  unfold chars, Text.text. rewrite list_ascii_of_string_of_list_ascii.
  eapply matches_email_pattern_at, findall_from_matches, Hm.
Qed.

End Scores.
End ScorerFacts.

(** ** The similarity search *)

Module SimilarityFacts.
Import Text Parser Pool.

Lemma Qgeb_true x y : Qgeb x y = true <-> (y <= x)%Q.
Proof. apply Qle_bool_iff. Qed.

Lemma Qgeb_false x y : Qgeb x y = false <-> (x < y)%Q.
Proof.
  unfold Qgeb. rewrite <- not_true_iff_false, Qle_bool_iff.
  split; [apply Qnot_le_lt | apply Qlt_not_le].
Qed.

Lemma Qgtb_true x y : Qgtb x y = true <-> (y < x)%Q.
Proof.
  unfold Qgtb. rewrite negb_true_iff, <- not_true_iff_false, Qle_bool_iff.
  split; [apply Qnot_le_lt | apply Qlt_not_le].
Qed.

Lemma Qgtb_false x y : Qgtb x y = false <-> (x <= y)%Q.
Proof. unfold Qgtb. by rewrite negb_false_iff, Qle_bool_iff. Qed.

Section Search.
Variable similarity_threshold : Q.

Abbreviation compare := (compare similarity_threshold).
Abbreviation sim := calculate_similarity.
Abbreviation best_match := (Pool.best_match similarity_threshold).

Lemma best_match_cons email y l best :
  best_match email (y :: l) best = best_match email l (compare email best y).
Proof. reflexivity. Qed.

Lemma best_match_app email l1 l2 best :
  best_match email (l1 ++ l2) best
  = best_match email l2 (best_match email l1 best).
Proof. apply fold_left_app. Qed.

Lemma find_similar_email_pool st email :
  find_similar_email similarity_threshold st email
  = best_match email (pool (all_emails st) (current_batch st) email) ("", 0%Q).
Proof.
  unfold find_similar_email, Pool.best_match, pool.
  rewrite <- fold_left_app. generalize ("", 0%Q).
  induction (all_emails st ++ current_batch st) as [|x l IH]; intros best;
    [done|].
  rewrite filter_cons. destruct (decide (x <> email)) as [Hne|Heq]; simpl.
  - apply IH.
  - apply dec_stable in Heq as ->. rewrite <- IH. f_equal.
    unfold Parser.compare. destruct best. by rewrite String.eqb_refl.
Qed.

Lemma compare_other email best x :
  x <> email ->
  compare email best x =
    if Qgtb (sim email x) best.2 && Qgeb (sim email x) similarity_threshold
    then (x, sim email x) else best.
Proof.
  intros Hne. unfold Parser.compare. destruct best as [m h].
  by apply String.eqb_neq in Hne as ->.
Qed.

(** What the search returns, in terms of where it started: it never
    lowers the best score, a new best is a member that reaches the
    threshold, and no such member scores higher than the result. *)
Lemma best_match_spec email l : forall best,
  Forall (fun x => x <> email) l ->
  let result := best_match email l best in
  (best.2 <= result.2)%Q /\
  (result = best \/
   (result.1 ∈ l /\ result.2 = sim email result.1 /\
    (similarity_threshold <= result.2)%Q /\ (best.2 < result.2)%Q)) /\
  (forall x, x ∈ l -> (similarity_threshold <= sim email x)%Q ->
             (sim email x <= result.2)%Q).
Proof.
  induction l as [|y l IH]; intros best Hl; cbv zeta.
  - split; [apply Qle_refl|]. split; [by left|]. by intros x ?%elem_of_nil.
  - apply Forall_cons in Hl as [Hy Hl]. rewrite best_match_cons.
    specialize (IH (compare email best y) Hl). cbv zeta in IH.
    destruct IH as (Hle & Hres & Hmax).
    rewrite compare_other in * by done.
    destruct (Qgtb _ _ && Qgeb _ _) eqn:Hc; simpl in *.
    + apply andb_true_iff in Hc as [Hgt%Qgtb_true Hge%Qgeb_true].
      split; [eapply Qle_trans; [apply Qlt_le_weak, Hgt | apply Hle]|].
      split.
      * right. destruct Hres as [->|(Hin & Heq & Hthr & Hlt)]; simpl.
        -- split; [apply elem_of_cons; by left|]. done.
        -- split; [apply elem_of_cons; by right|].
           split; [done|]. split; [done|]. eapply Qlt_trans; eauto.
      * intros x [->|Hin]%elem_of_cons Hx; [done | by apply Hmax].
    + split; [done|]. split.
      * destruct Hres as [->|(Hin & Heq & Hthr & Hlt)]; [by left|].
        right. split; [apply elem_of_cons; by right | done].
      * intros x [->|Hin]%elem_of_cons Hx; [|by apply Hmax].
        apply andb_false_iff in Hc as [Hgt%Qgtb_false|Hge%Qgeb_false].
        -- eapply Qle_trans; eauto.
        -- exfalso. eapply Qlt_not_le; eauto.
Qed.

(** Members that do not beat the best so far leave it alone. *)
Lemma best_match_no_better email l m h :
  Forall (fun x => x <> email) l ->
  (forall x, x ∈ l -> (sim email x <= h)%Q) ->
  best_match email l (m, h) = (m, h).
Proof.
  induction l as [|y l IH]; intros Hl Hle; [done|].
  apply Forall_cons in Hl as [Hy Hl].
  rewrite best_match_cons, compare_other by done. simpl.
  assert (Qgtb (sim email y) h = false) as ->.
  { apply Qgtb_false, Hle, elem_of_cons. by left. }
  apply IH; [done|]. intros x Hx. apply Hle, elem_of_cons. by right.
Qed.

Lemma pool_ne history batch email :
  Forall (fun x => x <> email) (pool history batch email).
Proof. apply Forall_forall. by intros x [Hne _]%list_elem_of_filter. Qed.

(** With a positive threshold, the search from nothing returns a member
    that reaches the threshold and that no member beats, when there is
    one, and nothing otherwise. *)
Lemma best_match_reached email l :
  (0 < similarity_threshold)%Q ->
  Forall (fun x => x <> email) l ->
  (exists x, x ∈ l /\ (similarity_threshold <= sim email x)%Q) ->
  let result := best_match email l ("", 0%Q) in
  result.1 ∈ l /\ result.2 = sim email result.1 /\
  (similarity_threshold <= result.2)%Q /\
  (forall x, x ∈ l -> (sim email x <= result.2)%Q).
Proof.
  intros Hpos Hl (x & Hx & Hthr). cbv zeta.
  destruct (best_match_spec email l ("", 0%Q) Hl) as (_ & Hres & Hmax).
  cbv zeta in *. simpl in Hres.
  assert (similarity_threshold <= (best_match email l ("", 0%Q)).2)%Q as Hh.
  { eapply Qle_trans; [exact Hthr | by apply Hmax]. }
  destruct Hres as [Heq|(Hin & Heq & _ & _)].
  - exfalso. rewrite Heq in Hh. simpl in Hh.
    eapply Qlt_not_le; [exact Hpos | exact Hh].
  - repeat split; try done. intros y Hy.
    destruct (Qlt_le_dec (sim email y) similarity_threshold) as [Hlt|Hge].
    + apply Qlt_le_weak. eapply Qlt_le_trans; eauto.
    + by apply Hmax.
Qed.

Lemma best_match_not_reached email l :
  Forall (fun x => x <> email) l ->
  (forall x, x ∈ l -> (sim email x < similarity_threshold)%Q) ->
  best_match email l ("", 0%Q) = ("", 0%Q).
Proof.
  intros Hl Hlow.
  destruct (best_match_spec email l ("", 0%Q) Hl) as (_ & Hres & _).
  cbv zeta in *. destruct Hres as [Heq|(Hin & Heq & Hthr & _)]; [done|].
  exfalso. rewrite Heq in Hthr.
  eapply Qlt_not_le; [by apply Hlow | exact Hthr].
Qed.

(** The first member with the top score wins. *)
Lemma best_match_first email before m after :
  Forall (fun x => x <> email) (before ++ m :: after) ->
  (0 < sim email m)%Q ->
  (similarity_threshold <= sim email m)%Q ->
  (forall x, x ∈ before -> (sim email x < sim email m)%Q) ->
  (forall x, x ∈ after -> (sim email x <= sim email m)%Q) ->
  best_match email (before ++ m :: after) ("", 0%Q) = (m, sim email m).
Proof.
  intros [Hb [Hm Ha]%Forall_cons]%Forall_app Hpos Hthr Hbefore Hafter.
  rewrite best_match_app, best_match_cons.
  destruct (best_match_spec email before ("", 0%Q) Hb) as (_ & Hres & _).
  cbv zeta in Hres.
  destruct (best_match email before ("", 0%Q)) as [m1 h1] eqn:Hbest.
  assert (h1 < sim email m)%Q as Hlt.
  { destruct Hres as [Heq|(Hin & Heq & _ & _)]; simpl in *.
    - by injection Heq as _ ->.
    - rewrite Heq. by apply Hbefore. }
  rewrite compare_other by done. simpl.
  assert (Qgtb (sim email m) h1 = true) as -> by by apply Qgtb_true.
  assert (Qgeb (sim email m) similarity_threshold = true) as ->
    by by apply Qgeb_true.
  simpl. by apply best_match_no_better.
Qed.

End Search.
End SimilarityFacts.

(** ** Runs of the collector *)

Module RunFacts.
Import Run Hoare.

Lemma bind_returns {A B} (m : M A) (k : A -> M B) st a st' :
  m st = (Returns a, st') -> bind m k st = k a st'.
Proof. unfold bind. by intros ->. Qed.


Lemma for_each_app {X} (xs ys : list X) body st :
  for_each (xs ++ ys) body st
  = bind (for_each xs body) (fun _ => for_each ys body) st.
Proof.
  revert st. induction xs as [|x xs IH]; intros st; [done|].
  simpl. unfold bind. destruct (body x st) as [[[]|e] st1]; [|done].
  apply IH.
Qed.

(** Nested loops go through the concatenation. *)
Lemma for_each_concat {X} (xss : list (list X)) body st :
  for_each xss (fun xs => for_each xs body) st = for_each (concat xss) body st.
Proof.
  revert st. induction xss as [|xs xss IH]; intros st; [done|].
  simpl. rewrite for_each_app. unfold bind.
  destruct (for_each xs body st) as [[[]|e] st1]; [apply IH | done].
Qed.

Lemma for_each_fmap {X Y} (f : X -> list Y) (xs : list X) body st :
  for_each xs (fun x => for_each (f x) body) st
  = for_each (concat (map f xs)) body st.
Proof.
  revert st. induction xs as [|x xs IH]; intros st; [done|].
  simpl. rewrite for_each_app. unfold bind.
  destruct (for_each (f x) body st) as [[[]|e] st1]; [apply IH | done].
Qed.

Section Preserves.
Variable P : state -> Prop.

Lemma preserves_ret {A} (a : A) : preserves P (ret a).
Proof. by intros st. Qed.

Lemma preserves_raise {A} e : preserves P (raise (A := A) e).
Proof. by intros st. Qed.

Lemma preserves_get : preserves P get.
Proof. by intros st. Qed.

Lemma preserves_lift {A} (o : outcome A) : preserves P (lift o).
Proof. by intros st. Qed.

Lemma preserves_modify f : (forall st, P st -> P (f st)) -> preserves P (modify f).
Proof. intros Hf st. apply Hf. Qed.

Lemma preserves_bind {A B} (m : M A) (k : A -> M B) :
  preserves P m -> (forall a, preserves P (k a)) -> preserves P (bind m k).
Proof.
  intros Hm Hk st HP. unfold bind. specialize (Hm st HP).
  destruct (m st) as [[a|e] st1]; [by apply Hk | done].
Qed.

Lemma preserves_try_except {A} (body : M A) handler :
  preserves P body -> (forall e, preserves P (handler e)) ->
  preserves P (try_except body handler).
Proof.
  intros Hm Hh st HP. unfold try_except. specialize (Hm st HP).
  destruct (body st) as [[a|e] st1]; [done | by apply Hh].
Qed.

Lemma preserves_for_each {X} (xs : list X) body :
  (forall x, preserves P (body x)) -> preserves P (for_each xs body).
Proof.
  intros Hb. induction xs as [|x xs IH]; [apply preserves_ret|].
  apply preserves_bind; [apply Hb | intros _; apply IH].
Qed.

Lemma preserves_when b m : preserves P m -> preserves P (when b m).
Proof. destruct b; [done | intros _; apply preserves_ret]. Qed.

End Preserves.

Lemma try_except_never_raises {A} (body : M A) handler :
  (forall e, never_raises (handler e)) -> never_raises (try_except body handler).
Proof.
  intros Hh st. unfold try_except.
  destruct (body st) as [[a|e] st1]; [eauto | apply Hh].
Qed.

Section KeepsOnReturn.
Variable P : state -> Prop.







End KeepsOnReturn.


End RunFacts.

(** ** A batch flush without failures of the output file *)

Module FlushFacts.
Import Text Parser Run Pool Report RunFacts SimilarityFacts ScorerFacts.

Section Flush.
Variable extract_suffix : string -> string.
Variable similarity_threshold : Q.
Variable excluded_emails : gset string.

Abbreviation process_email :=
  (process_email extract_suffix similarity_threshold excluded_emails).
Abbreviation process_batch :=
  (process_batch extract_suffix similarity_threshold excluded_emails).
Abbreviation kept := (Report.kept excluded_emails).
Abbreviation report_row :=
  (Report.report_row extract_suffix similarity_threshold).
Abbreviation flush_rows :=
  (Report.flush_rows extract_suffix similarity_threshold excluded_emails).

Lemma kept_cons_excluded e l : lower e ∈ excluded_emails -> kept (e :: l) = kept l.
Proof.
  intros He. unfold Report.kept. rewrite filter_cons_False; [done|].
  by intros Hn.
Qed.

Lemma kept_cons_kept e l : lower e ∉ excluded_emails -> kept (e :: l) = e :: kept l.
Proof. intros He. unfold Report.kept. by rewrite filter_cons_True. Qed.

Lemma flush_rows_app source history batch q1 q2 :
  flush_rows source history batch (q1 ++ q2)
  = flush_rows source history batch q1
    ++ flush_rows source (history ++ kept q1) batch q2.
Proof.
  revert history. induction q1 as [|e q1 IH]; intros history; simpl.
  - by rewrite app_nil_r.
  - destruct (decide (lower e ∈ excluded_emails)) as [He|He].
    + by rewrite IH, kept_cons_excluded.
    + rewrite IH, kept_cons_kept by done. simpl.
      by rewrite <- app_assoc.
Qed.

Lemma flush_rows_addresses source history batch queue :
  map email_address (flush_rows source history batch queue) = kept queue.
Proof.
  revert history. induction queue as [|e q IH]; intros history; [done|].
  simpl. destruct (decide (lower e ∈ excluded_emails)) as [He|He].
  - by rewrite IH, kept_cons_excluded.
  - rewrite kept_cons_kept by done. simpl. by rewrite IH.
Qed.

Lemma process_email_excluded source email st :
  lower email ∈ excluded_emails ->
  process_email source email st = (Returns tt, set_processed_count S st).
Proof. intros He. unfold Parser.process_email. by rewrite decide_True. Qed.

Lemma process_email_kept source email st :
  lower email ∉ excluded_emails ->
  "@"%char ∈ chars email ->
  faults st = [] ->
  process_email source email st
  = (Returns tt,
     State (unique_emails st) (current_batch st) (all_emails st ++ [email])
           (S (processed_count st))
           (output_file st
            ++ [report_row source (all_emails st) (current_batch st) email])
           (console st
            ++ [Progress (S (processed_count st)) (size (unique_emails st))])
           []).
Proof.
  intros He Hat Hf. unfold Parser.process_email. rewrite decide_False by done.
  unfold Report.report_row, score. unfold bind at 1. unfold get at 1.
  rewrite find_similar_email_pool.
  destruct (best_match _ _ _ _) as [m h].
  destruct (score_with_at extract_suffix email Hat) as (p & -> & _).
  unfold bind, lift, writerow, bind, attempt, modify, count_processed, print,
    modify, get. rewrite Hf. destruct st; simpl in *; by subst.
Qed.

(** The loop of [process_batch] over [queue]. *)
Lemma flush_loop source batch queue : forall st,
  faults st = [] ->
  current_batch st = batch ->
  Forall (fun e => "@"%char ∈ chars e) queue ->
  exists messages,
    for_each queue (process_email source) st
    = (Returns tt,
       State (unique_emails st) batch (all_emails st ++ kept queue)
             (processed_count st + length queue)
             (output_file st ++ flush_rows source (all_emails st) batch queue)
             (console st ++ messages) []).
Proof.
  induction queue as [|e q IH]; intros st Hf Hb Hat.
  - exists []. destruct st; simpl in *. subst.
    by rewrite !app_nil_r, Nat.add_0_r.
  - apply Forall_cons in Hat as [He Hq]. simpl for_each.
    destruct (decide (lower e ∈ excluded_emails)) as [Hex|Hex].
    + erewrite bind_returns by by apply process_email_excluded.
      destruct (IH (set_processed_count S st)) as [msgs ->]; [done..|].
      exists msgs. simpl. rewrite decide_True, kept_cons_excluded by done.
      by rewrite Nat.add_succ_r.
    + erewrite bind_returns by by apply process_email_kept.
      edestruct IH as [msgs ->]; [| |done|]; [done..|].
      exists (Progress (S (processed_count st)) (size (unique_emails st))
              :: msgs).
      simpl. rewrite decide_False, kept_cons_kept by done.
      rewrite <- !app_assoc, Nat.add_succ_r, Hb. reflexivity.
Qed.

Lemma process_batch_spec source st :
  faults st = [] ->
  Forall (fun e => "@"%char ∈ chars e) (current_batch st) ->
  exists messages,
    process_batch source st
    = (Returns tt,
       State (unique_emails st) []
             (all_emails st ++ kept (current_batch st))
             (processed_count st + length (current_batch st))
             (output_file st
              ++ flush_rows source (all_emails st) (current_batch st)
                   (current_batch st))
             (console st ++ messages) []).
Proof.
  intros Hf Hat. unfold Parser.process_batch. unfold bind at 1, get at 1.
  destruct (current_batch st) as [|e b] eqn:Hb.
  - exists []. destruct st; simpl in *. subst.
    by rewrite !app_nil_r, Nat.add_0_r.
  - rewrite <- Hb in *.
    assert (attempt st = (Returns tt, st)) as Ha.
    { unfold attempt. by rewrite Hf. }
    erewrite bind_returns by exact Ha.
    destruct (flush_loop source (current_batch st) (current_batch st) st)
      as [msgs Hloop]; [done..|].
    erewrite bind_returns by exact Hloop.
    by exists msgs.
Qed.

End Flush.
End FlushFacts.

(** ** Whole runs *)

Module CollectorFacts.
Import Text Regex Parser Run Hoare Report RunFacts FlushFacts.

Create HintDb preserve.
#[local] Hint Resolve preserves_ret preserves_raise preserves_get
  preserves_lift : preserve.

(** Takes a computation apart along its binds, loops and handlers. *)
Ltac preserve :=
  repeat first
    [ progress auto with preserve
    | apply preserves_bind; [|intros ?]
    | apply preserves_for_each; intros ?
    | apply preserves_try_except; [|intros ?]
    | apply preserves_when
    | apply preserves_modify; intros ? ? ].

Section Collector.
Variable extract_suffix : string -> string.
Variable iteration_order : gset string -> list string.
Variable similarity_threshold : Q.
Variable excluded_emails : gset string.

Abbreviation process_email :=
  (process_email extract_suffix similarity_threshold excluded_emails).
Abbreviation process_batch :=
  (process_batch extract_suffix similarity_threshold excluded_emails).
Abbreviation collect :=
  (collect extract_suffix similarity_threshold excluded_emails).
Abbreviation parse_csv_file :=
  (parse_csv_file extract_suffix similarity_threshold excluded_emails).
Abbreviation parse_html_file :=
  (parse_html_file extract_suffix iteration_order similarity_threshold
     excluded_emails).
Abbreviation parse_file :=
  (parse_file extract_suffix iteration_order similarity_threshold
     excluded_emails).
Abbreviation process_file :=
  (process_file extract_suffix iteration_order similarity_threshold
     excluded_emails).
Abbreviation process_path :=
  (process_path extract_suffix iteration_order similarity_threshold
     excluded_emails).

(** *** Properties that every step of a run keeps *)

Section Kept.
Variable P : state -> Prop.
(** [P] looks at nothing but the report, the history and the counter, and
    survives a row of an address that is not excluded, a new entry of the
    history that is not excluded, and a step of the counter. *)
Hypothesis P_unique : forall f st, P st -> P (set_unique_emails f st).
Hypothesis P_batch : forall f st, P st -> P (set_current_batch f st).
Hypothesis P_console : forall f st, P st -> P (set_console f st).
Hypothesis P_faults : forall f st, P st -> P (set_faults f st).
Hypothesis P_count : forall st, P st -> P (set_processed_count S st).
Hypothesis P_row : forall r st,
  lower (email_address r) ∉ excluded_emails ->
  P st -> P (set_output_file (fun rows => rows ++ [r]) st).
Hypothesis P_history : forall e st,
  lower e ∉ excluded_emails ->
  P st -> P (set_all_emails (fun l => l ++ [e]) st).

Lemma attempt_keeps : preserves P attempt.
Proof.
  intros st HP. unfold attempt.
  destruct (faults st) as [|[] rest]; simpl; auto.
Qed.

Lemma process_email_keeps source email : preserves P (process_email source email).
Proof.
  unfold Parser.process_email.
  destruct (decide (lower email ∈ excluded_emails)) as [He|He].
  - apply preserves_modify. auto.
  - apply preserves_bind; [apply preserves_get|]. intros st0.
    destruct (find_similar_email _ _ _) as [m h].
    unfold writerow, count_processed, print.
    pose proof attempt_keeps. preserve; auto.
Qed.

Lemma process_batch_keeps source : preserves P (process_batch source).
Proof.
  unfold Parser.process_batch.
  apply preserves_bind; [apply preserves_get|]. intros st0.
  destruct (current_batch st0); [apply preserves_ret|].
  pose proof attempt_keeps. pose proof process_email_keeps.
  preserve; auto.
Qed.

Lemma collect_keeps source email : preserves P (collect source email).
Proof.
  unfold Parser.collect, count_processed.
  apply preserves_bind; [preserve; auto|]. intros _.
  apply preserves_bind; [apply preserves_get|]. intros st0.
  destruct (decide _); [apply preserves_ret|].
  pose proof process_batch_keeps. preserve; auto.
Qed.

Lemma parse_file_keeps f : preserves P (parse_file f).
Proof.
  unfold Parser.parse_file, Parser.parse_csv_file, Parser.parse_html_file,
    print.
  pose proof collect_keeps.
  destruct (String.eqb _ ".csv"); [|destruct (_ || _)]; preserve; auto.
Qed.

Lemma process_file_keeps f : preserves P (process_file f).
Proof.
  unfold Parser.process_file.
  apply preserves_bind; [apply parse_file_keeps|]. intros _.
  apply preserves_bind; [apply preserves_get|]. intros st0.
  destruct (current_batch st0); [apply preserves_ret|].
  apply process_batch_keeps.
Qed.

End Kept.

(** *** Excluded addresses stay out of the report and of the history *)

Abbreviation clean := (Report.clean excluded_emails).

Lemma clean_row r st :
  lower (email_address r) ∉ excluded_emails ->
  clean st -> clean (set_output_file (fun rows => rows ++ [r]) st).
Proof.
  intros Hr [Hrows Hall]. split; [|done]. simpl.
  intros r' [Hin| ->%list_elem_of_singleton]%elem_of_app; auto.
Qed.

Lemma clean_history e st :
  lower e ∉ excluded_emails ->
  clean st -> clean (set_all_emails (fun l => l ++ [e]) st).
Proof.
  intros He [Hrows Hall]. split; [done|]. simpl.
  intros e' [Hin| ->%list_elem_of_singleton]%elem_of_app; auto.
Qed.

Lemma clean_process_file f : preserves clean (process_file f).
Proof.
  apply process_file_keeps; auto using clean_row, clean_history.
Qed.

Lemma clean_process_path t : preserves clean (process_path t).
Proof.
  unfold Parser.process_path, setup_output_file, print.
  pose proof clean_process_file.
  assert (preserves clean attempt) by by apply attempt_keeps.
  assert (forall st, clean st -> clean (set_output_file (fun _ => []) st)).
  { intros st [_ Hall]. split; [|done]. by intros r ?%elem_of_nil. }
  destruct t; preserve; auto.
Qed.

Lemma clean_init faults : clean (init faults).
Proof. split; simpl; by intros ? ?%elem_of_nil. Qed.

(** *** What [collect] does with any address, excluded or not *)

Lemma collect_joins_unique source email st :
  lower email ∈ unique_emails (collect source email st).2.
Proof.
  unfold Parser.collect, count_processed, bind, modify, get. simpl.
  destruct (decide _) as [Hin|Hnot]; [done|]. simpl.
  set (st1 := set_current_batch _ _).
  assert (lower email ∈ unique_emails st1) as Hst1.
  { simpl. apply elem_of_union. right. by apply elem_of_singleton. }
  revert Hst1. generalize st1.
  change (preserves (fun s => lower email ∈ unique_emails s)
            (when (batch_size <=? length (current_batch st1))%nat
                  (process_batch source))).
  apply preserves_when, process_batch_keeps; auto.
Qed.

Lemma collect_counts source email st :
  (processed_count st < processed_count (collect source email st).2)%nat.
Proof.
  assert (preserves (fun s => (processed_count st < processed_count s)%nat)
            (process_batch source)) as Hflush.
  { apply process_batch_keeps; auto. simpl. intros. lia. }
  unfold Parser.collect, count_processed, bind, modify, get. simpl.
  destruct (decide _) as [Hin|Hnot]; simpl; [lia|].
  set (st1 := set_current_batch _ _).
  assert (processed_count st < processed_count st1)%nat as Hst1
    by (simpl; lia).
  clearbody st1.
  match goal with |- context [when ?b _ _] => destruct b end; simpl;
    [by apply Hflush | done].
Qed.

(** *** The file parsers catch every exception *)

Lemma print_never_raises m : never_raises (print m).
Proof. intros st. by eexists _, _. Qed.


Lemma parse_csv_file_returns file_path rows st :
  exists st', parse_csv_file file_path rows st = (Returns tt, st').
Proof.
  destruct (try_except_never_raises
              (for_each rows (fun r =>
                 for_each r (fun field =>
                   for_each (found_emails field) (collect file_path))))
              (fun e => print (ErrorProcessingCsv file_path e))
              (fun e => print_never_raises _) st) as ([] & st' & Hrun).
  by exists st'.
Qed.

(** *** The addresses of a CSV file, cell by cell *)

Lemma parse_csv_file_candidates file_path rows st :
  parse_csv_file file_path rows st
  = try_except (for_each (candidates rows) (collect file_path))
      (fun e => print (ErrorProcessingCsv file_path e)) st.
Proof.
  unfold Parser.parse_csv_file, try_except, candidates.
  rewrite <- for_each_fmap.
  assert (forall rs st0,
            for_each rs (fun r =>
              for_each r (fun field =>
                for_each (found_emails field) (collect file_path))) st0
            = for_each rs (fun r =>
                for_each (concat (map found_emails r)) (collect file_path))
                st0) as ->; [|done].
  induction rs as [|r rs IH]; intros st0; [done|]. simpl.
  unfold bind. rewrite for_each_fmap.
  destruct (for_each _ _ st0) as [[[]|e] st1]; [apply IH | done].
Qed.

(** *** A flush that returns met no failure of the output file *)




(** *** The flush at the end of a file *)

Lemma process_file_flush f st st1 :
  parse_file f st = (Returns tt, st1) ->
  process_file f st
  = match current_batch st1 with
    | [] => (Returns tt, st1)
    | _ => process_batch (path f) st1
    end.
Proof.
  intros Hparse. unfold Parser.process_file.
  erewrite bind_returns by exact Hparse.
  unfold bind, get. by destruct (current_batch st1).
Qed.


End Collector.

(** *** A run over one excluded address *)



End CollectorFacts.

(** * The claims of the specification *)

Import Text Regex Parser Run.
Import Language Signals Pool Hoare Report Scenario.
Import RegexFacts HtmlFacts ScorerFacts SimilarityFacts RunFacts FlushFacts
  CollectorFacts.

(** ** The malformation score *)

(** C10: on every string with an at sign
    [calculate_malformation_probability] returns, and what it returns is
    the sum of the penalties that fired; that sum is at most 0.7, so
    taking the minimum with 1.0 changes nothing. On a string without an at
    sign the lookup of the second piece of the split raises
    [IndexError]. *)
Theorem malformation_probability_total :
  forall (extract_suffix : string -> string) (email : string),
    ("@"%char ∈ chars email /\
     exists p,
       calculate_malformation_probability extract_suffix email = Returns p /\
       (p == penalties extract_suffix email)%Q /\
       (penalties extract_suffix email <= 0.7)%Q /\
       (Qmin (penalties extract_suffix email) 1
        == penalties extract_suffix email)%Q)
    \/ (("@"%char ∉ chars email) /\
        calculate_malformation_probability extract_suffix email
        = Raises IndexError).
Proof.
  intros extract_suffix email.
  destruct (decide ("@"%char ∈ chars email)) as [Hat|Hat].
  - left. split; [done|].
    destruct (score_with_at extract_suffix email Hat) as (p & Hp & Heq).
    destruct (penalties_bounds extract_suffix email) as [_ Hmax].
    exists p. repeat split; try done.
    apply Q.min_l. eapply Qle_trans; [exact Hmax | by vm_compute].
  - right. split; [done|]. by apply score_without_at.
Qed.





(** ** Case *)

(** C4, at the inputs where the code departs from it: the pattern of
    [EmailParser] is compiled without [re.IGNORECASE], so a CSV cell
    yields no address that has a capital in its local part or domain
    (and a cut one when the capital comes first), while the same text in
    an HTML file is found whole by the pattern of [EmailHTMLParser]; the
    run over the CSV file writes nothing where the run over the HTML file
    writes the one row. *)
Theorem csv_pattern_is_case_sensitive :
  Parser.found_emails "A@Example.com" = [] /\
  Parser.found_emails "a@example.COM" = [] /\
  Parser.found_emails "John@example.com" = ["ohn@example.com"] /\
  Html.found_emails "A@Example.com" = ["A@Example.com"] /\
  Html.found_emails "a@example.COM" = ["a@example.COM"] /\
  output_file (run 90 ∅ (csv [["A@Example.com"]; ["a@example.COM"]]) []).2
  = [] /\
  map email_address
    (output_file
       (run 90 ∅ (html [Html.Data "A@Example.com"; Html.Data "a@example.COM"])
            []).2)
  = ["a@example.COM"].
Proof. repeat split; by vm_compute. Qed.

(** ** The similarity search of a flush *)

(** C5, as amended: in a flush without failures, the row of a queued
    address that is not excluded comes from the search over the history
    as it is by then (what it was before the flush, then the members of
    the batch flushed earlier) followed by the whole batch, without the
    entries equal to the address itself; so the pool holds every other
    member queued after it too. The address joins the history after the
    members flushed before it, once its row is written. *)
Theorem flush_similarity_pool :
  forall (extract_suffix : string -> string) (similarity_threshold : Q)
         (excluded_emails : gset string) (source : string) (st : state)
         (before : list string) (email : string) (after : list string),
    faults st = [] ->
    current_batch st = before ++ email :: after ->
    Forall (fun e => "@"%char ∈ chars e) (current_batch st) ->
    lower email ∉ excluded_emails ->
    let history := all_emails st ++ kept excluded_emails before in
    exists st' rows_before rows_after,
      process_batch extract_suffix similarity_threshold excluded_emails
        source st = (Returns tt, st') /\
      output_file st'
      = output_file st ++ rows_before
        ++ report_row extract_suffix similarity_threshold source history
             (current_batch st) email :: rows_after /\
      map email_address rows_before = kept excluded_emails before /\
      all_emails st' = history ++ email :: kept excluded_emails after /\
      (email ∉ pool history (current_batch st) email) /\
      (forall x, x ∈ after -> x <> email ->
                 x ∈ pool history (current_batch st) email).
Proof.
  intros extract_suffix thr excluded source st before email after
    Hf Hb Hat He history.
  destruct (process_batch_spec extract_suffix thr excluded source st Hf Hat)
    as [msgs Hrun].
  eexists _, (flush_rows extract_suffix thr excluded source (all_emails st)
                (current_batch st) before),
    (flush_rows extract_suffix thr excluded source (history ++ [email])
       (current_batch st) after).
  split; [exact Hrun|]. simpl. repeat split.
  - f_equal.
    transitivity (flush_rows extract_suffix thr excluded source
                    (all_emails st) (current_batch st)
                    (before ++ email :: after)); [by rewrite <- Hb|].
    rewrite flush_rows_app. f_equal. simpl. by rewrite decide_False.
  - apply flush_rows_addresses.
  - rewrite Hb. unfold kept. rewrite filter_app, filter_cons_True by done.
    subst history. by rewrite <- app_assoc.
  - by intros [Hne _]%list_elem_of_filter.
  - intros x Hx Hne. apply list_elem_of_filter. split; [done|].
    rewrite Hb, !elem_of_app, elem_of_cons. auto.
Qed.

Lemma flush_similarity_pool_witness :
  let st := State ∅ ["john@example.com"; "jon@example.com"] [] 0 [] [] [] in
  exists st' rows_before rows_after,
    process_batch Sample.extract_suffix 90 ∅ "in.csv" st = (Returns tt, st') /\
    output_file st'
    = output_file st ++ rows_before
      ++ report_row Sample.extract_suffix 90 "in.csv"
           (all_emails st ++ kept ∅ []) (current_batch st)
           "john@example.com" :: rows_after /\
    map email_address rows_before = kept ∅ [] /\
    all_emails st'
    = (all_emails st ++ kept ∅ []) ++ "john@example.com"
      :: kept ∅ ["jon@example.com"] /\
    ("john@example.com"
       ∉ pool (all_emails st ++ kept ∅ []) (current_batch st)
           "john@example.com") /\
    (forall x, x ∈ ["jon@example.com"] -> x <> "john@example.com" ->
               x ∈ pool (all_emails st ++ kept ∅ []) (current_batch st)
                     "john@example.com").
Proof.
  intros st.
  apply (flush_similarity_pool Sample.extract_suffix 90 ∅ "in.csv" st []
           "john@example.com" ["jon@example.com"]).
  - reflexivity.
  - reflexivity.
  - repeat constructor; apply list_elem_of_In; vm_compute; tauto.
  - apply not_elem_of_empty.
Defined.

(** C5 as stated fails: of two similar addresses of one batch, the first
    is reported as similar to the second, which is queued after it and
    is not in the history yet. *)
Lemma flush_pool_has_later_member :
  map similar_email
    (output_file
       (run 90 ∅ (csv [["john@example.com"]; ["jon@example.com"]]) []).2)
  = ["jon@example.com"; "john@example.com"] /\
  map similar_email
    (claimed_flush_rows Sample.extract_suffix 90 ∅ "in.csv" []
       ["john@example.com"; "jon@example.com"])
  = [""; "john@example.com"].
Proof. split; by vm_compute. Qed.

(** C6, as amended: with a positive threshold, the row of an address
    names a similar address exactly when some member of its pool scores
    at or above the threshold. Then the row holds a member whose score
    reaches the threshold and that no member beats, together with that
    score; a score equal to the threshold is enough. When every member
    scores below the threshold, by however little, both fields are
    empty. *)
Theorem similarity_threshold_report :
  forall (extract_suffix : string -> string) (similarity_threshold : Q)
         (excluded_emails : gset string) (source : string) (st : state)
         (email : string),
    (0 < similarity_threshold)%Q ->
    faults st = [] ->
    "@"%char ∈ chars email ->
    lower email ∉ excluded_emails ->
    exists r st',
      process_email extract_suffix similarity_threshold excluded_emails
        source email st = (Returns tt, st') /\
      output_file st' = output_file st ++ [r] /\
      email_address r = email /\
      let others := pool (all_emails st) (current_batch st) email in
      ((exists m, m ∈ others /\
                  (similarity_threshold <= calculate_similarity email m)%Q) ->
       similar_email r ∈ others /\
       similarity_percentage r
       = Some (calculate_similarity email (similar_email r)) /\
       (similarity_threshold
        <= calculate_similarity email (similar_email r))%Q /\
       (forall x, x ∈ others ->
                  (calculate_similarity email x
                   <= calculate_similarity email (similar_email r))%Q)) /\
      ((forall m, m ∈ others ->
                  (calculate_similarity email m < similarity_threshold)%Q) ->
       similar_email r = "" /\ similarity_percentage r = None).
Proof.
  intros extract_suffix thr excluded source st email Hpos Hf Hat He.
  eexists _, _. split; [by apply process_email_kept|].
  split; [reflexivity|]. split; [reflexivity|].
  cbv zeta. unfold report_row. simpl.
  pose proof (pool_ne (all_emails st) (current_batch st) email) as Hne.
  split.
  - intros Hsome.
    destruct (best_match_reached thr email _ Hpos Hne Hsome)
      as (Hin & Heq & Hthr & Hmax).
    apply Qgeb_true in Hthr as Hgeb. rewrite Hgeb.
    repeat split; try done.
    + by rewrite Heq at 1.
    + by rewrite <- Heq.
    + intros x Hx. rewrite <- Heq. by apply Hmax.
  - intros Hlow. rewrite (best_match_not_reached thr email _ Hne Hlow).
    simpl. by apply Qgeb_false in Hpos as ->.
Qed.

Lemma similarity_threshold_report_witness :
  let st := State ∅ ["jon@example.com"] ["john@example.com"] 0 [] [] [] in
  exists r st',
    process_email Sample.extract_suffix 90 ∅ "in.csv" "jon@example.com" st
    = (Returns tt, st') /\
    output_file st' = output_file st ++ [r] /\
    email_address r = "jon@example.com" /\
    let others :=
      pool (all_emails st) (current_batch st) "jon@example.com" in
    ((exists m, m ∈ others /\
                (90 <= calculate_similarity "jon@example.com" m)%Q) ->
     similar_email r ∈ others /\
     similarity_percentage r
     = Some (calculate_similarity "jon@example.com" (similar_email r)) /\
     (90 <= calculate_similarity "jon@example.com" (similar_email r))%Q /\
     (forall x, x ∈ others ->
                (calculate_similarity "jon@example.com" x
                 <= calculate_similarity "jon@example.com"
                      (similar_email r))%Q)) /\
    ((forall m, m ∈ others ->
                (calculate_similarity "jon@example.com" m < 90)%Q) ->
     similar_email r = "" /\ similarity_percentage r = None).
Proof.
  intros st.
  apply (similarity_threshold_report Sample.extract_suffix 90 ∅ "in.csv" st
           "jon@example.com").
  - reflexivity.
  - reflexivity.
  - apply list_elem_of_In. vm_compute. tauto.
  - apply not_elem_of_empty.
Defined.

(** C6 as stated fails at a threshold of zero: the only address of a run
    has an empty pool, so no member reaches the threshold, and its row
    still has a similarity percentage, 0.00. *)
Lemma similarity_percentage_at_zero_threshold :
  pool [] ["a@b.com"] "a@b.com" = [] /\
  map (fun r => (similar_email r, similarity_percentage r))
    (output_file (run 0 ∅ (csv [["a@b.com"]]) []).2)
  = [("", Some 0%Q)].
Proof. split; by vm_compute. Qed.

(** C7, as amended: when the top score of the pool is positive and
    reaches the threshold, the search returns the first member of the
    pool with that score, in the order of the history and then the
    batch. *)
Theorem similarity_tie_break :
  forall (similarity_threshold : Q) (st : state) (email : string)
         (before : list string) (m : string) (after : list string),
    pool (all_emails st) (current_batch st) email = before ++ m :: after ->
    (0 < calculate_similarity email m)%Q ->
    (similarity_threshold <= calculate_similarity email m)%Q ->
    (forall x, x ∈ before ->
               (calculate_similarity email x < calculate_similarity email m)%Q) ->
    (forall x, x ∈ after ->
               (calculate_similarity email x <= calculate_similarity email m)%Q) ->
    find_similar_email similarity_threshold st email
    = (m, calculate_similarity email m).
Proof.
  intros thr st email before m after Hpool Hpos Hthr Hbefore Hafter.
  rewrite find_similar_email_pool, Hpool.
  apply best_match_first; try done.
  rewrite <- Hpool. apply pool_ne.
Qed.

Lemma similarity_tie_break_witness :
  find_similar_email 90
    (State ∅ ["john@example.com"; "jbhn@example.com"] ["jahn@example.com"]
       0 [] [] [])
    "john@example.com"
  = ("jahn@example.com",
     calculate_similarity "john@example.com" "jahn@example.com").
Proof.
  apply (similarity_tie_break 90 _ "john@example.com" []
           "jahn@example.com" ["jbhn@example.com"]).
  - reflexivity.
  - by vm_compute.
  - by vm_compute.
  - by intros x ?%elem_of_nil.
  - intros x ->%list_elem_of_singleton. by vm_compute.
Defined.

(** C7 as stated fails at a threshold of zero: the pool of [x@c.d] holds
    the long address, from the history and from the batch, with the top
    score of 0, which is at the threshold; the row names no similar
    address. *)
Lemma zero_score_tie_reports_nothing :
  Parser.found_emails long_address = [long_address] /\
  pool [long_address] [long_address; "x@c.d"] "x@c.d"
  = [long_address; long_address] /\
  (calculate_similarity "x@c.d" long_address == 0)%Q /\
  map similar_email
    (output_file (run 0 ∅ (csv [[long_address]; ["x@c.d"]]) []).2)
  = ["x@c.d"; ""].
Proof. repeat split; by vm_compute. Qed.

(** ** Exclusion *)

Lemma spam_is_excluded : lower "spam@bad.tld" ∈ spam_excluded.
Proof.
  unfold spam_excluded, load_excluded_emails. simpl.
  apply elem_of_union. right. by apply elem_of_singleton.
Qed.

(** C2, as amended: whatever the input and the failures of the output
    file, a run leaves no row and no entry of the history whose address,
    case-folded, is excluded. An excluded address is nevertheless added
    to the set of unique addresses when it is found, as any other, and
    counted there; the flush counts it once more and does nothing else
    with it. *)
Theorem excluded_candidates_handling :
  forall (extract_suffix : string -> string)
         (iteration_order : gset string -> list string)
         (similarity_threshold : Q) (excluded_emails : gset string)
         (t : target) (faults : list bool),
    let st :=
      (process_path extract_suffix iteration_order similarity_threshold
         excluded_emails t (init faults)).2 in
    (forall r, r ∈ output_file st ->
               lower (email_address r) ∉ excluded_emails) /\
    (forall e, e ∈ all_emails st -> lower e ∉ excluded_emails) /\
    (forall (st0 : state) (source email : string),
        lower email ∈ excluded_emails ->
        let st1 :=
          (collect extract_suffix similarity_threshold excluded_emails
             source email st0).2 in
        lower email ∈ unique_emails st1 /\
        (processed_count st0 < processed_count st1)%nat /\
        process_email extract_suffix similarity_threshold excluded_emails
          source email st0
        = (Returns tt, set_processed_count S st0)).
Proof.
  intros extract_suffix iteration_order thr excluded t faults st.
  destruct (clean_process_path extract_suffix iteration_order thr excluded t
              (init faults) (clean_init excluded faults)) as [Hrows Hall].
  split; [exact Hrows|]. split; [exact Hall|].
  intros st0 source email He st1. split; [apply collect_joins_unique|].
  split; [apply collect_counts | by apply process_email_excluded].
Qed.

(** C2 as stated fails: after a run over the one excluded address, that
    address is in the set of unique addresses. *)
Lemma excluded_address_joins_unique_set :
  (lower "spam@bad.tld" ∈ spam_excluded) /\
  elements
    (unique_emails (run 90 spam_excluded (csv [["spam@bad.tld"]]) []).2)
  = ["spam@bad.tld"].
Proof. split; [apply spam_is_excluded | by vm_compute]. Qed.




(** ** The grammar and the two readers *)



(** A fragment without an at sign has no piece that is a word of the
    pattern. *)
Example findall_plain_text :
  findall true email_pattern "no address in this cell" = [].
Proof.
  apply findall_no_match. intros before m after Heq Hm.
  apply matches_email_pattern_at in Hm.
  assert ("@"%char ∈ chars "no address in this cell") as Hat.
  { rewrite Heq, !elem_of_app. auto. }
  apply list_elem_of_In in Hat. simpl in Hat. intuition discriminate.
Qed.


(** ** Failures of the output file *)



(** * Further properties of the code *)

Import Alphabet Markup Blocks Triples Ledger.

(** ** The matcher finds a word whenever there is one *)

Module MatcherFacts.
Import Text Regex Language Alphabet RegexFacts.

#[local] Hint Constructors matches : core.

Lemma all_chars_complete c : c ∈ all_chars.
Proof.
  unfold all_chars. rewrite <- (ascii_nat_embedding c).
  apply list_elem_of_fmap. exists (nat_of_ascii c). split; [done|].
  apply list_elem_of_In, in_seq. pose proof (nat_ascii_bounded c). lia.
Qed.

Lemma class_within_accepts p icase cs c :
  class_within p icase cs = true -> accepts icase cs c = true -> p c = true.
Proof.
  unfold class_within. rewrite forallb_forall. intros Hall Hc.
  specialize (Hall c). rewrite Hc in Hall. apply Hall.
  apply list_elem_of_In, all_chars_complete.
Qed.

(** The characters of a word are accepted by the classes of the
    pattern. *)
Lemma matches_within p icase r w :
  forallb (class_within p icase) (classes r) = true ->
  matches icase r w -> Forall (fun c => p c = true) w.
Proof.
  intros Hr Hm. induction Hm; simpl in Hr;
    rewrite ?forallb_app, ?andb_true_iff in Hr.
  - constructor.
  - constructor; [|constructor]. eapply class_within_accepts; [|done].
    by destruct Hr.
  - apply Forall_app. split; [apply IHHm1 | apply IHHm2]; tauto.
  - apply IHHm. tauto.
  - apply IHHm. tauto.
  - constructor.
  - apply Forall_app. split; [by apply IHHm1 | by apply IHHm2].
Qed.

Lemma matches_min_length icase r w :
  matches icase r w -> (min_length r <= length w)%nat.
Proof. induction 1; simpl; rewrite ?length_app; lia. Qed.

Lemma length_chars s : length (chars s) = String.length s.
Proof. induction s; simpl; congruence. Qed.

Lemma chars_text l : chars (text l) = l.
Proof. apply list_ascii_of_string_of_list_ascii. Qed.

(** A word of [r*] is empty or starts with a word of [r] that is not
    empty. *)
Lemma star_complete {A} icase r (step : _ -> _ -> option A) :
  (forall w, matches icase r w ->
     forall s' k x, k s' = Some x -> exists y, step (w ++ s') k = Some y) ->
  forall w, matches icase (Star r) w ->
    forall n s' k x, (length (w ++ s') <= n)%nat -> k s' = Some x ->
      exists y, star step k n (w ++ s') = Some y.
Proof.
  intros Hstep w Hw. remember (Star r) as r' eqn:Hr.
  induction Hw as [| | | | |r0|r0 w1 w2 Hw1 _ Hw2 IH2]; try discriminate.
  - intros n s' k x _ Hk. simpl. destruct n as [|n]; simpl; [eauto|].
    destruct (step s' _); eauto.
  - injection Hr as ->. intros n s' k x Hn Hk.
    destruct w1 as [|c w1]; [by eapply IH2|].
    destruct n as [|n]; [rewrite !length_app in Hn; simpl in Hn; lia|].
    rewrite <- app_assoc. cbn [star].
    destruct (IH2 eq_refl n s' k x) as [y Hy];
      [simpl in Hn; rewrite ?length_app in Hn; rewrite ?length_app; lia
      | done |].
    destruct (Hstep _ Hw1 (w2 ++ s')
                (fun s'0 =>
                   if (length s'0 <? length ((c :: w1) ++ w2 ++ s'))%nat
                   then star step k n s'0 else None) y) as [z Hz].
    { assert ((length (w2 ++ s') <? length ((c :: w1) ++ w2 ++ s'))%nat
              = true) as ->; [|done].
      apply Nat.ltb_lt. rewrite (length_app (c :: w1)). simpl. lia. }
    rewrite Hz. eauto.
Qed.

(** The matcher succeeds on a text that starts with a word of the
    pattern, when what follows the pattern succeeds after that word. *)
Lemma bt_complete {A} icase r : forall w, matches icase r w ->
  forall s' (k : list ascii -> option A) x,
    k s' = Some x -> exists y, bt icase r (w ++ s') k = Some y.
Proof.
  induction r as [|cs|r1 IH1 r2 IH2|r1 IH1 r2 IH2|r1 IH1]; intros w Hw;
    inversion Hw; subst; intros s' k x Hk; simpl.
  - eauto.
  - match goal with H : accepts _ _ _ = true |- _ => rewrite H end. eauto.
  - rewrite <- app_assoc.
    match goal with
    | H1 : matches _ r1 ?w1, H2 : matches _ r2 ?w2 |- _ =>
        destruct (IH2 _ H2 s' k x Hk) as [y Hy];
        apply (IH1 _ H1 (w2 ++ s') (fun s'0 => bt icase r2 s'0 k) y Hy)
    end.
  - match goal with H : matches _ r1 _ |- _ =>
      destruct (IH1 _ H s' k x Hk) as [y Hy] end.
    rewrite Hy. eauto.
  - destruct (bt icase r1 (w ++ s') k); eauto.
  - eapply (star_complete icase r1 _ IH1 [] Hw); [simpl; lia | done].
  - eapply (star_complete icase r1 _ IH1 _ Hw); [lia | done].
Qed.

Lemma match_len_complete icase r w s' :
  matches icase r w -> exists n, match_len icase r (w ++ s') = Some n.
Proof. intros Hw. unfold match_len. by eapply bt_complete. Qed.

(** The scan finds something in a text that holds a word of the
    pattern. *)
Lemma findall_from_complete icase r w after :
  (0 < min_length r)%nat -> matches icase r w ->
  forall before skip, (skip <= length before)%nat ->
    findall_from icase r skip (before ++ w ++ after) <> [].
Proof.
  intros Hmin Hw.
  assert (forall s n, match_len icase r s = Some n -> n <> 0%nat) as Hpos.
  { intros s n [Hn _]%match_len_sound ->.
    apply matches_min_length in Hn. rewrite take_0 in Hn. simpl in Hn. lia. }
  induction before as [|c before IH]; intros skip Hskip.
  - simpl in Hskip. replace skip with 0%nat by lia. simpl.
    destruct (match_len_complete icase r w after Hw) as [n Hn].
    specialize (Hpos _ _ Hn).
    destruct (w ++ after) as [|c s] eqn:Hs.
    + apply match_len_sound in Hn as [_ Hle]. simpl in Hle. lia.
    + simpl. rewrite Hn. destruct n; [done | discriminate].
  - simpl. destruct skip as [|n]; [|apply IH; simpl in Hskip; lia].
    destruct (match_len icase r _) as [[|n]|]; [|discriminate|];
      apply IH; lia.
Qed.

(** Stepping over the characters of a match is going on after it. *)
Lemma findall_from_skip icase r s : forall skip,
  (skip <= length s)%nat ->
  findall_from icase r skip s = findall_from icase r 0 (drop skip s).
Proof.
  induction s as [|c s IH]; intros skip Hskip.
  - simpl in Hskip. by replace skip with 0%nat by lia.
  - destruct skip as [|n]; [done|]. simpl in Hskip |- *. apply IH. lia.
Qed.

(** The first match of the scan is a word of the pattern, no word
    starts before it, and the scan goes on after it. *)
Lemma findall_from_first icase r :
  (0 < min_length r)%nat ->
  forall s m ms,
    findall_from icase r 0 s = m :: ms ->
    exists before after,
      s = before ++ m ++ after /\ matches icase r m /\
      (forall b1 b2 w rest,
          before = b1 ++ b2 -> b2 <> [] ->
          b2 ++ m ++ after = w ++ rest -> ~ matches icase r w) /\
      ms = findall_from icase r 0 after.
Proof.
  intros Hmin.
  assert (forall s n, match_len icase r s = Some n -> n <> 0%nat) as Hpos.
  { intros s n [Hn _]%match_len_sound ->.
    apply matches_min_length in Hn. rewrite take_0 in Hn. simpl in Hn. lia. }
  induction s as [|c s IH]; intros m ms; [done|]. simpl.
  destruct (match_len icase r (c :: s)) as [[|n]|] eqn:Hlen.
  - by destruct (Hpos _ _ Hlen).
  - intros [= <- <-]. apply match_len_sound in Hlen as [Hm Hn].
    exists [], (drop (S n) (c :: s)). simpl in Hn |- *.
    split; [by rewrite take_drop|]. split; [done|]. split.
    + intros b1 b2 w rest Hb Hb2. by destruct b1, b2.
    + apply findall_from_skip. lia.
  - intros (before & after & -> & Hm & Hnone & ->)%IH.
    exists (c :: before), after. split; [done|]. split; [done|].
    split; [|done]. intros b1 b2 w rest Hb Hb2 Heq Hw.
    destruct b1 as [|c' b1]; simpl in Hb.
    + subst b2. simpl in Heq. rewrite Heq in Hlen.
      destruct (match_len_complete icase r w rest Hw) as [n Hn]. congruence.
    + injection Hb as <- ->. by eapply Hnone.
Qed.

End MatcherFacts.
Import MatcherFacts.

(** X1: every address that either compilation of the pattern yields has
    at least five characters, one of them an at sign, and all of them
    plain: ASCII characters that are neither NUL nor a line break. *)
Theorem candidate_shape :
  forall (icase : bool) (text email : string),
    email ∈ findall icase email_pattern text ->
    (5 <= String.length email)%nat /\
    "@"%char ∈ chars email /\
    Forall (fun c => plain c = true) (chars email).
Proof.
  intros icase text email Hin.
  split; [|split; [by eapply candidate_at|]];
    unfold findall in Hin; apply list_elem_of_fmap in Hin as (m & -> & Hm);
    apply findall_from_matches in Hm.
  - apply matches_min_length in Hm. by rewrite <- length_chars, chars_text.
  - rewrite chars_text. eapply matches_within; [|exact Hm].
    destruct icase; by vm_compute.
Qed.

Lemma candidate_shape_witness :
  (5 <= String.length "a@b.c")%nat /\
  "@"%char ∈ chars "a@b.c" /\
  Forall (fun c => plain c = true) (chars "a@b.c").
Proof.
  apply (candidate_shape false "mail a@b.c now" "a@b.c").
  apply list_elem_of_In. vm_compute. by left.
Defined.

(** X2: a fragment yields no address exactly when none of its pieces is
    a word of the pattern: the scan overlooks no text that holds an
    address. *)
Theorem findall_nothing_iff :
  forall (icase : bool) (text : string),
    findall icase email_pattern text = [] <->
    (forall before m after,
        chars text = before ++ m ++ after ->
        ~ matches icase email_pattern m).
Proof.
  intros icase text. split; [|apply findall_no_match].
  intros Hnone before m after Heq Hm.
  unfold findall in Hnone. apply fmap_nil_inv in Hnone.
  revert Hnone. rewrite Heq.
  apply findall_from_complete; [vm_compute; lia | done | lia].
Qed.

(** X3: what [findall] yields first is the leftmost address of the
    text: it is a word of the pattern, no word of the pattern starts at
    any place before it, and the rest of what [findall] yields is what
    it yields for the text after that address. *)
Theorem findall_leftmost_first :
  forall (icase : bool) (text m : list ascii) (ms : list (list ascii)),
    findall_from icase email_pattern 0 text = m :: ms ->
    exists before after,
      text = before ++ m ++ after /\ matches icase email_pattern m /\
      (forall b1 b2 w rest,
          before = b1 ++ b2 -> b2 <> [] ->
          b2 ++ m ++ after = w ++ rest ->
          ~ matches icase email_pattern w) /\
      ms = findall_from icase email_pattern 0 after.
Proof.
  intros icase text m ms. apply findall_from_first. vm_compute. lia.
Qed.

Lemma findall_leftmost_first_witness :
  exists before after,
    chars "to a@b.c, d@e.f" = before ++ chars "a@b.c" ++ after /\
    matches false email_pattern (chars "a@b.c") /\
    (forall b1 b2 w rest,
        before = b1 ++ b2 -> b2 <> [] ->
        b2 ++ chars "a@b.c" ++ after = w ++ rest ->
        ~ matches false email_pattern w) /\
    [chars "d@e.f"] = findall_from false email_pattern 0 after.
Proof.
  apply (findall_leftmost_first false (chars "to a@b.c, d@e.f")
           (chars "a@b.c") [chars "d@e.f"]).
  by vm_compute.
Defined.

(** ** What [EmailHTMLParser] collects *)

Module MarkupFacts.
Import Text Regex Language Html Markup RegexFacts MatcherFacts.

Lemma update_emails found p x :
  x ∈ emails (update found p) <-> x ∈ emails p \/ x ∈ found.
Proof. unfold update. simpl. rewrite elem_of_union, elem_of_list_to_set. done. Qed.

Lemma scanned_attrs_cons tag name value attrs :
  scanned (StartTag tag ((name, value) :: attrs))
  = match value with
    | Some (String c v) => String c v :: scanned (StartTag tag attrs)
    | _ => scanned (StartTag tag attrs)
    end.
Proof. by destruct value as [[|c v]|]. Qed.

Lemma scan_attrs_emails tag attrs : forall p x,
  x ∈ emails (scan_attrs attrs p) <->
  x ∈ emails p \/
  exists t, t ∈ scanned (StartTag tag attrs) /\ x ∈ found_emails t.
Proof.
  unfold scan_attrs.
  induction attrs as [|[name value] attrs IH]; intros p x.
  - split; [auto|]. intros [?|(t & ?%elem_of_nil & _)]; done.
  - rewrite scanned_attrs_cons. cbn [fold_left].
    destruct value as [[|c v]|]; rewrite IH; try done.
    rewrite update_emails. split.
    + intros [[?|?]|(t & ? & ?)]; auto.
      * right. exists (String c v). split; [apply elem_of_cons; by left|done].
      * right. exists t. split; [apply elem_of_cons; by right|done].
    + intros [?|(t & [->|?]%elem_of_cons & ?)]; eauto.
Qed.

Lemma scan_attrs_flags attrs : forall p,
  in_pre (scan_attrs attrs p) = in_pre p /\
  current_pre_content (scan_attrs attrs p) = current_pre_content p.
Proof.
  unfold scan_attrs.
  induction attrs as [|[name value] attrs IH]; intros p; simpl; [done|].
  destruct value as [[|c v]|]; simpl; try apply IH.
  destruct (IH (update (found_emails (String c v)) p)) as [-> ->]. done.
Qed.

(** What one event adds to the set: the addresses of the texts it has
    the handlers search, and at the end of a [pre] element those of the
    joined text nodes. *)
Lemma handle_emails p e x :
  x ∈ emails (handle p e) <->
  x ∈ emails p \/
  (exists t, t ∈ scanned e /\ x ∈ found_emails t) \/
  (closes_pre e = true /\
   x ∈ found_emails (String.concat "" (current_pre_content p))).
Proof.
  destruct e as [tag attrs|tag|data]; cbn [handle closes_pre].
  - unfold handle_starttag. fold (scan_attrs attrs p).
    pose proof (scan_attrs_emails tag attrs p x) as Hscan.
    destruct (String.eqb tag "pre"); simpl; rewrite Hscan; intuition discriminate.
  - unfold handle_endtag. destruct (String.eqb tag "pre"); simpl.
    + rewrite elem_of_union, elem_of_list_to_set. split.
      * intros [?|?]; auto.
      * intros [?|[(t & ?%elem_of_nil & _)|[_ ?]]]; auto. done.
    + split; [auto|]. intros [?|[(t & ?%elem_of_nil & _)|[? _]]]; done.
  - unfold handle_data. rewrite update_emails.
    destruct (in_pre p); simpl.
    + split.
      * intros [?|?]; [auto|]. right. left. exists data.
        split; [by apply list_elem_of_singleton | done].
      * intros [?|[(t & ->%list_elem_of_singleton & ?)|[? _]]]; auto. done.
    + split.
      * intros [?|?]; [auto|]. right. left. exists data.
        split; [by apply list_elem_of_singleton | done].
      * intros [?|[(t & ->%list_elem_of_singleton & ?)|[? _]]]; auto. done.
Qed.

Lemma feed_app events1 events2 p :
  feed (events1 ++ events2) p = feed events2 (feed events1 p).
Proof. apply fold_left_app. Qed.

(** The set only grows. *)
Lemma feed_grows events : forall p x, x ∈ emails p -> x ∈ emails (feed events p).
Proof.
  induction events as [|e events IH]; intros p x Hx; [done|].
  simpl. apply IH, handle_emails. by left.
Qed.

Lemma feed_scanned events : forall p e t x,
  e ∈ events -> t ∈ scanned e -> x ∈ found_emails t ->
  x ∈ emails (feed events p).
Proof.
  induction events as [|e0 events IH]; intros p e t x He Ht Hx.
  - by apply elem_of_nil in He.
  - simpl. apply elem_of_cons in He as [->|He]; [|by eapply IH].
    apply feed_grows, handle_emails. right. left. eauto.
Qed.

(** Whatever is in the set came out of the pattern. *)
Lemma found_emails_word t x :
  x ∈ found_emails t -> matches true email_pattern (chars x).
Proof.
  unfold found_emails, findall. intros (m & -> & Hm)%list_elem_of_fmap.
  rewrite chars_text. by eapply findall_from_matches.
Qed.

Lemma feed_words events : forall p,
  (forall x, x ∈ emails p -> matches true email_pattern (chars x)) ->
  forall x, x ∈ emails (feed events p) ->
            matches true email_pattern (chars x).
Proof.
  induction events as [|e events IH]; intros p Hp; [done|].
  simpl. apply IH. intros x [?|[(t & _ & Hx)|[_ Hx]]]%handle_emails; auto;
    by eapply found_emails_word.
Qed.

Lemma handle_settled p e : settled p -> settled (handle p e).
Proof.
  unfold settled. destruct e as [tag attrs|tag|data]; simpl.
  - unfold handle_starttag. fold (scan_attrs attrs p).
    destruct (scan_attrs_flags attrs p) as [Hin Hcontent].
    destruct (String.eqb tag "pre"); simpl; [done|].
    rewrite Hin, Hcontent. done.
  - unfold handle_endtag. by destruct (String.eqb tag "pre").
  - unfold handle_data, update.
    destruct (in_pre p) eqn:Hin; simpl; rewrite ?Hin; [done | auto].
Qed.

Lemma feed_settled events : forall p, settled p -> settled (feed events p).
Proof.
  induction events as [|e events IH]; intros p Hp; [done|].
  simpl. by apply IH, handle_settled.
Qed.

(** Inside a [pre] element the text nodes are kept in their order, up
    to its end tag. *)
Lemma feed_inside_pre body : forall p,
  in_pre p = true ->
  Forall (fun e => closes_pre e = false) body ->
  in_pre (feed body p) = true /\
  current_pre_content (feed body p) = current_pre_content p ++ text_nodes body.
Proof.
  induction body as [|e body IH]; intros p Hin Hbody.
  - by rewrite app_nil_r.
  - apply Forall_cons in Hbody as [He Hbody]. simpl feed.
    destruct e as [tag attrs|tag|data]; simpl in He |- *.
    + destruct (IH (handle_starttag tag attrs p)) as [-> ->]; [|done|].
      * unfold handle_starttag. fold (scan_attrs attrs p).
        destruct (scan_attrs_flags attrs p) as [Hi _].
        destruct (String.eqb tag "pre"); simpl; congruence.
      * split; [done|]. f_equal. unfold handle_starttag.
        fold (scan_attrs attrs p).
        destruct (scan_attrs_flags attrs p) as [_ Hc].
        by destruct (String.eqb tag "pre").
    + unfold handle_endtag. rewrite He. by apply IH.
    + destruct (IH (handle_data data p)) as [-> ->]; [|done|].
      * unfold handle_data. by rewrite Hin.
      * split; [done|]. unfold handle_data. rewrite Hin. simpl.
        by rewrite <- app_assoc.
Qed.

Lemma text_nodes_app events1 events2 :
  text_nodes (events1 ++ events2) = text_nodes events1 ++ text_nodes events2.
Proof. apply omap_app. Qed.

Lemma from_document_app events1 events2 x :
  from_document events1 x -> from_document (events1 ++ events2) x.
Proof.
  intros [(e & t & He & Ht & Hx)|(before & texts & after & Heq & Hx)].
  - left. exists e, t. rewrite elem_of_app. auto.
  - right. exists before, texts, (after ++ text_nodes events2).
    split; [|done]. by rewrite text_nodes_app, Heq, <- !app_assoc.
Qed.

(** One more event. *)
Lemma handle_parsed done p e :
  parsed done p -> parsed (done ++ [e]) (handle p e).
Proof.
  intros (Hfrom & Hsettled & before & Hnodes).
  split; [|split; [by apply handle_settled|]].
  - intros x [Hx|[(t & Ht & Hx)|[Hpre Hx]]]%handle_emails.
    + by apply from_document_app, Hfrom.
    + left. exists e, t. rewrite elem_of_app, list_elem_of_singleton. auto.
    + right. exists before, (current_pre_content p), [].
      split; [|done]. destruct e as [|tag|]; try done.
      rewrite text_nodes_app, Hnodes.
      change (text_nodes [EndTag tag]) with (@nil string).
      by rewrite !app_nil_r.
  - rewrite text_nodes_app, Hnodes.
    destruct e as [tag attrs|tag|data]; cbn [handle].
    + change (text_nodes [StartTag tag attrs]) with (@nil string).
      rewrite app_nil_r.
      exists before. unfold handle_starttag. fold (scan_attrs attrs p).
      destruct (scan_attrs_flags attrs p) as [_ Hcontent].
      destruct (String.eqb tag "pre"); simpl; by rewrite Hcontent.
    + change (text_nodes [EndTag tag]) with (@nil string).
      rewrite app_nil_r.
      unfold handle_endtag. destruct (String.eqb tag "pre"); simpl.
      * exists (before ++ current_pre_content p). by rewrite app_nil_r.
      * by exists before.
    + change (text_nodes [Data data]) with [data].
      unfold handle_data, update. destruct (in_pre p) eqn:Hin; simpl.
      * exists before. by rewrite app_assoc.
      * exists (before ++ [data]). rewrite (Hsettled Hin).
        by rewrite !app_nil_r.
Qed.

Lemma feed_parsed events : forall done p,
  parsed done p -> parsed (done ++ events) (feed events p).
Proof.
  induction events as [|e events IH]; intros done p Hp.
  - by rewrite app_nil_r.
  - simpl. rewrite (cons_middle e), app_assoc. by apply IH, handle_parsed.
Qed.

Lemma new_parsed : parsed [] new.
Proof.
  split; [by intros x ?%not_elem_of_empty|]. split; [done|]. by exists [].
Qed.

End MarkupFacts.
Import MarkupFacts.

(** X4: [EmailHTMLParser] loses nothing and makes nothing up. Every
    address that the pattern finds in a text node or in an attribute
    value that is not empty is in [emails] once the document is fed,
    whatever was fed before and whatever comes after. And every member
    of [emails] of a new parser is from the document: the pattern finds
    it in such a text, or in text nodes that follow each other, joined;
    so it is a word of the pattern and has an at sign. *)
Theorem html_parser_collects :
  forall (events : list Html.event),
    (forall (p : Html.EmailHTMLParser) (e : Html.event) (t x : string),
        e ∈ events -> t ∈ scanned e -> x ∈ Html.found_emails t ->
        x ∈ Html.emails (Html.feed events p)) /\
    (forall (p : Html.EmailHTMLParser) (x : string),
        x ∈ Html.emails p -> x ∈ Html.emails (Html.feed events p)) /\
    (forall x : string,
        x ∈ Html.emails (Html.feed events Html.new) ->
        from_document events x /\
        matches true email_pattern (chars x) /\ "@"%char ∈ chars x).
Proof.
  intros events. split; [intros; by eapply feed_scanned|].
  split; [intros; by apply feed_grows|].
  intros x Hx.
  assert (matches true email_pattern (chars x)) as Hw.
  { eapply (feed_words events Html.new); [|exact Hx].
    by intros y ?%not_elem_of_empty. }
  split; [|split; [done | by apply matches_email_pattern_at in Hw]].
  by apply (feed_parsed events [] Html.new new_parsed).
Qed.

(** X5: an address that the markup inside a [pre] element cuts into
    several text nodes is found when the element ends: the handlers
    search the text nodes between the start tag and the end tag, joined
    in their order. *)
Theorem html_pre_block_joined :
  forall (before : list Html.event) (attrs : list (string * option string))
         (body rest : list Html.event) (x : string),
    Html.in_pre (Html.feed before Html.new) = false ->
    Forall (fun e => closes_pre e = false) body ->
    x ∈ Html.found_emails (String.concat "" (text_nodes body)) ->
    x ∈ Html.emails
          (Html.feed
             (before ++ Html.StartTag "pre" attrs :: body
                     ++ Html.EndTag "pre" :: rest)
             Html.new).
Proof.
  intros before attrs body rest x Hout Hbody Hx.
  rewrite feed_app. set (p := Html.feed before Html.new) in *.
  assert (Html.current_pre_content p = []) as Hempty.
  { by apply (feed_settled before Html.new). }
  change (Html.StartTag "pre" attrs :: body ++ Html.EndTag "pre" :: rest)
    with ([Html.StartTag "pre" attrs] ++ body ++ [Html.EndTag "pre"] ++ rest).
  rewrite !feed_app. apply feed_grows.
  set (p1 := Html.feed [Html.StartTag "pre" attrs] p).
  assert (Html.in_pre p1 = true /\ Html.current_pre_content p1 = []) as [Hin Hc].
  { subst p1. simpl. unfold Html.handle_starttag. fold (scan_attrs attrs p).
    destruct (scan_attrs_flags attrs p) as [_ Hcontent]. simpl.
    by rewrite Hcontent. }
  destruct (feed_inside_pre body p1 Hin Hbody) as [_ Hjoined].
  rewrite Hc in Hjoined. simpl in Hjoined.
  apply (handle_emails (Html.feed body p1) (Html.EndTag "pre")).
  right. right. split; [done|]. by rewrite Hjoined.
Qed.

Lemma html_pre_block_joined_witness :
  "john@example.com"
    ∈ Html.emails
        (Html.feed
           ([Html.Data "Mail: "] ++ Html.StartTag "pre" []
              :: [Html.Data "john@exa"; Html.StartTag "b" [];
                  Html.Data "mple"; Html.EndTag "b"; Html.Data ".com"]
              ++ Html.EndTag "pre" :: [Html.Data "."])
           Html.new).
Proof.
  apply (html_pre_block_joined [Html.Data "Mail: "] []
           [Html.Data "john@exa"; Html.StartTag "b" [];
            Html.Data "mple"; Html.EndTag "b"; Html.Data ".com"]
           [Html.Data "."] "john@example.com").
  - reflexivity.
  - repeat constructor.
  - apply list_elem_of_In. vm_compute. by left.
Defined.

(** ** The exclude list *)

Module ExcludeFacts.
Import Text Parser.

Lemma lower_char_idemp c : lower_char (lower_char c) = lower_char c.
Proof. destruct c as [[] [] [] [] [] [] [] []]; reflexivity. Qed.

Lemma lower_idemp s : lower (lower s) = lower s.
Proof. induction s as [|c s IH]; simpl; [done|]. by rewrite lower_char_idemp, IH. Qed.


End ExcludeFacts.
Import ExcludeFacts.


(** ** The similarity ratio *)

Module RatioFacts.
Import Text Difflib Parser Blocks ExcludeFacts.

Section Indexed.
Variable indexed : ascii -> bool.

Lemma next_row_within ai b i j2len :
  row_within i 0 j2len -> row_within (S i) 0 (next_row indexed ai b j2len).
Proof.
  intros Hrow j k. unfold next_row. rewrite lookup_zip_with.
  destruct (b !! j) as [bj|]; [|done]. simpl.
  destruct j as [|j]; simpl.
  - intros [= <-]. destruct (_ && _); lia.
  - destruct (j2len !! j) as [k0|] eqn:Hk0; [|done]. simpl. intros [= <-].
    apply Hrow in Hk0. destruct (_ && _); lia.
Qed.

Lemma next_row_length ai b j2len :
  (length (next_row indexed ai b j2len) <= length b)%nat.
Proof. unfold next_row. rewrite length_zip_with. lia. Qed.

Lemma scan_row_within la lb i row : forall j best,
  (S i <= la)%nat -> (j + length row <= lb)%nat ->
  row_within (S i) j row ->
  block_within la lb best ->
  block_within la lb (scan_row i j row best).
Proof.
  induction row as [|k row IH]; intros j best Hi Hj Hrow Hbest; [done|].
  simpl in Hj |- *. destruct best as [[bi bj] bestsize].
  apply IH; [done | lia | |].
  - intros j' k' Hk'. destruct (Hrow (S j') k' Hk'). split; [done | lia].
  - destruct (Hrow 0%nat k eq_refl).
    destruct (bestsize <? k)%nat; [|done]. unfold block_within. lia.
Qed.

Lemma scan_rows_within la lb a b : forall i j2len best,
  (i + length a <= la)%nat -> (length b <= lb)%nat ->
  row_within i 0 j2len ->
  block_within la lb best ->
  block_within la lb (scan_rows indexed i a b j2len best).
Proof.
  induction a as [|ai a IH]; intros i j2len best Hi Hb Hrow Hbest; [done|].
  simpl in Hi |- *. apply IH; [lia | done | by apply next_row_within |].
  apply scan_row_within; [lia | | by apply next_row_within | done].
  pose proof (next_row_length ai b j2len). lia.
Qed.

Lemma extend_left_within fuel a b : forall m,
  block_within (length a) (length b) m ->
  block_within (length a) (length b) (extend_left fuel a b m).
Proof.
  induction fuel as [|fuel IH]; intros [[i j] k] Hm; [by destruct i, j|].
  simpl. destruct i as [|i]; [done|]. destruct j as [|j]; [done|].
  destruct (a !! i) as [x|]; [|done]. destruct (b !! j) as [y|]; [|done].
  destruct (Ascii.eqb x y); [|done]. apply IH.
  unfold block_within in *. lia.
Qed.

Lemma extend_right_within fuel a b : forall m,
  block_within (length a) (length b) m ->
  block_within (length a) (length b) (extend_right fuel a b m).
Proof.
  induction fuel as [|fuel IH]; intros [[i j] k] Hm; [done|].
  simpl. destruct (a !! (i + k)%nat) as [x|] eqn:Hx; [|done].
  destruct (b !! (j + k)%nat) as [y|] eqn:Hy; [|done].
  destruct (Ascii.eqb x y); [|done]. apply IH.
  apply lookup_lt_Some in Hx, Hy. unfold block_within in *. lia.
Qed.

(** The longest block lies within both sequences. *)
Lemma find_longest_match_within a b :
  block_within (length a) (length b) (find_longest_match indexed a b).
Proof.
  unfold find_longest_match.
  apply extend_right_within, extend_left_within, scan_rows_within;
    [simpl; lia | done | | unfold block_within; lia].
  intros j k [-> _]%lookup_replicate. lia.
Qed.

(** The matching blocks do not overlap: their sizes add up to at most
    the length of either sequence. *)
Lemma matches_bound fuel : forall a b,
  (Difflib.matches indexed fuel a b <= length a
   /\ Difflib.matches indexed fuel a b <= length b)%nat.
Proof.
  induction fuel as [|fuel IH]; intros a b; simpl; [lia|].
  pose proof (find_longest_match_within a b) as Hm.
  destruct (find_longest_match indexed a b) as [[i j] k].
  destruct k as [|k]; [lia|]. destruct Hm as [Hi Hj].
  pose proof (IH (take i a) (take j b)) as [Hl1 Hl2].
  pose proof (IH (drop (i + S k) a) (drop (j + S k) b)) as [Hr1 Hr2].
  rewrite length_take in Hl1, Hl2. rewrite length_drop in Hr1, Hr2.
  destruct (_ && _), (_ && _); lia.
Qed.

(** The recursion ends before the bound that [ratio] gives it. *)
Lemma matches_fuel fuel1 : forall fuel2 a b,
  (length a < fuel1)%nat -> (length a < fuel2)%nat ->
  Difflib.matches indexed fuel1 a b = Difflib.matches indexed fuel2 a b.
Proof.
  induction fuel1 as [|fuel1 IH]; intros fuel2 a b H1 H2; [lia|].
  destruct fuel2 as [|fuel2]; [lia|]. simpl.
  pose proof (find_longest_match_within a b) as Hm.
  destruct (find_longest_match indexed a b) as [[i j] k].
  destruct k as [|k]; [done|]. destruct Hm as [Hi Hj].
  rewrite (IH fuel2 (take i a) (take j b)),
    (IH fuel2 (drop (i + S k) a) (drop (j + S k) b));
    rewrite ?length_take, ?length_drop; (done || lia).
Qed.

End Indexed.

Lemma calculate_ratio_bounds m n :
  (2 * m <= n)%nat -> (0 <= calculate_ratio m n <= 1)%Q.
Proof.
  intros Hm. unfold calculate_ratio. destruct n as [|n]; [by vm_compute|].
  assert (0 < inject_Z (Z.of_nat (S n)))%Q as Hpos.
  { change 0%Q with (inject_Z 0). rewrite <- Zlt_Qlt. lia. }
  change 2%Q with (inject_Z 2). rewrite <- inject_Z_mult. split.
  - apply Qle_shift_div_l; [done|]. rewrite Qmult_0_l.
    change 0%Q with (inject_Z 0). rewrite <- Zle_Qle. lia.
  - apply Qle_shift_div_r; [done|]. rewrite Qmult_1_l.
    rewrite <- Zle_Qle. lia.
Qed.

Lemma ratio_bounds a b : (0 <= ratio a b <= 1)%Q.
Proof.
  unfold ratio. apply calculate_ratio_bounds.
  pose proof (matches_bound (fun c => negb (popular (chars b) c))
                (S (length (chars a))) (chars a) (chars b)).
  lia.
Qed.

Lemma calculate_similarity_bounds email1 email2 :
  (0 <= calculate_similarity email1 email2 <= 100)%Q.
Proof.
  unfold calculate_similarity.
  destruct (ratio_bounds (lower email1) (lower email2)) as [Hlo Hhi].
  split.
  - apply Qmult_le_0_compat; [done | by vm_compute].
  - apply (Qle_trans _ (1 * 100)%Q); [|by vm_compute].
    apply Qmult_le_compat_r; [done | by vm_compute].
Qed.

End RatioFacts.
Import RatioFacts.

(** X7: the similarity of two addresses is a percentage, between 0 and
    100, and does not depend on the case of their letters. The count of
    matching elements that it rests on is the same for every bound on
    the depth of the recursion above the one that [ratio] uses: the
    bound cuts nothing off. *)
Theorem similarity_is_a_percentage :
  forall (email1 email2 : string),
    (0 <= calculate_similarity email1 email2 <= 100)%Q /\
    calculate_similarity email1 email2
    = calculate_similarity (lower email1) (lower email2) /\
    (forall (indexed : ascii -> bool) (fuel : nat),
        (length (chars email1) < fuel)%nat ->
        Difflib.matches indexed fuel (chars email1) (chars email2)
        = Difflib.matches indexed (S (length (chars email1)))
            (chars email1) (chars email2)).
Proof.
  intros email1 email2. split; [apply calculate_similarity_bounds|].
  split.
  - unfold calculate_similarity. by rewrite !lower_idemp.
  - intros indexed fuel Hfuel. apply matches_fuel; lia.
Qed.

(** ** Rules for specifications *)

Module TripleFacts.
Import Run Triples.

Lemma triple_consequence {A} (P P' : state -> Prop) (m : M A)
  (Q Q' : A -> state -> Prop) (E E' : exn -> state -> Prop) :
  triple P' m Q' E' ->
  (forall st, P st -> P' st) ->
  (forall a st, Q' a st -> Q a st) ->
  (forall e st, E' e st -> E e st) ->
  triple P m Q E.
Proof.
  intros Hm HP HQ HE st Hst. specialize (Hm st (HP st Hst)).
  destruct (m st) as [[a|e] st']; auto.
Qed.

Lemma triple_get (P : state -> Prop) E :
  triple P get (fun a st => a = st /\ P st) E.
Proof. by intros st. Qed.

Lemma triple_bind {A B} (P : state -> Prop) (m : M A) (k : A -> M B)
  (R : A -> state -> Prop) (Q : B -> state -> Prop) E :
  triple P m R E -> (forall a, triple (R a) (k a) Q E) ->
  triple P (bind m k) Q E.
Proof.
  intros Hm Hk st Hst. unfold bind. specialize (Hm st Hst).
  destruct (m st) as [[a|e] st']; [by apply Hk | done].
Qed.

Lemma triple_try_except {A} (P : state -> Prop) (body : M A) handler
  (Q : A -> state -> Prop) (E' E : exn -> state -> Prop) :
  triple P body Q E' -> (forall e, triple (E' e) (handler e) Q E) ->
  triple P (try_except body handler) Q E.
Proof.
  intros Hm Hh st Hst. unfold try_except. specialize (Hm st Hst).
  destruct (body st) as [[a|e] st']; [done | by apply Hh].
Qed.

(** A loop, with an invariant that knows the elements gone through. *)
Lemma triple_for_each {X} (I : list X -> state -> Prop) (xs : list X)
  (body : X -> M unit) E :
  (forall before x after, xs = before ++ x :: after ->
     triple (I before) (body x) (fun _ => I (before ++ [x])) E) ->
  triple (I []) (for_each xs body) (fun _ => I xs) E.
Proof.
  intros Hbody.
  assert (forall rest before, xs = before ++ rest ->
            triple (I before) (for_each rest body) (fun _ => I xs) E) as Hloop.
  { induction rest as [|x rest IH]; intros before Hxs.
    - rewrite app_nil_r in Hxs. subst. by intros st Hst.
    - simpl. eapply triple_bind; [by apply (Hbody before x rest)|].
      intros []. cbv beta.
      apply IH. by rewrite <- app_assoc. }
  by apply (Hloop xs []).
Qed.

(** A loop, with an invariant of the state alone. *)
Lemma triple_for_each_inv {X} (I : state -> Prop) (xs : list X)
  (body : X -> M unit) E :
  (forall x, x ∈ xs -> triple I (body x) (fun _ => I) E) ->
  triple I (for_each xs body) (fun _ => I) E.
Proof.
  intros Hbody. apply (triple_for_each (fun _ => I)).
  intros before x after ->. apply Hbody.
  rewrite elem_of_app, elem_of_cons. auto.
Qed.

End TripleFacts.

(** ** The flush, whatever happens to the output file *)

Module BatchFacts.
Import Text Regex Parser Run Pool Report Signals Triples Ledger.
Import RunFacts SimilarityFacts ScorerFacts FlushFacts TripleFacts RatioFacts.

Lemma find_similar_email_cases similarity_threshold st email :
  let found := find_similar_email similarity_threshold st email in
  found = ("", 0%Q) \/
  (found.1 ∈ all_emails st ++ current_batch st /\
   found.1 <> email /\
   found.2 = calculate_similarity email found.1 /\
   (0 < found.2)%Q /\ (similarity_threshold <= found.2)%Q).
Proof.
  cbv zeta. rewrite find_similar_email_pool.
  destruct (best_match_spec similarity_threshold email
              (pool (all_emails st) (current_batch st) email) ("", 0%Q)
              (pool_ne _ _ _)) as (_ & Hres & _).
  cbv zeta in Hres.
  destruct Hres as [Heq|(Hin & Heq & Hthr & Hpos)]; [by left|]. right.
  apply list_elem_of_filter in Hin as [Hne Hin]. done.
Qed.

(** An address shares nothing with the empty string. *)
Lemma calculate_similarity_empty email :
  email <> "" -> (calculate_similarity email "" == 0)%Q.
Proof.
  intros Hne. unfold calculate_similarity, Difflib.ratio.
  change (chars (lower "")) with (@nil ascii).
  set (a := chars (lower email)).
  pose proof (matches_bound (fun c => negb (Difflib.popular [] c))
                (S (length a)) a []) as [_ Hm].
  change (length (@nil ascii)) with 0%nat in Hm |- *.
  apply Nat.le_0_r in Hm. rewrite Hm.
  assert (exists n, (length a + 0)%nat = S n) as [n ->].
  { subst a. destruct email as [|c email]; [done|]. simpl. eauto. }
  unfold Difflib.calculate_ratio, Qeq. simpl. lia.
Qed.

Lemma for_each_cons {X} (x : X) xs (body : X -> M unit) st :
  for_each (x :: xs) body st
  = match body x st with
    | (Returns _, st') => for_each xs body st'
    | (Raises e, st') => (Raises e, st')
    end.
Proof. simpl. unfold bind. by destruct (body x st) as [[[]|e] st']. Qed.

Section Batch.
Variable extract_suffix : string -> string.
Variable similarity_threshold : Q.
Variable excluded_emails : gset string.

Abbreviation process_email :=
  (process_email extract_suffix similarity_threshold excluded_emails).
Abbreviation process_batch :=
  (process_batch extract_suffix similarity_threshold excluded_emails).
Abbreviation kept := (Report.kept excluded_emails).
Abbreviation row_ok :=
  (Ledger.row_ok extract_suffix similarity_threshold excluded_emails).

(** [process_email], outcome by outcome: an excluded address is counted;
    an address without an at sign raises [IndexError] before anything is
    written; a failure of [writerow] raises [OSError] and leaves the
    history as it is; otherwise the row is written and the address joins
    the history. *)
Lemma process_email_unfold source email st :
  process_email source email st =
  if decide (lower email ∈ excluded_emails)
  then (Returns tt, set_processed_count S st)
  else
    let found := find_similar_email similarity_threshold st email in
    match calculate_malformation_probability extract_suffix email with
    | Raises e => (Raises e, st)
    | Returns p =>
        match faults st with
        | true :: rest => (Raises OSError, set_faults (fun _ => rest) st)
        | _ =>
            (Returns tt,
             State (unique_emails st) (current_batch st)
               (all_emails st ++ [email]) (S (processed_count st))
               (output_file st
                ++ [Row email p
                      (if Qgeb found.2 similarity_threshold then found.1
                       else "")
                      (if Qgeb found.2 similarity_threshold
                       then Some found.2 else None)
                      source])
               (console st
                ++ [Progress (S (processed_count st))
                      (size (unique_emails st))])
               (tail (faults st)))
        end
    end.
Proof.
  unfold Parser.process_email.
  destruct (decide (lower email ∈ excluded_emails)); [done|].
  cbv zeta. unfold bind at 1, get at 1.
  destruct (find_similar_email similarity_threshold st email) as [m h].
  destruct (calculate_malformation_probability extract_suffix email)
    as [p|e]; [|done].
  unfold bind, lift, writerow, bind, attempt, modify, count_processed, print,
    modify, get.
  destruct st as [u b a c o out fs]. simpl.
  by destruct fs as [|[] rest].
Qed.

Lemma score_returns email p :
  calculate_malformation_probability extract_suffix email = Returns p ->
  "@"%char ∈ chars email /\ (p == penalties extract_suffix email)%Q.
Proof.
  intros Hp. destruct (decide ("@"%char ∈ chars email)) as [Hat|Hat].
  - split; [done|].
    destruct (score_with_at extract_suffix email Hat) as (p' & Hp' & Heq).
    congruence.
  - rewrite score_without_at in Hp by done. discriminate.
Qed.

Lemma score_raises email e :
  calculate_malformation_probability extract_suffix email = Raises e ->
  e = IndexError /\ "@"%char ∉ chars email.
Proof.
  intros He. destruct (decide ("@"%char ∈ chars email)) as [Hat|Hat].
  - destruct (score_with_at extract_suffix email Hat) as (p' & Hp' & _).
    congruence.
  - rewrite score_without_at in He by done. by injection He as <-.
Qed.

(** The row that [process_email] writes is as it should be. *)
Lemma written_row_ok source email p st :
  lower email ∉ excluded_emails ->
  calculate_malformation_probability extract_suffix email = Returns p ->
  let found := find_similar_email similarity_threshold st email in
  let r :=
    Row email p
      (if Qgeb found.2 similarity_threshold then found.1 else "")
      (if Qgeb found.2 similarity_threshold then Some found.2 else None)
      source in
  row_ok r /\
  (similar_email r = "" \/ similar_email r ∈ all_emails st ++ current_batch st).
Proof.
  intros Hex [Hat Hp]%score_returns. cbv zeta.
  assert (email <> "") as Hne by (intros ->; by apply elem_of_nil in Hat).
  unfold Ledger.row_ok. simpl.
  destruct (find_similar_email_cases similarity_threshold st email)
    as [Heq|(Hin & Hother & Hsim & Hpos & Hthr)]; cbv zeta in *.
  - rewrite Heq. simpl.
    destruct (Qgeb 0 similarity_threshold) eqn:Hge; simpl.
    + apply Qgeb_true in Hge. repeat split; try done; auto.
      symmetry. by apply calculate_similarity_empty.
    + repeat split; try done; auto.
  - apply Qgeb_true in Hthr as Hge. rewrite Hge. simpl.
    repeat split; try done; auto. by rewrite <- Hsim.
Qed.


(** [process_batch], step by step. *)
Lemma process_batch_unfold source st :
  process_batch source st
  = if decide (current_batch st = []) then (Returns tt, st)
    else
      match attempt st with
      | (Returns _, st1) =>
          match for_each (current_batch st) (process_email source) st1 with
          | (Returns _, st2) =>
              (Returns tt, set_current_batch (fun _ => []) st2)
          | (Raises e, st2) => (Raises e, st2)
          end
      | (Raises e, st1) => (Raises e, st1)
      end.
Proof.
  unfold Parser.process_batch, bind, get.
  destruct (current_batch st) as [|email batch]; [done|].
  rewrite decide_False by done.
  destruct (attempt st) as [[[]|e] st1]; [|done].
  by destruct (for_each _ _ st1) as [[[]|e] st2].
Qed.


End Batch.
End BatchFacts.
Import BatchFacts.

(** ** What the similarity search returns *)

(** X8: [find_similar_email] returns either the empty string with 0, or
    an address of the history or of the batch other than the address
    itself, together with its similarity, which is then positive and at
    or above the threshold; and no other address of the history or of
    the batch that reaches the threshold scores higher. *)
Theorem similar_email_found :
  forall (similarity_threshold : Q) (st : state) (email : string),
    let found := find_similar_email similarity_threshold st email in
    (found = ("", 0%Q) \/
     (found.1 ∈ all_emails st ++ current_batch st /\
      found.1 <> email /\
      found.2 = calculate_similarity email found.1 /\
      (0 < found.2)%Q /\ (found.2 <= 100)%Q /\
      (similarity_threshold <= found.2)%Q)) /\
    (forall x, x ∈ all_emails st ++ current_batch st -> x <> email ->
               (similarity_threshold <= calculate_similarity email x)%Q ->
               (calculate_similarity email x <= found.2)%Q).
Proof.
  intros thr st email found. subst found.
  rewrite find_similar_email_pool.
  destruct (best_match_spec thr email
              (pool (all_emails st) (current_batch st) email) ("", 0%Q)
              (pool_ne _ _ _)) as (_ & Hres & Hmax).
  cbv zeta in Hres, Hmax. split.
  - destruct Hres as [Heq|(Hin & Heq & Hthr & Hpos)]; [by left|]. right.
    apply list_elem_of_filter in Hin as [Hne Hin].
    repeat split; try done.
    rewrite Heq. apply calculate_similarity_bounds.
  - intros x Hx Hne. apply Hmax. by apply list_elem_of_filter.
Qed.


(** ** The search at a lower threshold *)

Module ThresholdFacts.
Import Text Parser Pool SimilarityFacts BatchFacts.

Section Search.
Variable similarity_threshold : Q.

Abbreviation sim := calculate_similarity.
Abbreviation best_match := (Pool.best_match similarity_threshold).

(** When the search from nothing returns a member, that member is the
    first of the list with its score, and no member scores higher. *)
Lemma best_match_first_max email l :
  Forall (fun x => x <> email) l ->
  best_match email l ("", 0%Q) <> ("", 0%Q) ->
  exists before m after,
    l = before ++ m :: after /\
    best_match email l ("", 0%Q) = (m, sim email m) /\
    (0 < sim email m)%Q /\ (similarity_threshold <= sim email m)%Q /\
    (forall x, x ∈ before -> (sim email x < sim email m)%Q) /\
    (forall x, x ∈ after -> (sim email x <= sim email m)%Q).
Proof.
  induction l as [|y l IH] using rev_ind; intros Hl Hfound; [done|].
  apply Forall_app in Hl as [Hl [Hy _]%Forall_cons].
  revert Hfound. rewrite best_match_app, best_match_cons.
  cbn [Pool.best_match fold_left]. rewrite compare_other by done.
  destruct (best_match_spec similarity_threshold email l ("", 0%Q) Hl)
    as (Hle & _ & Hmax). cbv zeta in Hle, Hmax. simpl in Hle.
  destruct (Qgtb _ _ && Qgeb _ _) eqn:Hpass.
  - intros _. apply andb_true_iff in Hpass as [Hgt%Qgtb_true Hge%Qgeb_true].
    exists l, y, []. split; [done|]. split; [done|].
    split; [by eapply Qle_lt_trans|]. split; [done|].
    split; [|by intros x ?%elem_of_nil].
    intros x Hx.
    destruct (Qlt_le_dec (sim email x) similarity_threshold) as [Hlow|Hhigh].
    + by eapply Qlt_le_trans.
    + eapply Qle_lt_trans; [by apply Hmax | done].
  - intros Hfound.
    destruct (IH Hl Hfound)
      as (before & m & after & -> & Hres & Hpos & Hthr & Hbefore & Hafter).
    exists before, m, (after ++ [y]). rewrite <- app_assoc.
    split; [done|]. split; [done|]. split; [done|]. split; [done|].
    split; [done|].
    intros x [Hx| ->%list_elem_of_singleton]%elem_of_app; [auto|].
    rewrite Hres in Hpass. simpl in Hpass.
    apply andb_false_iff in Hpass as [Hgt%Qgtb_false|Hge%Qgeb_false];
      [done|].
    apply Qlt_le_weak. by eapply Qlt_le_trans.
Qed.

End Search.
End ThresholdFacts.
Import ThresholdFacts.

(** X9: lowering the threshold changes no report. When
    [find_similar_email] returns an address at one threshold, it returns
    the same address with the same similarity at every lower
    threshold; a lower threshold only lets rows that named no similar
    address name one. *)
Theorem lower_threshold_keeps_reports :
  forall (similarity_threshold lower_threshold : Q) (st : state)
         (email : string),
    (lower_threshold <= similarity_threshold)%Q ->
    find_similar_email similarity_threshold st email <> ("", 0%Q) ->
    find_similar_email lower_threshold st email
    = find_similar_email similarity_threshold st email.
Proof.
  intros thr thr' st email Hle. rewrite !find_similar_email_pool.
  intros Hfound.
  destruct (best_match_first_max thr email _ (pool_ne _ _ _) Hfound)
    as (before & m & after & Hpool & -> & Hpos & Hthr & Hbefore & Hafter).
  rewrite Hpool. apply best_match_first; try done.
  - rewrite <- Hpool. apply pool_ne.
  - by eapply Qle_trans.
Qed.

Lemma lower_threshold_keeps_reports_witness :
  find_similar_email 50
    (State ∅ ["jon@example.com"] ["john@example.com"] 0 [] [] [])
    "jon@example.com"
  = find_similar_email 90
      (State ∅ ["jon@example.com"] ["john@example.com"] 0 [] [] [])
      "jon@example.com".
Proof.
  apply lower_threshold_keeps_reports; by vm_compute.
Defined.

(** ** A flush that fails *)




(** ** What holds all through a run *)

Module SteadyFacts.
Import Text Regex Language Parser Run Pool Report Signals Triples Ledger.
Import RegexFacts HtmlFacts ScorerFacts RunFacts FlushFacts CollectorFacts.
Import MatcherFacts MarkupFacts TripleFacts BatchFacts.

Section Steady.
Variable extract_suffix : string -> string.
Variable iteration_order : gset string -> list string.
Variable similarity_threshold : Q.
Variable excluded_emails : gset string.
Hypothesis iteration_order_elements :
  forall s, iteration_order s ≡ₚ elements s.
Variable fs : list file.
Variable calm : Prop.

Abbreviation process_email :=
  (process_email extract_suffix similarity_threshold excluded_emails).
Abbreviation process_batch :=
  (process_batch extract_suffix similarity_threshold excluded_emails).
Abbreviation collect :=
  (collect extract_suffix similarity_threshold excluded_emails).
Abbreviation parse_file :=
  (parse_file extract_suffix iteration_order similarity_threshold
     excluded_emails).
Abbreviation process_file :=
  (process_file extract_suffix iteration_order similarity_threshold
     excluded_emails).
Abbreviation file_candidates := (Ledger.file_candidates iteration_order).
Abbreviation queued_from := (Ledger.queued_from iteration_order).
Abbreviation steady :=
  (Ledger.steady extract_suffix iteration_order similarity_threshold
     excluded_emails fs).
Abbreviation during :=
  (Ledger.during extract_suffix iteration_order similarity_threshold
     excluded_emails fs calm).
Abbreviation aborted :=
  (Ledger.aborted extract_suffix iteration_order similarity_threshold
     excluded_emails fs calm).

Lemma elem_of_concat {A} (x : A) (ls : list (list A)) :
  x ∈ concat ls <-> exists l, x ∈ l /\ l ∈ ls.
Proof.
  rewrite list_elem_of_In, in_concat. split.
  - intros (l & Hl & Hx). exists l. by rewrite !list_elem_of_In.
  - intros (l & Hx & Hl). exists l. by rewrite <- !list_elem_of_In.
Qed.

(** Every address that a file hands over has an at sign. *)
Lemma file_candidates_at f x : x ∈ file_candidates f -> "@"%char ∈ chars x.
Proof.
  unfold Ledger.file_candidates.
  destruct (String.eqb _ ".csv"); [|destruct (_ || _)].
  - unfold candidates. intros (l & Hx & Hl)%elem_of_concat.
    apply list_elem_of_fmap in Hl as (r & -> & _).
    apply elem_of_concat in Hx as (l & Hx & Hl).
    apply list_elem_of_fmap in Hl as (field & -> & _).
    by eapply candidate_at.
  - rewrite (iteration_order_elem_of _ iteration_order_elements).
    intros Hx. eapply matches_email_pattern_at, feed_words; [|exact Hx].
    by intros y ?%not_elem_of_empty.
  - by intros ?%elem_of_nil.
Qed.

(** [steady] looks at the set, the batch, the history and the report. *)
Lemma steady_frame st st' :
  unique_emails st' = unique_emails st ->
  current_batch st' = current_batch st ->
  all_emails st' = all_emails st ->
  output_file st' = output_file st ->
  steady st -> steady st'.
Proof.
  intros Hu Hb Ha Ho. unfold Ledger.steady. by rewrite Hu, Hb, Ha, Ho.
Qed.

Lemma quiet_tail st st' :
  faults st' = tail (faults st) -> quiet st -> quiet st'.
Proof.
  unfold quiet. intros ->. destruct (faults st) as [|b l]; [done|].
  by intros [_ ?]%Forall_cons.
Qed.

Lemma quiet_frame st st' : faults st' = faults st -> quiet st -> quiet st'.
Proof. unfold quiet. by intros ->. Qed.

(** An operation on the output file. *)
Lemma attempt_outcomes st :
  match attempt st with
  | (Returns _, st') =>
      unique_emails st' = unique_emails st /\
      current_batch st' = current_batch st /\
      all_emails st' = all_emails st /\
      output_file st' = output_file st /\
      (quiet st -> quiet st')
  | (Raises e, st') =>
      unique_emails st' = unique_emails st /\
      current_batch st' = current_batch st /\
      all_emails st' = all_emails st /\
      output_file st' = output_file st /\
      e = OSError /\ ~ quiet st
  end.
Proof.
  unfold attempt, quiet. destruct (faults st) as [|[] rest] eqn:Hf; simpl;
    rewrite ?Hf; repeat split; auto.
  - by intros [? _]%Forall_cons.
  - by intros [_ ?]%Forall_cons.
Qed.

(** One address of the batch of the file [f], at the flush. *)
Lemma process_email_steady f email st :
  f ∈ fs -> email ∈ current_batch st -> queued_from f st ->
  steady st -> (calm -> quiet st) ->
  match process_email (path f) email st with
  | (Returns _, st') =>
      steady st' /\ (calm -> quiet st') /\
      current_batch st' = current_batch st /\
      (forall e, e ∈ all_emails st -> e ∈ all_emails st') /\
      (lower email ∈ excluded_emails \/ email ∈ all_emails st')
  | (Raises e, st') =>
      steady st' /\ current_batch st' = current_batch st /\
      e = OSError /\ ~ calm
  end.
Proof.
  intros Hf Hemail Hfrom Hsteady Hquiet. rewrite process_email_unfold.
  destruct (decide (lower email ∈ excluded_emails)) as [Hex|Hex].
  { split; [by eapply steady_frame|]. repeat split; auto. }
  cbv zeta.
  destruct (calculate_malformation_probability extract_suffix email)
    as [p|e] eqn:Hp.
  2:{ apply score_raises in Hp as [_ Hat]. destruct Hat.
      by eapply file_candidates_at, Hfrom. }
  assert (forall rest, faults st = true :: rest -> ~ calm) as Hfail.
  { intros rest Hfaults Hcalm. specialize (Hquiet Hcalm).
    unfold quiet in Hquiet. rewrite Hfaults in Hquiet.
    by apply Forall_cons in Hquiet as [? _]. }
  pose proof (written_row_ok extract_suffix similarity_threshold
                excluded_emails (path f) email p st Hex Hp) as Hrow.
  cbv zeta in Hrow. revert Hrow.
  set (r := Row email p _ _ (path f)). intros [Hok Hsimilar].
  pose proof Hsteady as (Hsync & Hrows & Hknown & Hcovered & Hsize).
  assert (steady
            (State (unique_emails st) (current_batch st)
               (all_emails st ++ [email]) (S (processed_count st))
               (output_file st ++ [r])
               (console st
                ++ [Progress (S (processed_count st))
                      (size (unique_emails st))])
               (tail (faults st)))) as Hnew.
  { unfold Ledger.steady. simpl. split; [|split; [|split; [|split]]].
    - by rewrite map_app, Hsync.
    - intros r' [Hr'| ->%list_elem_of_singleton]%elem_of_app; [auto|].
      split; [done|]. split.
      + destruct Hsimilar as [?|Hin]; [by left|]. right. by apply Hknown.
      + exists f. split; [done|]. split; [done|]. by apply Hfrom.
    - intros e. rewrite <- app_assoc, elem_of_app. simpl.
      intros [?|[->|?]%elem_of_cons]; apply Hknown; rewrite elem_of_app;
        auto.
    - intros x Hx. destruct (Hcovered x Hx) as [?|Hin]; [by left|]. right.
      revert Hin. rewrite !list_elem_of_fmap.
      intros (e & -> & He). exists e. split; [done|].
      revert He. rewrite !elem_of_app. intuition.
    - done. }
  destruct (faults st) as [|[] rest] eqn:Hfaults.
  - split; [done|]. split; [|split; [done|split]].
    + intros Hcalm. eapply quiet_tail; [|by apply Hquiet]. simpl.
      by rewrite Hfaults.
    + intros e He. simpl. rewrite elem_of_app. auto.
    + right. simpl. rewrite elem_of_app, list_elem_of_singleton. auto.
  - split; [by eapply steady_frame|].
    split; [done|]. split; [done|]. by eapply Hfail.
  - split; [done|]. split; [|split; [done|split]].
    + intros Hcalm. eapply quiet_tail; [|by apply Hquiet]. simpl.
      by rewrite Hfaults.
    + intros e He. simpl. rewrite elem_of_app. auto.
    + right. simpl. rewrite elem_of_app, list_elem_of_singleton. auto.
Qed.

(** The loop of the flush over the rest of the batch of [f]: [done] is
    the part of the batch gone through. *)
Lemma flush_loop_steady f queue : forall done st,
  f ∈ fs -> current_batch st = done ++ queue -> queued_from f st ->
  steady st -> (calm -> quiet st) ->
  (forall e, e ∈ done -> lower e ∈ excluded_emails \/ e ∈ all_emails st) ->
  match for_each queue (process_email (path f)) st with
  | (Returns _, st') =>
      steady st' /\ (calm -> quiet st') /\
      current_batch st' = current_batch st /\
      (forall e, e ∈ current_batch st ->
                 lower e ∈ excluded_emails \/ e ∈ all_emails st')
  | (Raises e, st') =>
      steady st' /\ current_batch st' = current_batch st /\
      e = OSError /\ ~ calm
  end.
Proof.
  induction queue as [|email queue IH];
    intros done st Hf Hb Hfrom Hst Hq Hdone.
  - simpl. rewrite app_nil_r in Hb.
    split; [done|]. split; [done|]. split; [done|].
    intros e He. rewrite Hb in He. auto.
  - simpl. unfold bind.
    assert (email ∈ current_batch st) as Hemail.
    { rewrite Hb, elem_of_app, elem_of_cons. auto. }
    pose proof (process_email_steady f email st Hf Hemail Hfrom Hst Hq)
      as Hstep.
    destruct (process_email (path f) email st) as [[[]|e] st1]; [|done].
    destruct Hstep as (Hst1 & Hq1 & Hb1 & Hgrow & Hcov).
    assert (current_batch st1 = (done ++ [email]) ++ queue) as Hb'.
    { by rewrite Hb1, Hb, <- app_assoc. }
    assert (queued_from f st1) as Hfrom1.
    { unfold Ledger.queued_from. by rewrite Hb1. }
    assert (forall e, e ∈ done ++ [email] ->
              lower e ∈ excluded_emails \/ e ∈ all_emails st1) as Hdone1.
    { intros e [He| ->%list_elem_of_singleton]%elem_of_app; [|done].
      destruct (Hdone e He); auto. }
    specialize (IH (done ++ [email]) st1 Hf Hb' Hfrom1 Hst1 Hq1 Hdone1).
    destruct (for_each queue _ st1) as [[[]|e] st2].
    + destruct IH as (? & ? & Hb2 & Hcov2).
      rewrite Hb1 in Hb2, Hcov2. done.
    + destruct IH as (? & Hb2 & ? & ?). rewrite Hb1 in Hb2. done.
Qed.

(** The state with the batch emptied, when its members are excluded or
    in the history. *)
Lemma steady_flushed st :
  steady st ->
  (forall e, e ∈ current_batch st ->
             lower e ∈ excluded_emails \/ e ∈ all_emails st) ->
  steady (set_current_batch (fun _ => []) st).
Proof.
  intros (Hsync & Hrows & Hknown & Hcovered & Hsize) Hdone.
  unfold Ledger.steady. simpl. rewrite app_nil_r.
  split; [done|]. split; [done|]. split; [|split; [|lia]].
  - intros e He. apply Hknown. rewrite elem_of_app. auto.
  - intros x Hx. destruct (Hcovered x Hx) as [?|Hin]; [by left|].
    apply list_elem_of_fmap in Hin as (e & -> & [He|He]%elem_of_app).
    + right. apply list_elem_of_fmap. eauto.
    + destruct (Hdone e He) as [?|?]; [by left|].
      right. apply list_elem_of_fmap. eauto.
Qed.

(** The flush of the batch of the file [f]. *)
Lemma process_batch_steady f :
  f ∈ fs ->
  triple (fun st => during st /\ queued_from f st) (process_batch (path f))
    (fun _ st => during st /\ current_batch st = [])
    (fun e st => aborted e st /\ queued_from f st).
Proof.
  intros Hf st [[Hst Hq] Hfrom]. rewrite process_batch_unfold.
  destruct (decide (current_batch st = [])) as [Hempty|Hne]; [done|].
  pose proof (attempt_outcomes st) as Ha.
  destruct (attempt st) as [[[]|e] st1].
  - destruct Ha as (Hu & Hb & Hall & Ho & Hq1).
    assert (steady st1) as Hst1 by by eapply steady_frame.
    assert (queued_from f st1) as Hfrom1.
    { unfold Ledger.queued_from. by rewrite Hb. }
    rewrite <- Hb.
    pose proof (flush_loop_steady f (current_batch st1) [] st1 Hf eq_refl
                  Hfrom1 Hst1 (fun c => Hq1 (Hq c))) as Hloop.
    destruct (for_each (current_batch st1) _ st1) as [[[]|e] st2].
    + destruct Hloop as (Hst2 & Hq2 & Hb2 & Hcov);
        [by intros x ?%elem_of_nil|].
      rewrite <- Hb2 in Hcov. split; [|done]. split.
      * by apply steady_flushed.
      * intros c. eapply quiet_frame; [|by apply Hq2]. done.
    + destruct Hloop as (Hst2 & Hb2 & -> & Hcalm);
        [by intros x ?%elem_of_nil|].
      split; [done|]. unfold Ledger.queued_from. by rewrite Hb2.
  - destruct Ha as (Hu & Hb & Hall & Ho & -> & Hloud).
    split; [|unfold Ledger.queued_from; by rewrite Hb].
    split; [by eapply steady_frame|]. split; [done|]. auto.
Qed.

(** [collect], step by step. *)
Lemma collect_unfold source email st :
  collect source email st
  = if decide (lower email ∈ unique_emails st)
    then (Returns tt, set_processed_count S st)
    else
      let st1 :=
        set_current_batch (fun b => b ++ [email])
          (set_unique_emails (fun u => u ∪ {[ lower email ]})
             (set_processed_count S st)) in
      if (batch_size <=? length (current_batch st ++ [email]))%nat
      then process_batch source st1
      else (Returns tt, st1).
Proof.
  unfold Parser.collect, count_processed, bind, modify, get.
  cbn [unique_emails set_processed_count].
  destruct (decide (lower email ∈ unique_emails st)); [done|].
  cbv zeta. cbn [current_batch set_current_batch set_unique_emails].
  by destruct (batch_size <=? _)%nat.
Qed.

(** The state with one more address of the file [f] queued. *)
Lemma steady_queued f email st :
  email ∈ file_candidates f -> queued_from f st ->
  (length (current_batch st) < batch_size)%nat ->
  steady st ->
  let st1 :=
    set_current_batch (fun b => b ++ [email])
      (set_unique_emails (fun u => u ∪ {[ lower email ]})
         (set_processed_count S st)) in
  steady st1 /\ queued_from f st1.
Proof.
  intros Hemail Hfrom Hlen (Hsync & Hrows & Hknown & Hcovered & Hsize).
  cbv zeta. split.
  - unfold Ledger.steady. simpl. split; [done|].
    split; [|split; [|split]].
    + intros r Hr. destruct (Hrows r Hr) as (Hok & Hsim & Hsrc).
      split; [done|]. split; [|done].
      destruct Hsim as [?|?]; [by left|]. right.
      apply elem_of_union. by left.
    + intros e. rewrite app_assoc, elem_of_app, list_elem_of_singleton.
      intros [He| ->]; apply elem_of_union; [left; by apply Hknown|].
      right. by apply elem_of_singleton.
    + intros x [Hx| ->%elem_of_singleton]%elem_of_union.
      * destruct (Hcovered x Hx) as [?|Hin]; [by left|]. right.
        rewrite app_assoc, fmap_app, elem_of_app. by left.
      * right. rewrite app_assoc, fmap_app, elem_of_app. right.
        apply list_elem_of_singleton. done.
    + rewrite length_app. simpl. lia.
  - unfold Ledger.queued_from. simpl.
    intros e [He| ->%list_elem_of_singleton]%elem_of_app; auto.
Qed.

(** One address of the file [f], as the parser hands it over. *)
Lemma collect_steady f email :
  f ∈ fs -> email ∈ file_candidates f ->
  triple
    (fun st => during st /\ queued_from f st /\
               (length (current_batch st) < batch_size)%nat)
    (collect (path f) email)
    (fun _ st => during st /\ queued_from f st /\
                 (length (current_batch st) < batch_size)%nat)
    (fun e st => aborted e st /\ queued_from f st).
Proof.
  intros Hf Hemail st ([Hst Hq] & Hfrom & Hlen). rewrite collect_unfold.
  destruct (decide (lower email ∈ unique_emails st)) as [Hseen|Hnew].
  { split; [split; [by eapply steady_frame | done] | done]. }
  destruct (steady_queued f email st Hemail Hfrom Hlen Hst) as [Hst1 Hfrom1].
  cbv zeta in *. set (st1 := set_current_batch _ _) in *.
  destruct (batch_size <=? _)%nat eqn:Hfull.
  - pose proof (process_batch_steady f Hf st1) as Hflush.
    destruct (process_batch (path f) st1) as [[[]|e] st2].
    + destruct Hflush as [Hd2 Hb2]; [done|].
      split; [done|]. unfold Ledger.queued_from. rewrite Hb2.
      split; [by intros e ?%elem_of_nil | unfold batch_size; simpl; lia].
    + by apply Hflush.
  - split; [done|]. split; [done|].
    apply Nat.leb_gt in Hfull. done.
Qed.

Lemma print_outcome m st :
  print m st = (Returns tt, set_console (fun out => out ++ [m]) st).
Proof. reflexivity. Qed.

(** The loop of a parser over the addresses of the file [f], inside its
    handler. *)
Lemma guarded_loop_steady f cs m :
  f ∈ fs -> (forall x, x ∈ cs -> x ∈ file_candidates f) ->
  triple
    (fun st => during st /\ queued_from f st /\
               (length (current_batch st) < batch_size)%nat)
    (try_except (for_each cs (collect (path f))) (fun e => print (m e)))
    (fun _ st => during st /\ queued_from f st)
    (fun _ _ => False).
Proof.
  intros Hf Hcs.
  eapply triple_try_except.
  - eapply triple_consequence;
      [apply (triple_for_each_inv _ cs (collect (path f)));
       intros x Hx; apply collect_steady; auto
      | done | by intros _ st (? & ? & _) | intros e st H; exact H].
  - intros e st [(Hst & -> & Hcalm) Hfrom]. rewrite print_outcome.
    split; [|done]. split; [by eapply steady_frame | done].
Qed.

Lemma parse_file_steady f :
  f ∈ fs ->
  triple
    (fun st => during st /\ queued_from f st /\
               (length (current_batch st) < batch_size)%nat)
    (parse_file f)
    (fun _ st => during st /\ queued_from f st)
    (fun _ _ => False).
Proof.
  intros Hf. unfold Parser.parse_file.
  eapply triple_try_except with (E' := fun _ _ => False);
    [|by intros e st []].
  assert (forall x, x ∈ file_candidates f -> x ∈ file_candidates f) as Hcs
    by done.
  revert Hcs. unfold Ledger.file_candidates at 1.
  destruct (String.eqb (lower (suffix f)) ".csv");
    [|destruct (_ || _)]; intros Hcs.
  - intros st Hst. rewrite parse_csv_file_candidates.
    by apply (guarded_loop_steady f _ (ErrorProcessingCsv (path f)) Hf Hcs).
  - by apply (guarded_loop_steady f _ (ErrorProcessingHtml (path f)) Hf Hcs).
  - intros st ([Hst Hq] & Hfrom & _). rewrite print_outcome.
    split; [|done]. split; [by eapply steady_frame | done].
Qed.

(** A file of the run, from an empty batch. *)
Lemma process_file_steady f :
  f ∈ fs ->
  triple (fun st => during st /\ current_batch st = []) (process_file f)
    (fun _ st => during st /\ current_batch st = []) aborted.
Proof.
  intros Hf. unfold Parser.process_file.
  eapply triple_bind.
  - eapply triple_consequence; [by apply parse_file_steady | | |].
    + intros st [Hd Hb]. split; [done|].
      unfold Ledger.queued_from. rewrite Hb.
      split; [by intros e ?%elem_of_nil | unfold batch_size; simpl; lia].
    + intros a st H. exact H.
    + by intros e st [].
  - intros [] st [Hd Hfrom]. unfold bind, get.
    destruct (current_batch st) as [|x batch] eqn:Hb; [done|].
    pose proof (process_batch_steady f Hf st (conj Hd Hfrom)) as Hflush.
    destruct (process_batch (path f) st) as [[[]|e] st'];
      [done | by destruct Hflush].
Qed.

Lemma files_steady files0 :
  (forall f, f ∈ files0 -> f ∈ fs) ->
  triple (fun st => during st /\ current_batch st = [])
    (for_each files0 process_file)
    (fun _ st => during st /\ current_batch st = []) aborted.
Proof.
  intros Hfiles. apply triple_for_each_inv.
  intros f Hf. apply process_file_steady. auto.
Qed.

Lemma setup_output_file_steady :
  triple
    (fun st => during st /\ current_batch st = [] /\ all_emails st = [])
    setup_output_file
    (fun _ st => during st /\ current_batch st = []) aborted.
Proof.
  intros st ([Hst Hq] & Hb & Hall). unfold setup_output_file, bind, modify.
  pose proof (attempt_outcomes st) as Ha.
  destruct (attempt st) as [[[]|e] st1].
  - destruct Ha as (Hu1 & Hb1 & Hall1 & Ho1 & Hq1).
    set (st2 := set_output_file (fun _ => []) st1).
    assert (steady st2) as Hst2.
    { destruct Hst as (_ & _ & Hknown & Hcovered & Hsize).
      unfold Ledger.steady. subst st2. simpl.
      rewrite Hu1, Hb1, Hall1, Hall. rewrite Hall in Hknown, Hcovered.
      split; [done|]. split; [by intros r ?%elem_of_nil|]. done. }
    pose proof (attempt_outcomes st2) as Ha2.
    destruct (attempt st2) as [[[]|e] st3].
    + destruct Ha2 as (Hu3 & Hb3 & Hall3 & Ho3 & Hq3).
      split; [|by rewrite Hb3; subst st2; simpl; rewrite Hb1].
      split; [by eapply steady_frame|]. intros c. apply Hq3.
      eapply quiet_frame; [|by apply Hq1, Hq]. done.
    + destruct Ha2 as (Hu3 & Hb3 & Hall3 & Ho3 & -> & Hloud).
      split; [by eapply steady_frame|]. split; [done|].
      intros c. apply Hloud. eapply quiet_frame; [|by apply Hq1, Hq]. done.
  - destruct Ha as (Hu1 & Hb1 & Hall1 & Ho1 & -> & Hloud).
    split; [by eapply steady_frame|]. split; [done|]. auto.
Qed.

(** A whole run over a target whose files are among [fs]. *)
Lemma process_path_steady t :
  (forall f, f ∈ files t -> f ∈ fs) ->
  triple
    (fun st => during st /\ current_batch st = [] /\ all_emails st = [])
    (process_path extract_suffix iteration_order similarity_threshold
       excluded_emails t)
    (fun _ st => during st /\ current_batch st = []) aborted.
Proof.
  intros Hfiles. unfold Parser.process_path.
  eapply triple_bind; [apply setup_output_file_steady|]. intros [].
  assert (forall m,
            triple (fun st => during st /\ current_batch st = []) (print m)
              (fun _ st => during st /\ current_batch st = []) aborted)
    as Hprint.
  { intros m st [[Hst Hq] Hb]. rewrite print_outcome.
    split; [|done]. split; [by eapply steady_frame | done]. }
  destruct t as [f|csv_files html_files htm_files|]; simpl in Hfiles.
  - eapply triple_bind; [apply Hprint|]. intros [].
    apply process_file_steady, Hfiles, list_elem_of_singleton. done.
  - eapply triple_bind; [apply files_steady|].
    { intros f Hf. apply Hfiles. rewrite elem_of_app. auto. }
    intros []. eapply triple_bind.
    { apply (triple_for_each_inv
               (fun st => during st /\ current_batch st = [])
               [html_files; htm_files]).
      intros files0 Hin. apply files_steady. intros f Hf. apply Hfiles.
      rewrite !elem_of_app.
      apply elem_of_cons in Hin as [->|Hin]; [auto|].
      apply list_elem_of_singleton in Hin as ->. auto. }
    intros []. eapply triple_bind; [apply triple_get|].
    intros st0 st [_ Hst]. by apply Hprint.
  - by intros st.
Qed.

End Steady.

(** A new [EmailParser] is steady. *)
Lemma init_steady extract_suffix iteration_order similarity_threshold
  excluded_emails fs faults :
  Ledger.steady extract_suffix iteration_order similarity_threshold
    excluded_emails fs (init faults).
Proof.
  unfold Ledger.steady, init. simpl. split; [done|].
  split; [by intros r ?%elem_of_nil|]. split; [by intros e ?%elem_of_nil|].
  split; [by intros x ?%not_elem_of_empty|]. unfold batch_size. lia.
Qed.

(** A run from a new [EmailParser], however it ends. *)
Lemma run_steady extract_suffix iteration_order similarity_threshold
  excluded_emails t faults :
  (forall s, iteration_order s ≡ₚ elements s) ->
  match
    process_path extract_suffix iteration_order similarity_threshold
      excluded_emails t (init faults)
  with
  | (Returns _, st) =>
      Ledger.steady extract_suffix iteration_order similarity_threshold
        excluded_emails (files t) st /\
      current_batch st = []
  | (Raises e, st) =>
      Ledger.steady extract_suffix iteration_order similarity_threshold
        excluded_emails (files t) st /\
      e = OSError /\ true ∈ faults
  end.
Proof.
  intros Horder.
  pose proof (process_path_steady extract_suffix iteration_order
                similarity_threshold excluded_emails Horder (files t)
                (Forall (fun b => b = false) faults) t (fun f Hf => Hf)
                (init faults)) as Hrun.
  destruct (process_path _ _ _ _ t (init faults)) as [[[]|e] st].
  - destruct Hrun as [[Hst _] Hb]; [|done].
    split; [split; [apply init_steady | done] | done].
  - destruct Hrun as (Hst & -> & Hloud).
    { split; [split; [apply init_steady | done] | done]. }
    split; [done|]. split; [done|].
    destruct (decide (true ∈ faults)) as [?|Hnot]; [done|].
    destruct Hloud. apply Forall_forall. intros [] Hb; [by destruct Hnot|done].
Qed.

End SteadyFacts.
Import SteadyFacts.

(** ** A run without failures of the output file *)

Module LedgerFacts.
Import Text Regex Parser Run Report Ledger.
Import RunFacts FlushFacts CollectorFacts BatchFacts SteadyFacts.

(** *** The first occurrences of a list *)

Lemma union_seen (seen others : gset string) x :
  x ∈ seen -> seen ∪ ({[ x ]} ∪ others) = seen ∪ others.
Proof.
  intros Hx. apply set_eq. intros y.
  rewrite !elem_of_union, elem_of_singleton. split; [|tauto].
  intros [?|[->|?]]; auto.
Qed.

Lemma first_seen_app l1 : forall seen l2,
  first_seen seen (l1 ++ l2)
  = first_seen seen l1
    ++ first_seen (seen ∪ list_to_set (map lower l1)) l2.
Proof.
  induction l1 as [|e l1 IH]; intros seen l2; simpl.
  - by rewrite (right_id_L ∅ (∪)).
  - destruct (decide (lower e ∈ seen)) as [Hin|Hnot].
    + by rewrite IH, union_seen.
    + simpl. by rewrite IH, (assoc_L (∪)).
Qed.

Lemma first_seen_lower l : forall seen x,
  x ∈ map lower (first_seen seen l) <-> x ∈ map lower l /\ x ∉ seen.
Proof.
  induction l as [|e l IH]; intros seen x; simpl.
  - split; [by intros ?%elem_of_nil | by intros [?%elem_of_nil _]].
  - destruct (decide (lower e ∈ seen)) as [Hin|Hnot]; simpl.
    + rewrite IH, elem_of_cons. split; [tauto|].
      intros [[->|?] ?]; [done | tauto].
    + rewrite !elem_of_cons, IH, not_elem_of_union, not_elem_of_singleton.
      split.
      * intros [->|[? [? ?]]]; tauto.
      * intros [[->|?] ?]; [tauto|].
        destruct (decide (x = lower e)) as [->|?]; tauto.
Qed.

Lemma first_seen_NoDup l : forall seen, NoDup (map lower (first_seen seen l)).
Proof.
  induction l as [|e l IH]; intros seen; simpl; [constructor|].
  destruct (decide (lower e ∈ seen)); [apply IH|]. simpl.
  constructor; [|apply IH]. rewrite first_seen_lower.
  rewrite not_elem_of_union, not_elem_of_singleton. tauto.
Qed.

Lemma first_seen_sublist l : forall seen, first_seen seen l `sublist_of` l.
Proof.
  induction l as [|e l IH]; intros seen; simpl; [done|].
  destruct (decide (lower e ∈ seen)).
  - by apply sublist_cons.
  - by apply sublist_skip.
Qed.

(** A member of the first occurrences stands in the list with no equal
    of its, up to case, before it. *)
Lemma first_seen_first l : forall seen e,
  e ∈ first_seen seen l ->
  exists before after,
    l = before ++ e :: after /\ (lower e ∉ map lower before) /\
    lower e ∉ seen.
Proof.
  induction l as [|e0 l IH]; intros seen e; simpl.
  - by intros ?%elem_of_nil.
  - destruct (decide (lower e0 ∈ seen)) as [Hin|Hnot].
    + intros (before & after & -> & Hb & Hs)%IH.
      exists (e0 :: before), after. split; [done|]. split; [|done].
      simpl. intros [Heq|?]%elem_of_cons; [|done]. by rewrite Heq in Hs.
    + intros [->|He]%elem_of_cons.
      * exists [], l. split; [done|]. split; [|done]. by intros ?%elem_of_nil.
      * apply IH in He as (before & after & -> & Hb & Hs).
        apply not_elem_of_union in Hs as [Hs Hne].
        apply not_elem_of_singleton in Hne.
        exists (e0 :: before), after. split; [done|]. split; [|done].
        simpl. by intros [?|?]%elem_of_cons.
Qed.

(** *** The addresses that are not excluded *)

Lemma kept_app excluded_emails l1 l2 :
  kept excluded_emails (l1 ++ l2)
  = kept excluded_emails l1 ++ kept excluded_emails l2.
Proof. apply filter_app. Qed.

Lemma kept_cons_app excluded_emails e l :
  kept excluded_emails (e :: l)
  = kept excluded_emails [e] ++ kept excluded_emails l.
Proof. apply (kept_app excluded_emails [e] l). Qed.

Lemma kept_lower excluded_emails l x :
  x ∈ map lower (kept excluded_emails l)
  <-> x ∈ map lower l /\ x ∉ excluded_emails.
Proof.
  unfold kept. rewrite !list_elem_of_fmap. split.
  - intros (e & -> & [He Hin]%list_elem_of_filter). eauto.
  - intros [(e & -> & Hin) Hex]. exists e. split; [done|].
    by apply list_elem_of_filter.
Qed.

Lemma kept_NoDup excluded_emails l :
  NoDup (map lower l) -> NoDup (map lower (kept excluded_emails l)).
Proof.
  induction l as [|e l IH]; simpl; [done|].
  intros [Hnot Hl]%NoDup_cons. unfold kept. rewrite filter_cons.
  destruct (decide (lower e ∉ excluded_emails)) as [Hex|Hex]; [|by apply IH].
  simpl. constructor; [|by apply IH].
  intros [Hin _]%kept_lower. done.
Qed.

(** *** Rows and their files *)

Lemma from_file_app source l1 l2 :
  from_file source (l1 ++ l2) = from_file source l1 ++ from_file source l2.
Proof. apply map_app. Qed.

Lemma from_file_addresses source l : map fst (from_file source l) = l.
Proof.
  unfold from_file. rewrite map_map. simpl. apply map_id.
Qed.

Lemma row_key_addresses rows :
  map fst (map row_key rows) = map email_address rows.
Proof. by rewrite map_map. Qed.

Lemma flush_rows_keys extract_suffix similarity_threshold excluded_emails
  source history batch queue :
  map row_key
    (flush_rows extract_suffix similarity_threshold excluded_emails source
       history batch queue)
  = from_file source (kept excluded_emails queue).
Proof.
  revert history. induction queue as [|e q IH]; intros history; [done|].
  simpl. destruct (decide (lower e ∈ excluded_emails)) as [He|He].
  - by rewrite IH, kept_cons_excluded.
  - rewrite kept_cons_kept by done. simpl. by rewrite IH.
Qed.



Section Calm.
Variable extract_suffix : string -> string.
Variable iteration_order : gset string -> list string.
Variable similarity_threshold : Q.
Variable excluded_emails : gset string.
Hypothesis iteration_order_elements :
  forall s, iteration_order s ≡ₚ elements s.

Abbreviation process_batch :=
  (process_batch extract_suffix similarity_threshold excluded_emails).
Abbreviation collect :=
  (collect extract_suffix similarity_threshold excluded_emails).
Abbreviation parse_file :=
  (parse_file extract_suffix iteration_order similarity_threshold
     excluded_emails).
Abbreviation process_file :=
  (process_file extract_suffix iteration_order similarity_threshold
     excluded_emails).
Abbreviation file_candidates := (Ledger.file_candidates iteration_order).
Abbreviation kept := (Report.kept excluded_emails).

Abbreviation settled_history := (Ledger.settled_history excluded_emails).
Abbreviation settled_report := (Ledger.settled_report excluded_emails).
Abbreviation expected_rows :=
  (Ledger.expected_rows iteration_order excluded_emails).
Abbreviation has_at := (fun e : string => "@"%char ∈ chars e).

(** The loop of a parser over the addresses [cs], when no operation on
    the output file fails: whenever the flushes happen, the history and
    the report, with what is queued, grow by the first occurrences that
    are kept, and each address is counted when it is found and each
    first occurrence once more at its flush. *)
Lemma collect_loop source cs : forall st,
  faults st = [] ->
  (length (current_batch st) < batch_size)%nat ->
  Forall has_at (current_batch st) -> Forall has_at cs ->
  exists st',
    for_each cs (collect source) st = (Returns tt, st') /\
    faults st' = [] /\
    (length (current_batch st') < batch_size)%nat /\
    Forall has_at (current_batch st') /\
    unique_emails st' = unique_emails st ∪ list_to_set (map lower cs) /\
    settled_history st'
    = settled_history st ++ kept (first_seen (unique_emails st) cs) /\
    settled_report source st'
    = settled_report source st
      ++ from_file source (kept (first_seen (unique_emails st) cs)) /\
    settled_count st'
    = (settled_count st + length cs
       + length (first_seen (unique_emails st) cs))%nat.
Proof.
  induction cs as [|e cs IH]; intros st Hf Hlen Hbatch Hcs.
  - exists st. simpl. rewrite !app_nil_r, (right_id_L ∅ (∪)).
    repeat split; try done. lia.
  - apply Forall_cons in Hcs as [He Hcs].
    rewrite for_each_cons, collect_unfold.
    destruct (decide (lower e ∈ unique_emails st)) as [Hseen|Hnew].
    + destruct (IH (set_processed_count S st))
        as (st' & Hrun & Hf' & Hlen' & Hat' & Hu & Hh & Hr & Hc);
        [done..|].
      exists st'. split; [done|]. split; [done|]. split; [done|].
      split; [done|]. simpl. rewrite decide_True by done.
      split; [by rewrite Hu, union_seen|]. split; [done|]. split; [done|].
      rewrite Hc. unfold settled_count. simpl. lia.
    + cbv zeta. set (st1 := set_current_batch _ _).
      assert (Forall has_at (current_batch st1)) as Hat1.
      { subst st1. simpl. apply Forall_app. split; [done|by constructor]. }
      assert (first_seen (unique_emails st) (e :: cs)
              = e :: first_seen (unique_emails st1) cs) as Hfirst.
      { simpl. by rewrite decide_False. }
      assert (unique_emails st ∪ list_to_set (map lower (e :: cs))
              = unique_emails st1 ∪ list_to_set (map lower cs)) as Hunique.
      { subst st1. simpl. by rewrite (assoc_L (∪)). }
      assert (settled_history st ++ kept [e] = settled_history st1
              /\ settled_report source st ++ from_file source (kept [e])
                 = settled_report source st1
              /\ settled_count st1 = (settled_count st + 2)%nat)
        as (Hh1 & Hr1 & Hc1).
      { subst st1. unfold Ledger.settled_history, Ledger.settled_report,
          settled_count. simpl.
        rewrite kept_app, from_file_app, !app_assoc, length_app. simpl.
        split; [done|]. split; [done|]. lia. }
      rewrite Hfirst, Hunique, kept_cons_app, from_file_app, !app_assoc,
        Hh1, Hr1.
      simpl length.
      destruct (batch_size <=? _)%nat eqn:Hfull.
      * destruct (process_batch_spec extract_suffix similarity_threshold
                    excluded_emails source st1 Hf Hat1) as [msgs Hflush].
        rewrite Hflush.
        match goal with |- context [for_each cs _ ?s] => set (st2 := s) end.
        destruct (IH st2)
          as (st' & Hrun & Hf' & Hlen' & Hat' & Hu & Hh & Hr & Hc);
          [done | unfold batch_size; simpl; lia | constructor | done |].
        exists st'. split; [done|]. split; [done|]. split; [done|].
        split; [done|]. split; [done|].
        assert (settled_history st2 = settled_history st1
                /\ settled_report source st2 = settled_report source st1
                /\ settled_count st2 = settled_count st1)
          as (Hh2 & Hr2 & Hc2).
        { subst st2. unfold Ledger.settled_history, Ledger.settled_report,
            settled_count. simpl.
          rewrite map_app, flush_rows_keys, !app_nil_r.
          split; [done|]. split; [done|]. lia. }
        rewrite Hh, Hr, Hc, Hh2, Hr2, Hc2, Hc1.
        split; [done|]. split; [done|].
        change (unique_emails st2) with (unique_emails st ∪ {[ lower e ]}).
        lia.
      * apply Nat.leb_gt in Hfull.
        destruct (IH st1)
          as (st' & Hrun & Hf' & Hlen' & Hat' & Hu & Hh & Hr & Hc);
          [done | exact Hfull | done | done |].
        exists st'. split; [done|]. split; [done|]. split; [done|].
        split; [done|]. split; [done|].
        rewrite Hh, Hr, Hc, Hc1. split; [done|]. split; [done|].
        change (unique_emails st1) with (unique_emails st ∪ {[ lower e ]}).
        lia.
Qed.

Lemma file_candidates_has_at f : Forall has_at (file_candidates f).
Proof.
  apply Forall_forall. intros x.
  by apply (file_candidates_at iteration_order iteration_order_elements).
Qed.

(** [parse_file] hands the addresses of the file to the collector, and
    returns. *)
Lemma parse_file_calm f st :
  faults st = [] ->
  (length (current_batch st) < batch_size)%nat ->
  Forall has_at (current_batch st) ->
  exists st',
    parse_file f st = (Returns tt, st') /\
    faults st' = [] /\
    Forall has_at (current_batch st') /\
    unique_emails st'
    = unique_emails st ∪ list_to_set (map lower (file_candidates f)) /\
    settled_history st'
    = settled_history st
      ++ kept (first_seen (unique_emails st) (file_candidates f)) /\
    settled_report (path f) st'
    = settled_report (path f) st
      ++ from_file (path f)
           (kept (first_seen (unique_emails st) (file_candidates f))) /\
    settled_count st'
    = (settled_count st + length (file_candidates f)
       + length (first_seen (unique_emails st) (file_candidates f)))%nat.
Proof.
  intros Hf Hlen Hbatch.
  pose proof (collect_loop (path f) (file_candidates f) st Hf Hlen Hbatch
                (file_candidates_has_at f))
    as (st' & Hrun & Hf' & _ & Hat' & Hu & Hh & Hr & Hc).
  revert Hrun Hu Hh Hr Hc.
  unfold Parser.parse_file, Ledger.file_candidates.
  unfold try_except at 1.
  destruct (String.eqb (lower (suffix f)) ".csv");
    [|destruct (_ || _)]; intros Hrun Hu Hh Hr Hc.
  - rewrite parse_csv_file_candidates. unfold try_except. rewrite Hrun.
    by exists st'.
  - unfold Parser.parse_html_file, try_except. rewrite Hrun. by exists st'.
  - simpl in Hrun. injection Hrun as <-.
    exists (set_console
              (fun out => out ++ [UnsupportedFileType (path f)]) st).
    split; [done|]. split; [done|]. split; [done|]. done.
Qed.

(** A file, from an empty batch to an empty batch. *)
Lemma process_file_calm f st :
  faults st = [] -> current_batch st = [] ->
  exists st',
    process_file f st = (Returns tt, st') /\
    faults st' = [] /\ current_batch st' = [] /\
    unique_emails st'
    = unique_emails st ∪ list_to_set (map lower (file_candidates f)) /\
    all_emails st'
    = all_emails st
      ++ kept (first_seen (unique_emails st) (file_candidates f)) /\
    map row_key (output_file st')
    = map row_key (output_file st)
      ++ from_file (path f)
           (kept (first_seen (unique_emails st) (file_candidates f))) /\
    processed_count st'
    = (processed_count st + length (file_candidates f)
       + length (first_seen (unique_emails st) (file_candidates f)))%nat.
Proof.
  intros Hf Hb.
  destruct (parse_file_calm f st Hf)
    as (st1 & Hparse & Hf1 & Hat1 & Hu & Hh & Hr & Hc).
  { rewrite Hb. unfold batch_size. simpl. lia. }
  { rewrite Hb. constructor. }
  revert Hh Hr Hc.
  unfold Ledger.settled_history, Ledger.settled_report, settled_count.
  rewrite Hb. simpl length.
  cbn [Report.kept filter list_filter from_file map].
  rewrite !app_nil_r, Nat.add_0_r. intros Hh Hr Hc.
  rewrite (process_file_flush _ _ _ _ _ _ _ Hparse).
  destruct (current_batch st1) as [|x batch] eqn:Hb1.
  - exists st1. simpl in Hh, Hr, Hc.
    rewrite !app_nil_r in Hh, Hr. rewrite Nat.add_0_r in Hc. done.
  - rewrite <- Hb1 in *.
    destruct (process_batch_spec extract_suffix similarity_threshold
                excluded_emails (path f) st1 Hf1 Hat1) as [msgs Hflush].
    rewrite Hflush. eexists. split; [done|]. simpl.
    rewrite map_app, flush_rows_keys. done.
Qed.

(** The addresses of the rows that are expected are the first
    occurrences, among the addresses of all the files, that are kept. *)
Lemma expected_rows_addresses fs : forall seen,
  map fst (expected_rows seen fs)
  = kept (first_seen seen (concat (map file_candidates fs))).
Proof.
  induction fs as [|f fs IH]; intros seen; [done|].
  simpl. by rewrite map_app, from_file_addresses, IH, first_seen_app, kept_app.
Qed.

(** A row that is expected names the first of the files that hand its
    address over. *)
Lemma expected_rows_first fs : forall seen e source,
  (e, source) ∈ expected_rows seen fs ->
  exists fs1 f fs2,
    fs = fs1 ++ f :: fs2 /\ source = path f /\
    e ∈ file_candidates f /\
    (lower e ∉ map lower (concat (map file_candidates fs1))) /\
    lower e ∉ seen.
Proof.
  induction fs as [|f fs IH]; intros seen e source; simpl.
  - by intros ?%elem_of_nil.
  - intros [Hin|Hin]%elem_of_app.
    + apply list_elem_of_fmap in Hin as (e' & [= -> ->] & He).
      apply list_elem_of_filter in He as [_ He].
      apply first_seen_first in He as (before & after & Heq & _ & Hseen).
      exists [], f, fs. split; [done|]. split; [done|].
      split; [rewrite Heq, elem_of_app, elem_of_cons; auto|].
      split; [by intros ?%elem_of_nil | done].
    + apply IH in Hin as (fs1 & f' & fs2 & -> & -> & He & Hfirst & Hseen).
      apply not_elem_of_union in Hseen as [Hseen Hf].
      rewrite elem_of_list_to_set in Hf.
      exists (f :: fs1), f', fs2. split; [done|]. split; [done|].
      split; [done|]. split; [|done].
      simpl. rewrite map_app, elem_of_app. by intros [?|?].
Qed.

(** The files of a run, one after the other. *)
Lemma files_calm files0 : forall st,
  faults st = [] -> current_batch st = [] ->
  let cs := concat (map file_candidates files0) in
  exists st',
    for_each files0 process_file st = (Returns tt, st') /\
    faults st' = [] /\ current_batch st' = [] /\
    unique_emails st' = unique_emails st ∪ list_to_set (map lower cs) /\
    all_emails st'
    = all_emails st ++ kept (first_seen (unique_emails st) cs) /\
    map row_key (output_file st')
    = map row_key (output_file st)
      ++ expected_rows (unique_emails st) files0 /\
    processed_count st'
    = (processed_count st + length cs
       + length (first_seen (unique_emails st) cs))%nat.
Proof.
  induction files0 as [|f files0 IH]; intros st Hf Hb; cbv zeta.
  - exists st. simpl. rewrite !app_nil_r, (right_id_L ∅ (∪)).
    repeat split; try done. lia.
  - destruct (process_file_calm f st Hf Hb)
      as (st1 & Hrun1 & Hf1 & Hb1 & Hu1 & Hh1 & Hr1 & Hc1).
    destruct (IH st1 Hf1 Hb1)
      as (st' & Hrun & Hf' & Hb' & Hu & Hh & Hr & Hc).
    cbv zeta in *. exists st'. rewrite for_each_cons, Hrun1.
    split; [done|]. split; [done|]. split; [done|].
    simpl concat. cbn [Ledger.expected_rows].
    rewrite first_seen_app, map_app, list_to_set_app_L, kept_app,
      !length_app, !app_assoc, (assoc_L (∪)).
    rewrite Hu, Hh, Hr, Hc, Hu1, Hh1, Hr1, Hc1.
    split; [done|]. split; [done|]. split; [done|]. lia.
Qed.

(** The loops of [process_path] over a directory go through its files
    in the order of [files]. *)
Lemma process_path_directory csv_files html_files htm_files
  (k : M unit) st :
  (for_each csv_files process_file ;;
   for_each [html_files; htm_files] (fun files0 =>
     for_each files0 process_file) ;;
   k) st
  = (for_each (files (IsDir csv_files html_files htm_files)) process_file ;;
     k) st.
Proof.
  unfold files, bind. rewrite for_each_app. unfold bind.
  destruct (for_each csv_files process_file st) as [[[]|e] st1]; [|done].
  rewrite for_each_concat. simpl concat. by rewrite app_nil_r.
Qed.

(** A whole run from a new [EmailParser], when no operation on the
    output file fails. *)
Lemma run_calm t :
  let cs := run_candidates iteration_order t in
  exists st',
    process_path extract_suffix iteration_order similarity_threshold
      excluded_emails t (init []) = (Returns tt, st') /\
    current_batch st' = [] /\
    unique_emails st' = list_to_set (map lower cs) /\
    all_emails st' = kept (first_seen ∅ cs) /\
    map row_key (output_file st') = expected_rows ∅ (files t) /\
    processed_count st' = (length cs + length (first_seen ∅ cs))%nat.
Proof.
  cbv zeta. unfold run_candidates, Parser.process_path.
  erewrite bind_returns by reflexivity.
  change (set_output_file _ _) with (init []).
  assert (forall st,
            faults st = [] -> current_batch st = [] ->
            unique_emails st = ∅ -> all_emails st = [] ->
            output_file st = [] -> processed_count st = 0%nat ->
            let cs := concat (map file_candidates (files t)) in
            exists st',
              for_each (files t) process_file st = (Returns tt, st') /\
              current_batch st' = [] /\
              unique_emails st' = list_to_set (map lower cs) /\
              all_emails st' = kept (first_seen ∅ cs) /\
              map row_key (output_file st') = expected_rows ∅ (files t) /\
              processed_count st'
              = (length cs + length (first_seen ∅ cs))%nat) as Hfiles.
  { intros st Hf Hb Hu0 Hh0 Hr0 Hc0.
    destruct (files_calm (files t) st Hf Hb)
      as (st' & Hrun & _ & Hb' & Hu & Hh & Hr & Hc).
    cbv zeta in *. exists st'.
    rewrite Hu0, (left_id_L ∅ (∪)) in Hu. rewrite Hu0, Hh0 in Hh.
    rewrite Hu0, Hr0 in Hr. rewrite Hu0, Hc0 in Hc. done. }
  cbv zeta in Hfiles.
  destruct t as [f|csv_files html_files htm_files|].
  - erewrite bind_returns by reflexivity.
    set (st := set_console _ _).
    destruct (Hfiles st) as (st' & Hrun & Hrest); [done..|].
    exists st'. split; [|done].
    cbn [files] in Hrun. rewrite for_each_cons in Hrun.
    destruct (process_file f st) as [[[]|e] st1]; [|done].
    simpl in Hrun. by injection Hrun as ->.
  - rewrite process_path_directory.
    destruct (Hfiles (init [])) as (st' & Hrun & Hrest); [done..|].
    erewrite bind_returns by exact Hrun.
    eexists. split; [reflexivity|]. done.
  - exists (init []). simpl. done.
Qed.

End Calm.

End LedgerFacts.
Import LedgerFacts.

(** ** Whole runs, whatever the input *)

(** X12: a run from a new [EmailParser] returns, or ends with [OSError]
    because an operation on the output file failed. No input makes it
    end otherwise: every address that reaches the scorer has an at sign,
    so the [IndexError] of the split never leaves a run, and a run for
    which no failure of the output file is to come returns. *)
Theorem run_returns_or_output_fails :
  forall (extract_suffix : string -> string)
         (iteration_order : gset string -> list string)
         (similarity_threshold : Q) (excluded_emails : gset string)
         (t : target) (faults : list bool),
    (forall s, iteration_order s ≡ₚ elements s) ->
    let r :=
      process_path extract_suffix iteration_order similarity_threshold
        excluded_emails t (init faults) in
    (r.1 = Returns tt \/ (r.1 = Raises OSError /\ true ∈ faults)) /\
    (Forall (fun b => b = false) faults -> r.1 = Returns tt).
Proof.
  intros extract_suffix iteration_order thr excluded t faults Horder.
  cbv zeta.
  pose proof (run_steady extract_suffix iteration_order thr excluded t
                faults Horder) as Hrun.
  destruct (process_path _ _ _ _ t (init faults)) as [[[]|e] st]; simpl.
  - auto.
  - destruct Hrun as (_ & -> & Hin). split; [auto|].
    intros Hcalm. by apply (proj1 (Forall_forall _ _) Hcalm) in Hin.
Qed.

Lemma run_returns_or_output_fails_witness :
  let r :=
    process_path Sample.extract_suffix Sample.iteration_order 90 ∅
      (csv [["a@b.com"]]) (init [false; false; true]) in
  (r.1 = Returns tt
   \/ (r.1 = Raises OSError /\ true ∈ [false; false; true])) /\
  (Forall (fun b => b = false) [false; false; true] -> r.1 = Returns tt).
Proof.
  apply (run_returns_or_output_fails Sample.extract_suffix
           Sample.iteration_order 90 ∅ (csv [["a@b.com"]])
           [false; false; true]).
  intros s. reflexivity.
Defined.



(** X14: at the end of a run from a new [EmailParser], however it ends,
    every address of the history and of the batch is in the set of
    unique addresses, case-folded; every member of that set is excluded,
    or in the history, or still queued; and the batch holds no more than
    [batch_size] addresses. When the run returns, nothing is left
    queued: the addresses of the history, case-folded, are the members
    of the set that are not excluded. So the number of unique addresses
    that the run prints counts the excluded ones that it found, and the
    report does not. *)
Theorem run_accounts_for_unique_addresses :
  forall (extract_suffix : string -> string)
         (iteration_order : gset string -> list string)
         (similarity_threshold : Q) (excluded_emails : gset string)
         (t : target) (faults : list bool),
    (forall s, iteration_order s ≡ₚ elements s) ->
    let r :=
      process_path extract_suffix iteration_order similarity_threshold
        excluded_emails t (init faults) in
    (forall e, e ∈ all_emails r.2 ++ current_batch r.2 ->
               lower e ∈ unique_emails r.2) /\
    (forall x, x ∈ unique_emails r.2 ->
               x ∈ excluded_emails \/
               x ∈ map lower (all_emails r.2 ++ current_batch r.2)) /\
    (length (current_batch r.2) <= batch_size)%nat /\
    (r.1 = Returns tt ->
     current_batch r.2 = [] /\
     forall x, x ∈ map lower (all_emails r.2) <->
               x ∈ unique_emails r.2 /\ x ∉ excluded_emails).
Proof.
  intros extract_suffix iteration_order thr excluded t faults Horder.
  cbv zeta.
  pose proof (run_steady extract_suffix iteration_order thr excluded t
                faults Horder) as Hrun.
  destruct (process_path _ _ _ _ t (init faults)) as [[[]|e] st]; simpl.
  - destruct Hrun as [(Hsync & Hrows & Hknown & Hcovered & Hsize) Hb].
    split; [done|]. split; [done|]. split; [done|]. intros _.
    split; [done|]. intros x. rewrite Hb, app_nil_r in Hknown, Hcovered.
    split.
    + intros (e & -> & He)%list_elem_of_fmap. split; [by apply Hknown|].
      rewrite <- Hsync in He.
      apply list_elem_of_fmap in He as (r & -> & Hr).
      by destruct (Hrows r Hr) as ((_ & Hex & _) & _).
    + intros [Hx Hex]. by destruct (Hcovered x Hx).
  - destruct Hrun as ((Hsync & Hrows & Hknown & Hcovered & Hsize) & _).
    split; [done|]. split; [done|]. split; [done|]. done.
Qed.

Lemma run_accounts_for_unique_addresses_witness :
  let r :=
    process_path Sample.extract_suffix Sample.iteration_order 90
      spam_excluded (csv [["spam@bad.tld"; "a@b.com"]]) (init []) in
  (forall e, e ∈ all_emails r.2 ++ current_batch r.2 ->
             lower e ∈ unique_emails r.2) /\
  (forall x, x ∈ unique_emails r.2 ->
             x ∈ spam_excluded \/
             x ∈ map lower (all_emails r.2 ++ current_batch r.2)) /\
  (length (current_batch r.2) <= batch_size)%nat /\
  (r.1 = Returns tt ->
   current_batch r.2 = [] /\
   forall x, x ∈ map lower (all_emails r.2) <->
             x ∈ unique_emails r.2 /\ x ∉ spam_excluded).
Proof.
  apply (run_accounts_for_unique_addresses Sample.extract_suffix
           Sample.iteration_order 90 spam_excluded
           (csv [["spam@bad.tld"; "a@b.com"]]) []).
  intros s. reflexivity.
Defined.

(** ** Runs without failures of the output file *)

(** X15: when no operation on the output file fails, a run from a new
    [EmailParser] over any file or directory returns with an empty
    batch, and with [cs] the addresses that its files hand over, in the
    order of the files: the set of unique addresses holds the
    case-folded forms of [cs]; the history and the report hold, in this
    order, the addresses of [cs] that are the first of their
    case-folded form and are not excluded, each once, wherever the
    flushes fell; each row names the file that the address was taken
    from; and the count is the number of addresses found plus the
    number of first occurrences. *)
Theorem calm_run_report :
  forall (extract_suffix : string -> string)
         (iteration_order : gset string -> list string)
         (similarity_threshold : Q) (excluded_emails : gset string)
         (t : target),
    (forall s, iteration_order s ≡ₚ elements s) ->
    let cs := run_candidates iteration_order t in
    exists st',
      process_path extract_suffix iteration_order similarity_threshold
        excluded_emails t (init []) = (Returns tt, st') /\
      current_batch st' = [] /\
      unique_emails st' = list_to_set (map lower cs) /\
      all_emails st' = kept excluded_emails (first_seen ∅ cs) /\
      map email_address (output_file st')
      = kept excluded_emails (first_seen ∅ cs) /\
      map row_key (output_file st')
      = expected_rows iteration_order excluded_emails ∅ (files t) /\
      processed_count st' = (length cs + length (first_seen ∅ cs))%nat.
Proof.
  intros extract_suffix iteration_order thr excluded t Horder. cbv zeta.
  destruct (run_calm extract_suffix iteration_order thr excluded Horder t)
    as (st' & Hrun & Hb & Hu & Hh & Hr & Hc).
  exists st'. repeat split; try done.
  rewrite <- row_key_addresses, Hr. apply expected_rows_addresses.
Qed.

Lemma calm_run_report_witness :
  let t :=
    csv [["john@example.com"; "spam@bad.tld"]; ["JOHN@example.com"];
         ["jon@example.com"]] in
  let cs := run_candidates Sample.iteration_order t in
  exists st',
    process_path Sample.extract_suffix Sample.iteration_order 90
      spam_excluded t (init []) = (Returns tt, st') /\
    current_batch st' = [] /\
    unique_emails st' = list_to_set (map lower cs) /\
    all_emails st' = kept spam_excluded (first_seen ∅ cs) /\
    map email_address (output_file st')
    = kept spam_excluded (first_seen ∅ cs) /\
    map row_key (output_file st')
    = expected_rows Sample.iteration_order spam_excluded ∅ (files t) /\
    processed_count st' = (length cs + length (first_seen ∅ cs))%nat.
Proof.
  intros t.
  apply (calm_run_report Sample.extract_suffix Sample.iteration_order 90
           spam_excluded t).
  intros s. reflexivity.
Defined.

(** X16: when no operation on the output file fails, the report of a
    run has no two rows whose addresses are equal up to case; an
    address, case-folded, is in the report exactly when the files hand
    it over and it is not excluded; the rows come in the order in which
    the files hand the addresses over; each row has the spelling of the
    first occurrence of its address; and each row names the first of
    the files that hand its address over, in any spelling. *)
Theorem calm_run_no_duplicates :
  forall (extract_suffix : string -> string)
         (iteration_order : gset string -> list string)
         (similarity_threshold : Q) (excluded_emails : gset string)
         (t : target),
    (forall s, iteration_order s ≡ₚ elements s) ->
    let cs := run_candidates iteration_order t in
    let rows :=
      output_file
        (process_path extract_suffix iteration_order
           similarity_threshold excluded_emails t (init [])).2 in
    let written := map email_address rows in
    NoDup (map lower written) /\
    (forall x, x ∈ map lower written <->
               x ∈ map lower cs /\ x ∉ excluded_emails) /\
    written `sublist_of` cs /\
    (forall e, e ∈ written ->
       exists before after,
         cs = before ++ e :: after /\ lower e ∉ map lower before) /\
    (forall r, r ∈ rows ->
       exists fs1 f fs2,
         files t = fs1 ++ f :: fs2 /\ source_file r = path f /\
         email_address r ∈ file_candidates iteration_order f /\
         lower (email_address r)
           ∉ map lower
               (concat (map (file_candidates iteration_order) fs1))).
Proof.
  intros extract_suffix iteration_order thr excluded t Horder. cbv zeta.
  destruct (run_calm extract_suffix iteration_order thr excluded Horder t)
    as (st' & Hrun & _ & _ & _ & Hkeys & _).
  rewrite Hrun. cbn [snd].
  assert (map email_address (output_file st')
          = kept excluded
              (first_seen ∅ (run_candidates iteration_order t))) as Hout.
  { rewrite <- row_key_addresses, Hkeys. apply expected_rows_addresses. }
  rewrite Hout.
  split; [apply kept_NoDup, first_seen_NoDup|].
  split; [|split; [|split]].
  - intros x. rewrite kept_lower, first_seen_lower.
    split; [tauto|]. intros [? ?]. split; [|done].
    split; [done | apply not_elem_of_empty].
  - etrans; [apply sublist_filter | apply first_seen_sublist].
  - intros e [_ He]%list_elem_of_filter.
    apply first_seen_first in He as (before & after & ? & ? & _). eauto.
  - intros r Hr.
    assert ((email_address r, source_file r)
              ∈ expected_rows iteration_order excluded ∅ (files t)) as Hin.
    { rewrite <- Hkeys. apply list_elem_of_fmap. by exists r. }
    apply expected_rows_first in Hin
      as (fs1 & f & fs2 & ? & ? & ? & ? & _).
    by exists fs1, f, fs2.
Qed.

Lemma calm_run_no_duplicates_witness :
  let t :=
    csv [["john@example.com"; "spam@bad.tld"]; ["JOHN@example.com"];
         ["jon@example.com"]] in
  let cs := run_candidates Sample.iteration_order t in
  let rows :=
    output_file
      (process_path Sample.extract_suffix Sample.iteration_order 90
         spam_excluded t (init [])).2 in
  let written := map email_address rows in
  NoDup (map lower written) /\
  (forall x, x ∈ map lower written <->
             x ∈ map lower cs /\ x ∉ spam_excluded) /\
  written `sublist_of` cs /\
  (forall e, e ∈ written ->
     exists before after,
       cs = before ++ e :: after /\ lower e ∉ map lower before) /\
  (forall r, r ∈ rows ->
     exists fs1 f fs2,
       files t = fs1 ++ f :: fs2 /\ source_file r = path f /\
       email_address r ∈ file_candidates Sample.iteration_order f /\
       lower (email_address r)
         ∉ map lower
             (concat (map (file_candidates Sample.iteration_order) fs1))).
Proof.
  intros t.
  apply (calm_run_no_duplicates Sample.extract_suffix
           Sample.iteration_order 90 spam_excluded t).
  intros s. reflexivity.
Defined.



(** ** The pieces that the scorer looks at *)

Module PiecesFacts.
Import Text Regex Language Parser Signals Alphabet.
Import RegexFacts ScorerFacts MatcherFacts.

#[local] Hint Constructors matches : core.

(** [re.search] finds a match exactly when a piece of the text is a word
    of the pattern. *)
Lemma search_iff r s :
  search r s = true <->
  exists before w after, s = before ++ w ++ after /\ matches false r w.
Proof.
  split.
  - induction s as [|c s IH]; simpl.
    + destruct (match_len false r []) as [n|] eqn:Hn; [|done]. intros _.
      apply match_len_sound in Hn as [Hw _]. exists [], (take n []), [].
      by rewrite take_nil in *.
    + destruct (match_len false r (c :: s)) as [n|] eqn:Hn.
      * intros _. apply match_len_sound in Hn as [Hw _].
        exists [], (take n (c :: s)), (drop n (c :: s)).
        by rewrite app_nil_l, take_drop.
      * intros (before & w & after & -> & Hw)%IH.
        by exists (c :: before), w, after.
  - intros (before & w & after & -> & Hw).
    induction before as [|c before IH]; simpl.
    + destruct (match_len_complete false r w after Hw) as [n Hn].
      destruct (w ++ after); simpl; by rewrite Hn.
    + by destruct (match_len false r (c :: before ++ w ++ after)).
Qed.

Lemma accepts_special c : accepts false special c = is_special c.
Proof. by destruct c as [[] [] [] [] [] [] [] []]. Qed.

Lemma matches_consecutive_special w :
  matches false consecutive_special w ->
  exists c1 c2 w',
    w = c1 :: c2 :: w' /\ is_special c1 = true /\ is_special c2 = true.
Proof.
  unfold consecutive_special. intros H.
  inversion H as [| |r1 r2 w1 w23 H1 H23| | | |]; subst.
  inversion H1 as [|cs c1 Hc1| | | | |]; subst.
  inversion H23 as [| |r1 r2 w2 w3 H2 H3| | | |]; subst.
  inversion H2 as [|cs c2 Hc2| | | | |]; subst.
  rewrite accepts_special in Hc1, Hc2. by exists c1, c2, w3.
Qed.

Lemma consecutive_special_pair c1 c2 :
  is_special c1 = true -> is_special c2 = true ->
  matches false consecutive_special [c1; c2].
Proof.
  intros H1 H2. rewrite <- accepts_special in H1, H2.
  unfold consecutive_special.
  apply (matches_seq false _ _ [c1] [c2]); [auto|].
  apply (matches_seq false _ _ [c2] []); auto.
Qed.

(** *** [str.split] and [str.join] *)

Lemma concat_String sep c p ps :
  String.concat sep (String c p :: ps) = String c (String.concat sep (p :: ps)).
Proof. by destruct ps. Qed.

(** Joining the pieces with the separator gives the text back. *)
Lemma split_concat sep s : String.concat (String sep "") (split sep s) = s.
Proof.
  induction s as [|c s IH]; [done|]. rewrite split_cons.
  pose proof (split_nonempty sep s) as Hne.
  destruct (split sep s) as [|p ps]; [done|].
  destruct (Ascii.eqb_spec c sep) as [->|_].
  - change (String.concat (String sep "") ("" :: p :: ps))
      with (String sep (String.concat (String sep "") (p :: ps))).
    by rewrite IH.
  - by rewrite concat_String, IH.
Qed.

(** No piece holds the separator. *)
Lemma split_pieces sep s : Forall (fun p => sep ∉ chars p) (split sep s).
Proof.
  induction s as [|c s IH]; simpl.
  - constructor; [|done]. by intros ?%elem_of_nil.
  - pose proof (split_nonempty sep s) as Hne.
    destruct (Ascii.eqb_spec c sep) as [->|Hc].
    + constructor; [by intros ?%elem_of_nil | done].
    + destruct (split sep s) as [|p ps]; [done|].
      apply Forall_cons in IH as [Hp Hps]. constructor; [|done].
      simpl. by intros [?|?]%elem_of_cons.
Qed.

(** There is one piece more than there are separators. *)
Lemma split_length sep s :
  length (split sep s) = S (Difflib.occurrences sep (chars s)).
Proof.
  unfold Difflib.occurrences. induction s as [|c s IH]; [done|].
  rewrite split_cons. simpl chars. rewrite filter_cons.
  pose proof (split_nonempty sep s) as Hne.
  destruct (Ascii.eqb_spec c sep) as [->|Hc].
  - rewrite decide_True by done. simpl. by rewrite IH.
  - rewrite decide_False by done.
    destruct (split sep s) as [|p ps]; [done|]. simpl in *. done.
Qed.

End PiecesFacts.
Import PiecesFacts.

(** X18: the penalty for special characters in a row is raised exactly
    when the text before the first at sign has two characters of
    [._%+-] next to each other: [re.search] with [[._%+-]{2,}] finds
    them wherever they stand. *)
Theorem repeated_special_pair :
  forall (email : string),
    repeated_special email = true <->
    exists before c1 c2 after,
      chars (local_part email) = before ++ c1 :: c2 :: after /\
      is_special c1 = true /\ is_special c2 = true.
Proof.
  intros email. unfold repeated_special. rewrite search_iff. split.
  - intros (before & w & after & Heq & Hw).
    apply matches_consecutive_special in Hw as (c1 & c2 & w' & -> & H1 & H2).
    exists before, c1, c2, (w' ++ after). by rewrite Heq.
  - intros (before & c1 & c2 & after & Heq & H1 & H2).
    exists before, [c1; c2], after. split; [done|].
    by apply consecutive_special_pair.
Qed.

(** X19: what the scorer takes for the two parts of an address with an
    at sign. Its local part is the text before the first at sign, and
    its domain is the text between the first at sign and the next one,
    or the end: joined with at signs, the pieces of the split give the
    address back, and neither of the two holds an at sign. The labels of
    the domain are its pieces between the dots, and the penalty for many
    labels is raised exactly when that text has four dots or more. *)
Theorem scorer_pieces :
  forall (email : string),
    "@"%char ∈ chars email ->
    exists domain rest,
      split "@" email = local_part email :: domain :: rest /\
      String.concat "@" (local_part email :: domain :: rest) = email /\
      ("@"%char ∉ chars (local_part email)) /\
      ("@"%char ∉ chars domain) /\
      domain_labels email = split "." domain /\
      String.concat "." (domain_labels email) = domain /\
      (many_labels email = true <->
       (4 <= Difflib.occurrences "." (chars domain))%nat).
Proof.
  intros email Hat. unfold many_labels, domain_labels, local_part.
  destruct (split_present _ _ Hat) as [domain Hdomain].
  pose proof (split_concat "@" email) as Hjoin.
  pose proof (split_pieces "@" email) as Hfree.
  destruct (split "@" email) as [|lp [|d rest]]; try done.
  simpl in Hdomain. injection Hdomain as ->. simpl default.
  change ((lp :: domain :: rest) !! 1%nat) with (Some domain).
  apply Forall_cons in Hfree as [Hlp [Hd _]%Forall_cons].
  exists domain, rest. split; [done|]. split; [done|].
  split; [done|]. split; [done|]. split; [done|].
  split; [apply split_concat|].
  rewrite split_length, Nat.ltb_lt. lia.
Qed.

Lemma scorer_pieces_witness :
  exists domain rest,
    split "@" "first.last@mail.example.com"
    = local_part "first.last@mail.example.com" :: domain :: rest /\
    String.concat "@"
      (local_part "first.last@mail.example.com" :: domain :: rest)
    = "first.last@mail.example.com" /\
    ("@"%char ∉ chars (local_part "first.last@mail.example.com")) /\
    ("@"%char ∉ chars domain) /\
    domain_labels "first.last@mail.example.com" = split "." domain /\
    String.concat "." (domain_labels "first.last@mail.example.com")
    = domain /\
    (many_labels "first.last@mail.example.com" = true <->
     (4 <= Difflib.occurrences "." (chars domain))%nat).
Proof.
  apply (scorer_pieces "first.last@mail.example.com").
  apply list_elem_of_In. vm_compute. tauto.
Defined.
